(** * audio-signal-lab: the signal-processing pipeline of js/audio-engine.js

    A shallow embedding of the audio engine (band-limited oscillator spectra,
    instrument voices, quantisation and mu-law companding, SNR measurement,
    DAC reconstruction and its smoothing filter, offline rendering), of the
    helpers of js/utils.js (clamp, ADSR envelope, dominant frequency, next
    power of two) and of the WAV encoders that turn a recording into the
    bytes of a file.  An [ArrayBuffer] is the list of its bytes, and a write
    through a [DataView] that does not fit throws a RangeError.

    Number model.  A JavaScript number is modelled by a real number of the
    Standard Library: arithmetic is exact, so the rounding of IEEE doubles
    and of stores into a Float32Array is not represented, and neither are
    overflow and the sign of zero.  The non-finite values appear only where
    the code can produce them from finite inputs and a claim depends on it
    (the value returned by [computeSNR]).  Integer-valued numbers (array
    lengths, loop counters, results of [Math.floor] and [Math.round], sample
    codes) live in [Z], and pass to [R] through [IZR].  Division by zero,
    which yields an infinity or NaN in JavaScript, is outside the model: the
    theorems that divide assume a non-zero divisor.

    Typed arrays are lists; [new Float32Array(n)] is [replicate n 0] and an
    indexed store is stdpp's list insert (which, like a typed array, ignores
    an index out of range).  [Math.random] reads a stream of draws that is
    threaded through the code as explicit state.

    The Web Audio API is outside the repository.  The nodes the renderer
    creates are recorded as data, the rendering of the graph is a function
    the development is parametric in, and the argument checks of the Web
    Audio constructors are not represented.

    Functions over [R] do not reduce to numerals, so the values at concrete
    inputs are stated and proved as equations. *)

From Stdlib Require Import Reals Lra Lia ZArith String DecimalString.
From stdpp Require Import base list strings.

Open Scope R_scope.

(** ** JavaScript numbers and the [Math] object *)

#[global] Instance R_inhabited : Inhabited R := populate 0.
#[global] Instance Rlt_decision (x y : R) : Decision (x < y) := Rlt_dec x y.
#[global] Instance Rle_decision (x y : R) : Decision (x <= y) := Rle_dec x y.
#[global] Instance Rgt_decision (x y : R) : Decision (x > y) := Rgt_dec x y.
#[global] Instance Req_decision : EqDecision R := Req_dec_T.

Module Math.

Definition floor (x : R) : Z := Int_part x.
Definition ceil (x : R) : Z := (- floor (- x))%Z.
(** [Math.round] rounds to the nearest integer, halves towards +infinity. *)
Definition round (x : R) : Z := floor (x + 1 / 2).
Definition trunc (x : R) : Z := if decide (x < 0) then ceil x else floor x.
Definition max (x y : R) : R := Rmax x y.
Definition min (x y : R) : R := Rmin x y.
Definition abs (x : R) : R := Rabs x.
Definition log (x : R) : R := ln x.
(** [Math.pow] for a positive base, the only use the engine makes of it. *)
Definition pow (x y : R) : R := Rpower x y.
Definition PI : R := Rtrigo1.PI.

End Math.

(** The value of a call: normal completion, or a thrown exception. *)
Inductive completion (A : Type) : Type :=
  | Normal (v : A)
  | Throw (err : string).
Arguments Normal {A} v.
Arguments Throw {A} err.

(** Numbers that may be non-finite. *)
Inductive number : Type :=
  | Fin (r : R)
  | Infinity
  | NegInfinity
  | NaN.

(** [Math.log10] on a finite argument. *)
Definition Math_log10 (x : R) : number :=
  if decide (x < 0) then NaN
  else if decide (x = 0) then NegInfinity
  else Fin (ln x / ln 10).

(** Product of a positive finite number and a number. *)
Definition scale_pos (c : R) (v : number) : number :=
  match v with
  | Fin r => Fin (c * r)
  | other => other
  end.

(** ** Typed arrays *)

Definition len {A} (l : list A) : Z := Z.of_nat (length l).

(** [a[i]] for an index the surrounding code keeps within bounds. *)
Definition aget {A} `{Inhabited A} (a : list A) (i : Z) : A := a !!! Z.to_nat i.

(** [a[i] = v]; a store at an index outside the array is ignored. *)
Definition aset {A} (a : list A) (i : Z) (v : A) : list A :=
  if decide (0 <= i)%Z then <[Z.to_nat i := v]> a else a.

Definition Float32Array (n : Z) : list R := replicate (Z.to_nat n) 0.

(** Conversion of a number to a [w]-bit integer on a store into an integer
    typed array: truncation, then wrap-around modulo [2^w]. *)
Definition toUint (w : Z) (x : R) : Z := (Math.trunc x mod 2 ^ w)%Z.
Definition toInt (w : Z) (x : R) : Z :=
  ((Math.trunc x + 2 ^ (w - 1)) mod 2 ^ w - 2 ^ (w - 1))%Z.

(** ** [Math.random] as a state *)

(** The draws to come; [Math.random()] takes the first one. *)
Definition RNG : Type := nat -> R.
Definition Rand (A : Type) : Type := RNG -> A * RNG.

Definition ret {A} (a : A) : Rand A := fun s => (a, s).
Definition bind {A B} (m : Rand A) (k : A -> Rand B) : Rand B :=
  fun s => let (a, s') := m s in k a s'.
Definition Math_random : Rand R := fun s => (s 0%nat, fun n => s (S n)).

Notation "'let!' x ':=' m 'in' k" := (bind m (fun x => k))
  (at level 10, x pattern, m at level 100, k at level 200).

(** A loop over the indices [l] whose body may call [Math.random]. *)
Fixpoint forM {S} (body : S -> Z -> Rand S) (st : S) (l : list Z) : Rand S :=
  match l with
  | [] => ret st
  | i :: l' => let! st' := body st i in forM body st' l'
  end.

(** ** js/utils.js *)

Definition clamp (x lo hi : R) : R := Math.min hi (Math.max lo x).

(** ** DAC reconstruction *)

Definition startsWith (s p : string) : bool := String.prefix p s.

(** The source index [n0] of output sample [i]. *)
Definition dac_index (fsIn fsOut : R) (i : Z) : Z :=
  let t := IZR i / fsOut in
  let n := t * fsIn in
  Math.floor n.

(** The guard of the branch that emits silence. *)
Definition dac_out_of_bounds (q : list R) (n0 : Z) : bool :=
  bool_decide (n0 < 0)%Z || bool_decide (n0 >= len q)%Z.

(** One iteration of the loop: the value stored in [y[i]]. *)
Definition dac_sample (q : list R) (fsIn fsOut : R) (linear : bool) (i : Z) : R :=
  let t := IZR i / fsOut in
  let n := t * fsIn in
  let n0 := Math.floor n in
  let frac := n - IZR n0 in
  if dac_out_of_bounds q n0 then 0
  else if negb linear || bool_decide (n0 = len q - 1)%Z then aget q n0
  else
    let n1 := (n0 + 1)%Z in
    aget q n0 * (1 - frac) + aget q n1 * frac.

(** [new Float32Array(Nout)] throws a RangeError for a negative length. *)
Definition reconstructDAC (q : list R) (fsIn fsOut : R) (methodLabel : string)
  : completion (list R) :=
  let duration := IZR (len q) / fsIn in
  let Nout := Math.floor (duration * fsOut) in
  if decide (Nout < 0)%Z then Throw "RangeError"
  else
    let y := Float32Array Nout in
    let linear := startsWith methodLabel "Linear" in
    Normal (foldl (fun y i => aset y i (dac_sample q fsIn fsOut linear i))
                  y (seqZ 0 Nout)).

(** The linear method as the specification words it: the interpolation
    between [q[floor n]] and [q[floor n + 1]] by the fractional part of the
    source position [n], and the held value at the final source sample. *)
Definition linear_interpolation (q : list R) (n : R) : R :=
  let n0 := Math.floor n in
  let frac := n - IZR n0 in
  if decide (n0 = len q - 1)%Z then aget q n0
  else aget q n0 * (1 - frac) + aget q (n0 + 1) * frac.

(** ** Signal-to-noise ratio *)

(** The body of the loop of [computeSNR].  [pErr] is [None] once it is NaN,
    which happens when [y] is shorter than [x] and [y[i]] is undefined. *)
Definition snr_step (x y : list R) (acc : R * option R) (i : Z) : R * option R :=
  let '(pSig, pErr) := acc in
  let s := aget x i in
  let e := (fun yi => aget x i - yi) <$> y !! Z.to_nat i in
  (pSig + s * s,
   match pErr, e with
   | Some p, Some e => Some (p + e * e)
   | _, _ => None
   end).

Definition computeSNR (x y : list R) : number :=
  let N := len x in
  let '(pSig, pErr) := foldl (snr_step x y) (0, Some 0) (seqZ 0 N) in
  match pErr with
  | None => NaN
  | Some pErr =>
      if decide (pErr <= 1e-20) then Infinity
      else scale_pos 10 (Math_log10 (pSig / pErr))
  end.

(** The sums of the specification: the signal power and the total squared
    error of two buffers, index by index. *)
Fixpoint sum_squares (x : list R) : R :=
  match x with
  | [] => 0
  | s :: x' => s * s + sum_squares x'
  end.

Fixpoint squared_error (x y : list R) : R :=
  match x, y with
  | s :: x', r :: y' => (s - r) * (s - r) + squared_error x' y'
  | _, _ => 0
  end.

(** ** Band-limited periodic waves *)

Record PeriodicWave : Type := {
  real : list R;
  imag : list R;
  disableNormalization : bool
}.

(** The indices visited by [for (let n = start; n <= kMax; n += step)]. *)
Fixpoint for_upto (fuel : nat) (n step kMax : Z) : list Z :=
  match fuel with
  | O => []
  | S fuel' =>
      if decide (n <= kMax)%Z then n :: for_upto fuel' (n + step) step kMax
      else []
  end.

Definition harmonics (step kMax : Z) : list Z :=
  for_upto (Z.to_nat kMax) 1 step kMax.

(** Sets a sinusoid at harmonic [k] with magnitude [A] and phase [phi]. *)
Definition addHarm (phi : R) (ri : list R * list R) (k : Z) (A : R)
  : list R * list R :=
  let '(re, im) := ri in
  (aset re k (aget re k + A * cos phi), aset im k (aget im k + A * sin phi)).

(** The gentle roll-off above 80% of Nyquist, shared by the three loops. *)
Definition rolloff_amplitude (sr f0 : R) (n : Z) (amplitude : R) : R :=
  let freq := IZR n * f0 in
  let nyquist := sr / 2 in
  if decide (freq > nyquist * 0.8) then
    let rolloff := 1 - ((freq - nyquist * 0.8) / (nyquist * 0.2)) in
    amplitude * Math.max 0 rolloff
  else amplitude.

Definition square_step (sr f0 phi : R) (ri : list R * list R) (n : Z)
  : list R * list R :=
  let scale := 4 / Math.PI in
  let amplitude := rolloff_amplitude sr f0 n (scale * (1 / IZR n)) in
  if decide (amplitude > 0) then addHarm phi ri n amplitude else ri.

(** [n] is odd in this loop, so [(n - 1) / 2] is an integer. *)
Definition triangle_step (sr f0 phi : R) (ri : list R * list R) (n : Z)
  : list R * list R :=
  let scale := 8 / (Math.PI * Math.PI) in
  let sign := if decide (Z.rem ((n - 1) / 2) 2 = 0)%Z then 1 else -1 in
  let amplitude := rolloff_amplitude sr f0 n (scale * sign * (1 / (IZR n * IZR n))) in
  if decide (Math.abs amplitude > 0.00001) then addHarm phi ri n amplitude else ri.

Definition sawtooth_step (sr f0 phi : R) (ri : list R * list R) (n : Z)
  : list R * list R :=
  let scale := 2 / Math.PI in
  let sign := if decide (Z.rem (n + 1) 2 = 0)%Z then 1 else -1 in
  let amplitude := rolloff_amplitude sr f0 n (scale * sign * (1 / IZR n)) in
  if decide (Math.abs amplitude > 0.00001) then addHarm phi ri n amplitude else ri.

(** [ctx] is used for its sample rate [sr] only. *)
Definition buildPeriodicWave (sr : R) (shape : string) (f0 phaseDeg : R)
    (limitHarmonics : bool) : PeriodicWave :=
  let nyquist := sr / 2 in
  let maxFreq := nyquist * 0.9 in
  let kMax := if limitHarmonics
              then Z.max 1 (Math.floor (maxFreq / Math.max 1 f0))
              else 256%Z in
  let arraySize := Z.max (kMax + 1) 8192 in
  let re := Float32Array arraySize in
  let im := Float32Array arraySize in
  let phi := phaseDeg * Math.PI / 180 in
  let '(re, im) :=
    if decide (shape = "sine") then addHarm phi (re, im) 1 1
    else if decide (shape = "square") then
      foldl (square_step sr f0 phi) (re, im) (harmonics 2 kMax)
    else if decide (shape = "triangle") then
      foldl (triangle_step sr f0 phi) (re, im) (harmonics 2 kMax)
    else if decide (shape = "sawtooth") then
      foldl (sawtooth_step sr f0 phi) (re, im) (harmonics 1 kMax)
    else addHarm phi (re, im) 1 1 in
  {| real := re; imag := im; disableNormalization := false |}.

(** A step of a harmonic loop leaves the arrays alone or adds a harmonic at
    the index of the iteration. *)
Definition adds_harmonic (phi : R)
    (step : list R * list R -> Z -> list R * list R) : Prop :=
  forall ri n, step ri n = ri \/ exists A, step ri n = addHarm phi ri n A.

(** Harmonic [k] carries energy in [pw]: one of its two coefficients is
    not zero. *)
Definition nonzero_coefficient (pw : PeriodicWave) (k : Z) : Prop :=
  (0 <= k)%Z /\ (aget (real pw) k <> 0 \/ aget (imag pw) k <> 0).

(** ** Quantisation *)

Inductive IntArray : Type :=
  | Int8Array (a : list Z)
  | Int16Array (a : list Z)
  | Int32Array (a : list Z)
  | Uint8Array (a : list Z).

Definition int_data (a : IntArray) : list Z :=
  match a with
  | Int8Array a | Int16Array a | Int32Array a | Uint8Array a => a
  end.

Record QuantizeOptions : Type := {
  bits : Z;
  dither : bool;
  compression : string
}.

Record QuantizationResult : Type := {
  qFloat : list R;
  errFloat : list R;
  pcm : IntArray;
  encLabel : string;
  ulaw : option (list Z)
}.

Definition signMuLawInverse (y mu : R) : R :=
  let sign := if decide (y < 0) then -1 else 1 in
  let ay := Math.abs y in
  let x := sign * ((Math.pow (1 + mu) ay - 1) / mu) in
  clamp x (-1) 1.

(** The body of the mu-law loop, on the arrays [(ulaw, qFloat, errFloat)]. *)
Definition mulaw_step (xFloat : list R) (st : list Z * list R * list R) (i : Z)
  : list Z * list R * list R :=
  let '(ulaw, qFloat, errFloat) := st in
  let x := clamp (aget xFloat i) (-1) 1 in
  let sign := if decide (x < 0) then -1 else 1 in
  let mu := 255 in
  let y := sign * (Math.log (1 + mu * Math.abs x) / Math.log (1 + mu)) in
  let val := Math.round ((y + 1) * 127.5) in
  let ulaw := aset ulaw i (toUint 8 (clamp (IZR val) 0 255)) in
  let yDec := IZR (aget ulaw i) / 127.5 - 1 in
  let xRec := signMuLawInverse yDec mu in
  (ulaw, aset qFloat i xRec, aset errFloat i (x - xRec)).

(** The body of the linear PCM loop, on [(arr, qFloat, errFloat)]; [w] is
    the width of the elements of [arr]. *)
Definition pcm_step (xFloat : list R) (w : Z) (peak step : R) (dither : bool)
    (st : list Z * list R * list R) (i : Z) : Rand (list Z * list R * list R) :=
  let '(arr, qFloat, errFloat) := st in
  let v := clamp (aget xFloat i) (-1) 1 in
  let! v := (if dither then
               let! r1 := Math_random in
               let! r2 := Math_random in
               let v := v + (r1 + r2 - 1) * step in
               ret (clamp v (-1) 1)
             else ret v) in
  let q := Math.round (v * peak) in
  let qv := IZR q / peak in
  ret (aset arr i (toInt w (IZR q)), aset qFloat i qv, aset errFloat i (v - qv)).

Definition Z_to_string (n : Z) : string := NilZero.string_of_int (Z.to_int n).

Definition quantizeBuffer (xFloat : list R) (o : QuantizeOptions)
  : Rand QuantizationResult :=
  let N := len xFloat in
  let qFloat := Float32Array N in
  let errFloat := Float32Array N in
  if startsWith (compression o) "μ" then
    let ulaw := replicate (Z.to_nat N) 0%Z in
    let '(ulaw, qFloat, errFloat) :=
      foldl (mulaw_step xFloat) (ulaw, qFloat, errFloat) (seqZ 0 N) in
    ret {| qFloat := qFloat; errFloat := errFloat; pcm := Uint8Array ulaw;
           encLabel := "μ-law8"; ulaw := Some ulaw |}
  else
    let peak := Math.pow 2 (IZR (bits o) - 1) - 1 in
    let step := 1 / peak in
    let zeros := replicate (Z.to_nat N) 0%Z in
    let w := if decide (bits o = 8)%Z then 8%Z
             else if decide (bits o = 16)%Z then 16%Z else 32%Z in
    let! (arr, qFloat, errFloat) :=
      forM (pcm_step xFloat w peak step (dither o)) (zeros, qFloat, errFloat)
           (seqZ 0 N) in
    let arr := if decide (bits o = 8)%Z then Int8Array arr
               else if decide (bits o = 16)%Z then Int16Array arr
               else Int32Array arr in
    ret {| qFloat := qFloat; errFloat := errFloat; pcm := arr;
           encLabel := Z_to_string (bits o) +:+ "-bit PCM"; ulaw := None |}.

(** The body of [quantizeBuffer] has no [throw] and calls nothing that
    throws, so a call completes normally with the value returned. *)
Definition call_quantizeBuffer (xFloat : list R) (o : QuantizeOptions)
  : Rand (completion QuantizationResult) :=
  let! r := quantizeBuffer xFloat o in ret (Normal r).

(** A call fails with the condition [condition]. *)
Definition fails_with {A} (c : completion A) (condition : string) : Prop :=
  c = Throw condition.

(** Mu-law companding as the specification words it: the compressed value
    [sign(x) * ln(1 + 255|x|) / ln(256)], the byte
    [round((y + 1) * 127.5)] clamped to [0, 255], and the inverse of the
    companding formula applied to a byte. *)
Definition sgn (x : R) : R :=
  if decide (x < 0) then -1 else if decide (x = 0) then 0 else 1.

Definition mulaw_compress (x : R) : R :=
  sgn x * ln (1 + 255 * Rabs x) / ln 256.

Definition mulaw_encode (x : R) : Z :=
  Z.min 255 (Z.max 0 (Math.round ((mulaw_compress (clamp x (-1) 1) + 1) * 127.5))).

Definition mulaw_expand (y : R) : R :=
  sgn y * (Rpower 256 (Rabs y) - 1) / 255.

Definition mulaw_decode (byte : Z) : R :=
  mulaw_expand (IZR byte / 127.5 - 1).

(** What the specification states of the result of the mu-law path on the
    input [xFloat]: the bytes, the reconstructed samples decoded from the
    bytes, and the error of each sample, taken from [reference x] (the
    sample [x] itself in the specification). *)
Definition mulaw_result_spec (reference : R -> R) (xFloat : list R)
    (r : QuantizationResult) : Prop :=
  int_data (pcm r) = mulaw_encode <$> xFloat /\
  qFloat r = (fun x => mulaw_decode (mulaw_encode x)) <$> xFloat /\
  errFloat r = (fun x => reference x - mulaw_decode (mulaw_encode x)) <$> xFloat.

(** ** Instrument voices *)

Record EnvelopeParams : Type := {
  attack : R;
  decay : R;
  sustain : R;
  release : R
}.

(** One phase of [generateADSR]:
    [for (let j = 0; j < count && i < length; j++, i++) envelope[i] = f j].
    Once [i] reaches [length] the loop is left and [i] stays. *)
Definition adsr_phase (count length : Z) (f : Z -> R) (st : Z * list R)
  : Z * list R :=
  foldl (fun '(i, envelope) j =>
           if decide (i < length)%Z then ((i + 1)%Z, aset envelope i (f j))
           else (i, envelope))
        st (seqZ 0 count).

Definition generateADSR (length : Z) (sampleRate : R) (params : EnvelopeParams)
  : list R :=
  let envelope := Float32Array length in
  let attackSamples := Math.floor (attack params * sampleRate) in
  let decaySamples := Math.floor (decay params * sampleRate) in
  let releaseSamples := Math.floor (release params * sampleRate) in
  let sustainSamples := (length - attackSamples - decaySamples - releaseSamples)%Z in
  let st := (0%Z, envelope) in
  let st := adsr_phase attackSamples length
              (fun j => IZR j / IZR attackSamples) st in
  let st := adsr_phase decaySamples length
              (fun j => 1 - (1 - sustain params) * (IZR j / IZR decaySamples)) st in
  let st := adsr_phase sustainSamples length (fun _ => sustain params) st in
  let st := adsr_phase releaseSamples length
              (fun j => sustain params * (1 - IZR j / IZR releaseSamples)) st in
  st.2.

(** A row [{ ratio, amp }] of a table of harmonics. *)
Definition piano_harmonics : list (R * R) :=
  [(1, 1); (2, 0.5); (3, 0.3); (4, 0.2); (5, 0.15); (6, 0.1); (7, 0.08); (8, 0.05)].

Definition violin_harmonics : list (R * R) :=
  [(1, 1); (2, 0.45); (3, 0.3); (4, 0.25); (5, 0.18); (6, 0.12); (7, 0.08);
   (8, 0.06); (9, 0.04); (10, 0.03)].

Definition createPianoSound (sampleRate frequency duration amplitude : R) : list R :=
  let samples := Math.floor (duration * sampleRate) in
  let data := Float32Array samples in
  let envelope := generateADSR samples sampleRate
    {| attack := 0.005; decay := 0.1; sustain := 0.3; release := 0.5 |} in
  foldl (fun data i =>
           let t := IZR i / sampleRate in
           let sample :=
             foldl (fun sample '(ratio, amp) =>
                      let freq := frequency * ratio in
                      let stretchedFreq := freq * Math.pow 1.0003 ratio in
                      sample + amp * sin (2 * Math.PI * stretchedFreq * t))
                   0 piano_harmonics in
           aset data i (sample * aget envelope i * amplitude * 0.3))
        data (seqZ 0 samples).

(** The body of the sample loop of [createViolinSound]. *)
Definition violin_step (sampleRate frequency amplitude : R)
    (envelope phaseOffsets : list R) (data : list R) (i : Z) : Rand (list R) :=
  let vibratoRate := 4.5 in
  let vibratoDepth := 0.002 in
  let t := IZR i / sampleRate in
  let vibratoEnvelope := Math.min 1 (t * 10) in
  let vibrato :=
    1 + vibratoDepth * vibratoEnvelope * sin (2 * Math.PI * vibratoRate * t) in
  let sample :=
    foldl (fun sample j =>
             let '(ratio, amp) := violin_harmonics !!! Z.to_nat j in
             let freq := frequency * ratio * vibrato in
             sample + amp * sin (2 * Math.PI * freq * t + aget phaseOffsets j))
          0 (seqZ 0 (len violin_harmonics)) in
  let! sample := (if decide (t < 0.1) then
                    let! r := Math_random in
                    ret (sample + (r - 0.5) * 0.02 * (1 - t * 10))
                  else ret sample) in
  ret (aset data i (sample * aget envelope i * amplitude * 0.4)).

(** [harmonics.map(() => Math.random() * 2 * Math.PI)] *)
Fixpoint random_phases {A} (hs : list A) : Rand (list R) :=
  match hs with
  | [] => ret []
  | _ :: hs' =>
      let! r := Math_random in
      let! rest := random_phases hs' in
      ret (r * 2 * Math.PI :: rest)
  end.

Definition createViolinSound (sampleRate frequency duration amplitude : R)
  : Rand (list R) :=
  let samples := Math.floor (duration * sampleRate) in
  let data := Float32Array samples in
  let envelope := generateADSR samples sampleRate
    {| attack := 0.08; decay := 0.1; sustain := 0.7; release := 0.3 |} in
  let! phaseOffsets := random_phases violin_harmonics in
  forM (violin_step sampleRate frequency amplitude envelope phaseOffsets)
       data (seqZ 0 samples).

(** ** Offline rendering *)

Record Wave : Type := {
  type : string;
  amp : R;
  freq : R;
  phaseDeg : R
}.

Record Filter : Type := {
  filter_type : string;
  cutoff : R
}.

(** The nodes the renderer creates; each feeds a gain node and then the
    destination (or the filter), starts at 0 and stops at [stop]. *)
Inductive SourceNode : Type :=
  | BufferSource (buffer : list R) (loop : bool) (loopEnd : option R)
                 (gain : R) (stop : R)
  | Oscillator (frequency : R) (wave : PeriodicWave) (gain : R) (stop : R).

Record BiquadFilterNode : Type := {
  biquad_type : string;
  biquad_frequency : R;
  biquad_Q : R
}.

(** What [ctx.startRendering()] is handed: the offline context and the graph
    connected to its destination. *)
Record OfflineGraph : Type := {
  numberOfChannels : Z;
  ctx_length : Z;
  ctx_sampleRate : R;
  biquad : option BiquadFilterNode;
  sources : list SourceNode
}.

(** The source node of one entry of [waves], if it is not skipped. *)
Definition wave_source (duration sampleRate : R) (antiAliasMaxHarmonics : bool)
    (w : Wave) : Rand (option SourceNode) :=
  if decide (amp w <= 0) then ret None
  else if bool_decide (type w = "piano") || bool_decide (type w = "violin") then
    let! buffer := (if decide (type w = "piano")
                    then ret (createPianoSound sampleRate (freq w) duration (amp w))
                    else createViolinSound sampleRate (freq w) duration (amp w)) in
    let loopEnd := if decide (type w = "piano") then Some 1 else None in
    ret (Some (BufferSource buffer true loopEnd 1 duration))
  else
    let pw := buildPeriodicWave sampleRate (type w) (freq w) (phaseDeg w)
                antiAliasMaxHarmonics in
    ret (Some (Oscillator (clamp (freq w) 1 (sampleRate / 2 - 1)) pw (amp w) duration)).

Fixpoint wave_sources (duration sampleRate : R) (antiAliasMaxHarmonics : bool)
    (waves : list Wave) : Rand (list SourceNode) :=
  match waves with
  | [] => ret []
  | w :: waves' =>
      let! node := wave_source duration sampleRate antiAliasMaxHarmonics w in
      let! rest := wave_sources duration sampleRate antiAliasMaxHarmonics waves' in
      ret (from_option (fun n => n :: rest) rest node)
  end.

(** A wave of a standard shape: not an instrument voice. *)
Definition standard_shape (w : Wave) : Prop :=
  type w <> "piano" /\ type w <> "violin".

Section Rendering.

(** The Web Audio engine: the samples of channel 0 of the buffer that
    [ctx.startRendering()] resolves to, for a context and its graph. *)
Variable startRendering : OfflineGraph -> list R.

Definition renderOfflineFromWaves (duration sampleRate : R) (waves : list Wave)
    (antiAliasMaxHarmonics : bool) (filter : option Filter) : Rand (list R) :=
  let dest :=
    match filter with
    | Some f =>
        if bool_decide (filter_type f = "lowpass")
           || bool_decide (filter_type f = "highpass")
        then Some {| biquad_type := filter_type f;
                     biquad_frequency :=
                       clamp (if decide (cutoff f = 0) then 18000 else cutoff f)
                             10 (sampleRate / 2 - 10);
                     biquad_Q := 0.707 |}
        else None
    | None => None
    end in
  let! nodes := wave_sources duration sampleRate antiAliasMaxHarmonics waves in
  ret (startRendering
         {| numberOfChannels := 1;
            ctx_length := Math.ceil (duration * sampleRate);
            ctx_sampleRate := sampleRate;
            biquad := dest;
            sources := nodes |}).

End Rendering.

(** ** Harmonic loops, with the condition under which a harmonic is added *)

(** A step of a harmonic loop leaves the arrays alone, or adds a harmonic at
    the index [n] of the iteration, and then [G n] holds. *)
Definition adds_harmonic_if (phi : R) (G : Z -> Prop)
    (step : list R * list R -> Z -> list R * list R) : Prop :=
  forall ri n, step ri n = ri \/ (G n /\ exists A, step ri n = addHarm phi ri n A).

(** One of the two coefficients of harmonic [k] is not zero. *)
Definition has_energy (ri : list R * list R) (k : Z) : Prop :=
  aget ri.1 k <> 0 \/ aget ri.2 k <> 0.

(** The number of harmonics that [buildPeriodicWave] considers. *)
Definition harmonic_limit (sr f0 : R) (limitHarmonics : bool) : Z :=
  if limitHarmonics
  then Z.max 1 (Math.floor (sr / 2 * 0.9 / Math.max 1 f0))
  else 256%Z.

(** ** Linear PCM, sample by sample *)

(** What one iteration of the linear PCM loop stores for the (possibly
    dithered) clamped sample [v]: the code, the reconstructed sample and the
    error. *)
Definition pcm_sample (w : Z) (peak v : R) : Z * R * R :=
  let q := Math.round (v * peak) in
  (toInt w (IZR q), IZR q / peak, v - IZR q / peak).

(** The cells at index [k] of the three arrays of the loop. *)
Definition pcm_cell (st : list Z * list R * list R) (k : nat) : option (Z * R * R) :=
  let '(arr, qFloat, errFloat) := st in
  match arr !! k, qFloat !! k, errFloat !! k with
  | Some c, Some qv, Some e => Some (c, qv, e)
  | _, _, _ => None
  end.

(** ** The smoothing filter of the DAC *)

(** The body of the loop of [onePoleLowpass], on [(prev, y)]. *)
Definition lowpass_step (x : list R) (alpha : R) (st : R * list R) (i : Z)
  : R * list R :=
  let '(prev, y) := st in
  let prev := prev + alpha * (aget x i - prev) in
  (prev, aset y i prev).

(** The coefficient of the filter for the rate [fs] and the cutoff. *)
Definition lowpass_alpha (fs cutoff : R) : R :=
  let dt := 1 / fs in
  let RC := 1 / (2 * Math.PI * cutoff) in
  dt / (RC + dt).

Definition onePoleLowpass (x : list R) (fs cutoff : R) : list R :=
  let y := Float32Array (len x) in
  let alpha := lowpass_alpha fs cutoff in
  (foldl (lowpass_step x alpha) (0, y) (seqZ 0 (len x))).2.

(** ** More of js/utils.js *)

Definition Math_log2 (x : R) : R := ln x / ln 2.

(** For a positive argument; [Math.log2] of 0 is -Infinity. *)
Definition nextPowerOf2 (n : R) : R :=
  Math.pow 2 (IZR (Math.ceil (Math_log2 n))).

(** The indices visited by [for (let i = start; i < bound; i++)]. *)
Fixpoint for_below (fuel : nat) (i : Z) (bound : R) : list Z :=
  match fuel with
  | O => []
  | S fuel' =>
      if decide (IZR i < bound) then i :: for_below fuel' (i + 1) bound
      else []
  end.

(** The body of the search loop of [findDominantFrequency], on
    [(maxMag, maxBin)]. *)
Definition dominant_step (fftData : list R) (st : R * Z) (i : Z) : R * Z :=
  let '(maxMag, maxBin) := st in
  if decide (aget fftData i > maxMag) then (aget fftData i, i)
  else (maxMag, maxBin).

Definition dominant_bin (fftData : list R) : R * Z :=
  foldl (dominant_step fftData) (0, 0%Z)
        (for_below (length fftData) 1 (IZR (len fftData) / 2)).

Definition findDominantFrequency (fftData : list R) (sampleRate : R) : R :=
  let '(maxMag, maxBin) := dominant_bin fftData in
  let binWidth := sampleRate / IZR (len fftData) in
  IZR maxBin * binWidth.

(** ** WAV files *)

(** The first [n] bytes of [v], least significant first. *)
Fixpoint le_bytes (n : nat) (v : Z) : list Z :=
  match n with
  | O => []
  | S n' => (v mod 256)%Z :: le_bytes n' (v / 256)
  end.

(** Writing the bytes [bs] at [offset] through a [DataView]; a write that
    does not fit in the buffer throws a RangeError and writes nothing. *)
Definition write_bytes (buf : list Z) (offset : Z) (bs : list Z)
  : completion (list Z) :=
  if decide (0 <= offset /\ offset + len bs <= len buf)%Z then
    Normal (list_inserts (Z.to_nat offset) bs buf)
  else Throw "RangeError".

(** Reading [n] bytes back as a little-endian unsigned integer, as
    [view.getUint16(offset, true)] and [view.getUint32(offset, true)] do,
    and as a signed 16-bit integer, as [view.getInt16(offset, true)] does. *)
Fixpoint read_le (n : nat) (view : list Z) (offset : nat) : Z :=
  match n with
  | O => 0%Z
  | S n' => (view !!! offset + 256 * read_le n' view (S offset))%Z
  end.

Definition getInt16 (view : list Z) (offset : nat) : Z :=
  let u := read_le 2 view offset in
  if decide (u < 32768)%Z then u else (u - 65536)%Z.

(** The [n] bytes that start at [offset]. *)
Definition bytes_at (view : list Z) (offset n : nat) : list Z :=
  take n (drop offset view).

Definition setUint8 (view : list Z) (offset : Z) (v : R) : completion (list Z) :=
  write_bytes view offset (le_bytes 1 (toUint 8 v)).

(** [view.setUint16(offset, v, true)] and the like: little-endian. *)
Definition setUint16 (view : list Z) (offset : Z) (v : R) : completion (list Z) :=
  write_bytes view offset (le_bytes 2 (toUint 16 v)).

Definition setUint32 (view : list Z) (offset : Z) (v : R) : completion (list Z) :=
  write_bytes view offset (le_bytes 4 (toUint 32 v)).

Definition setInt16 (view : list Z) (offset : Z) (v : R) : completion (list Z) :=
  write_bytes view offset (le_bytes 2 (toInt 16 v)).

Definition cbind {A B} (m : completion A) (k : A -> completion B) : completion B :=
  match m with
  | Normal a => k a
  | Throw e => Throw e
  end.

Notation "'let?' x ':=' m 'in' k" := (cbind m (fun x => k))
  (at level 10, x pattern, m at level 100, k at level 200).

(** A loop over the indices [l] whose body may throw. *)
Fixpoint forC {S} (body : S -> Z -> completion S) (st : S) (l : list Z)
  : completion S :=
  match l with
  | [] => Normal st
  | i :: l' => let? st' := body st i in forC body st' l'
  end.

Definition charCodes (s : string) : list Z :=
  (fun c => Z.of_nat (Ascii.nat_of_ascii c)) <$> list_ascii_of_string s.

Definition writeString (view : list Z) (offset : Z) (str : string)
  : completion (list Z) :=
  forC (fun view i => setUint8 view (offset + i) (IZR (aget (charCodes str) i)))
       view (seqZ 0 (len (charCodes str))).

(** The operand of a bitwise operator, as a 32-bit integer. *)
Definition toInt32 (v : Z) : Z := ((v + 2 ^ 31) mod 2 ^ 32 - 2 ^ 31)%Z.

(** [new Float32Array(n)] and the like throw a RangeError for a negative
    length. *)
Definition new_array {A} (n : Z) (zero : A) : completion (list A) :=
  if decide (n < 0)%Z then Throw "RangeError"
  else Normal (replicate (Z.to_nat n) zero).

(** Mono duplicated into two channels: the loop that fills [out]. *)
Definition duplicate_channels {A} `{Inhabited A} (data out : list A) : list A :=
  foldl (fun out i =>
           let v := aget data i in
           aset (aset out (2 * i) v) (2 * i + 1) v)
        out (seqZ 0 (len data)).

(** The bodies of the three sample loops of [encodeWavFromPCM], on
    [(view, offset)]. *)
Definition pcm16_step (interleaved : list R) (st : list Z * Z) (i : Z)
  : completion (list Z * Z) :=
  let '(view, offset) := st in
  let s := clamp (aget interleaved i) (-1) 1 in
  let? view := setInt16 view offset (IZR (Math.round (s * 32767))) in
  Normal (view, (offset + 2)%Z).

Definition pcm24_step (interleaved : list R) (st : list Z * Z) (i : Z)
  : completion (list Z * Z) :=
  let '(view, offset) := st in
  let s := clamp (aget interleaved i) (-1) 1 in
  let v := Math.round (s * 8388607) in
  let? view := setUint8 view (offset + 0)
                 (IZR (Z.land (toInt32 v) 255)) in
  let? view := setUint8 view (offset + 1)
                 (IZR (Z.land (Z.shiftr (toInt32 v) 8) 255)) in
  let? view := setUint8 view (offset + 2)
                 (IZR (Z.land (Z.shiftr (toInt32 v) 16) 255)) in
  Normal (view, (offset + 3)%Z).

Definition pcm8_step (interleaved : list R) (st : list Z * Z) (i : Z)
  : completion (list Z * Z) :=
  let '(view, offset) := st in
  let s := clamp (aget interleaved i) (-1) 1 in
  let v := Math.round ((s * 0.5 + 0.5) * 255) in
  let? view := setUint8 view offset (IZR v) in
  Normal (view, (offset + 1)%Z).

(** The bytes that the sample loop of [encodeWavFromPCM] writes for the
    sample at index [i]. *)
Definition pcm_bytes (bits : Z) (interleaved : list R) (i : Z) : list Z :=
  let s := clamp (aget interleaved i) (-1) 1 in
  if decide (bits = 16)%Z then
    le_bytes 2 (toInt 16 (IZR (Math.round (s * 32767))))
  else if decide (bits = 24)%Z then
    let v := Math.round (s * 8388607) in
    le_bytes 1 (toUint 8 (IZR (Z.land (toInt32 v) 255)))
    ++ le_bytes 1 (toUint 8 (IZR (Z.land (Z.shiftr (toInt32 v) 8) 255)))
    ++ le_bytes 1 (toUint 8 (IZR (Z.land (Z.shiftr (toInt32 v) 16) 255)))
  else
    le_bytes 1 (toUint 8 (IZR (Math.round ((s * 0.5 + 0.5) * 255)))).

Definition bytesPerSample (bits : Z) : Z :=
  if decide (bits = 24)%Z then 3%Z else if decide (bits = 16)%Z then 2%Z else 1%Z.

(** The bytes of the Blob that [encodeWavFromPCM] returns. *)
Definition encodeWavFromPCM (floatData : list R) (sampleRate : R) (bits channels : Z)
  : completion (list Z) :=
  let N := len floatData in
  let ch := channels in
  let? interleaved := new_array (N * ch) 0 in
  let interleaved :=
    if decide (ch = 1)%Z then floatData
    else duplicate_channels floatData interleaved in
  let bytesPerSample := bytesPerSample bits in
  let blockAlign := (ch * bytesPerSample)%Z in
  let byteRate := sampleRate * IZR blockAlign in
  let dataSize := (len interleaved * bytesPerSample)%Z in
  let? view := new_array (44 + dataSize) 0%Z in
  let? view := writeString view 0 "RIFF" in
  let? view := setUint32 view 4 (IZR (36 + dataSize)) in
  let? view := writeString view 8 "WAVE" in
  let? view := writeString view 12 "fmt " in
  let? view := setUint32 view 16 16 in
  let? view := setUint16 view 20 1 in
  let? view := setUint16 view 22 (IZR ch) in
  let? view := setUint32 view 24 sampleRate in
  let? view := setUint32 view 28 byteRate in
  let? view := setUint16 view 32 (IZR blockAlign) in
  let? view := setUint16 view 34 (IZR bits) in
  let? view := writeString view 36 "data" in
  let? view := setUint32 view 40 (IZR dataSize) in
  let offset := 44%Z in
  let step := if decide (bits = 16)%Z then pcm16_step interleaved
              else if decide (bits = 24)%Z then pcm24_step interleaved
              else pcm8_step interleaved in
  let? (view, offset) := forC step (view, offset) (seqZ 0 (len interleaved)) in
  Normal view.

(** The bytes of the Blob that [encodeWavFromULaw] returns. *)
Definition encodeWavFromULaw (ulawBytes : list Z) (sampleRate : R) (channels : Z)
  : completion (list Z) :=
  let N := len ulawBytes in
  let ch := channels in
  let? interleaved :=
    (if decide (ch = 1)%Z then Normal ulawBytes
     else
       let? out := new_array (N * 2) 0%Z in
       Normal (duplicate_channels ulawBytes out)) in
  let bytesPerSample := 1%Z in
  let blockAlign := (ch * bytesPerSample)%Z in
  let byteRate := sampleRate * IZR blockAlign in
  let dataSize := len interleaved in
  let? view := new_array (44 + dataSize) 0%Z in
  let? view := writeString view 0 "RIFF" in
  let? view := setUint32 view 4 (IZR (36 + dataSize)) in
  let? view := writeString view 8 "WAVE" in
  let? view := writeString view 12 "fmt " in
  let? view := setUint32 view 16 18 in
  let? view := setUint16 view 20 7 in
  let? view := setUint16 view 22 (IZR ch) in
  let? view := setUint32 view 24 sampleRate in
  let? view := setUint32 view 28 byteRate in
  let? view := setUint16 view 32 (IZR blockAlign) in
  let? view := setUint16 view 34 8 in
  let? view := setUint16 view 36 0 in
  let? view := writeString view 38 "data" in
  let? view := setUint32 view 42 (IZR dataSize) in
  let off := 44%Z in
  forC (fun view i => setUint8 view (off + i) (IZR (aget interleaved i)))
       view (seqZ 0 (len interleaved)).

(** * Properties *)

(** ** Floors of real numbers *)

Lemma floor_bounds (x : R) : IZR (Math.floor x) <= x < IZR (Math.floor x) + 1.
Proof.
  unfold Math.floor. destruct (base_Int_part x) as [Hle Hgt]. lra.
Qed.

Lemma floor_unique (x : R) (z : Z) : IZR z <= x < IZR z + 1 -> Math.floor x = z.
Proof.
  intros Hx. symmetry. apply Int_part_spec. lra.
Qed.

Lemma floor_IZR (z : Z) : Math.floor (IZR z) = z.
Proof. apply floor_unique. lra. Qed.

Lemma floor_le_IZR (x : R) (z : Z) : x < IZR z -> (Math.floor x < z)%Z.
Proof.
  intros Hx. apply lt_IZR. pose proof (floor_bounds x). lra.
Qed.

Lemma floor_ge_IZR (x : R) (z : Z) : IZR z <= x -> (z <= Math.floor x)%Z.
Proof.
  intros Hx. pose proof (floor_bounds x) as [_ Hu].
  apply Z.lt_succ_r. apply lt_IZR. rewrite succ_IZR. lra.
Qed.

(** [eval_floor x z] replaces [Math.floor x] by the integer [z]. *)
Ltac eval_floor x z :=
  replace (Math.floor x) with z by (symmetry; apply floor_unique; lra).

(** ** Loops that fill an array *)

Lemma length_aset {A} (a : list A) (i : Z) (v : A) : length (aset a i v) = length a.
Proof.
  unfold aset. destruct (decide (0 <= i)%Z); [apply length_insert | reflexivity].
Qed.

Lemma lookup_aset_eq {A} (a : list A) (k : nat) (v : A) :
  (k < length a)%nat -> aset a (Z.of_nat k) v !! k = Some v.
Proof.
  intros Hk. unfold aset. destruct (decide (0 <= Z.of_nat k)%Z); [|lia].
  rewrite Nat2Z.id. by apply list_lookup_insert_eq.
Qed.

Lemma lookup_aset_ne {A} (a : list A) (i : Z) (k : nat) (v : A) :
  i ≠ Z.of_nat k -> aset a i v !! k = a !! k.
Proof.
  intros Hne. unfold aset. destruct (decide (0 <= i)%Z); [|reflexivity].
  apply list_lookup_insert_ne. lia.
Qed.

Lemma length_foldl_aset {A} (f : Z -> A) (l : list Z) (a : list A) :
  length (foldl (fun y i => aset y i (f i)) a l) = length a.
Proof.
  revert a. induction l as [|i l IH]; intros a; simpl; [reflexivity|].
  rewrite IH. apply length_aset.
Qed.

(** After [for i in l: a[i] = f i], a cell holds [f] of its index when the
    index was visited, and its old content otherwise. *)
Lemma lookup_foldl_aset {A} (f : Z -> A) (l : list Z) (a : list A) (k : nat) :
  (k < length a)%nat ->
  foldl (fun y i => aset y i (f i)) a l !! k =
    if decide (Z.of_nat k ∈ l) then Some (f (Z.of_nat k)) else a !! k.
Proof.
  revert a. induction l as [|i l IH]; intros a Hk; cbn [foldl].
  - case_decide as Hin; [by apply elem_of_nil in Hin | reflexivity].
  - rewrite IH by (by rewrite length_aset).
    destruct (decide (i = Z.of_nat k)) as [->|Hne].
    + rewrite (decide_True (P := _ ∈ _ :: _)) by left.
      case_decide; [reflexivity | by apply lookup_aset_eq].
    + rewrite lookup_aset_ne by done.
      destruct (decide (Z.of_nat k ∈ l)) as [Hin|Hnin].
      * rewrite decide_True; [reflexivity | by right].
      * rewrite decide_False; [reflexivity|].
        intros Hin. apply elem_of_cons in Hin as [?|?]; congruence.
Qed.

(** A fresh array of [n] cells filled at every index is the list of the
    values. *)
Lemma foldl_aset_fill {A} (f : Z -> A) (n : Z) (d : A) :
  foldl (fun y i => aset y i (f i)) (replicate (Z.to_nat n) d) (seqZ 0 n)
  = f <$> seqZ 0 n.
Proof.
  apply list_eq. intros k.
  destruct (decide (k < Z.to_nat n)%nat) as [Hk|Hk].
  - rewrite lookup_foldl_aset by (by rewrite length_replicate).
    rewrite decide_True by (apply elem_of_seqZ; lia).
    rewrite list_lookup_fmap, lookup_seqZ_lt by lia. reflexivity.
  - rewrite !lookup_ge_None_2; [reflexivity| |].
    + rewrite length_fmap, length_seqZ. lia.
    + rewrite length_foldl_aset, length_replicate. lia.
Qed.

(** ** DAC reconstruction *)

Lemma reconstructDAC_normal (q : list R) (fsIn fsOut : R) (methodLabel : string) :
  (0 <= Math.floor (IZR (len q) / fsIn * fsOut))%Z ->
  reconstructDAC q fsIn fsOut methodLabel =
    Normal (dac_sample q fsIn fsOut (startsWith methodLabel "Linear")
              <$> seqZ 0 (Math.floor (IZR (len q) / fsIn * fsOut))).
Proof.
  intros Hn. unfold reconstructDAC.
  destruct (decide (_ < 0)%Z); [lia|].
  f_equal. apply foldl_aset_fill.
Qed.

Lemma dac_sample_hold (q : list R) (fsIn fsOut : R) (linear : bool) (i n0 : Z) :
  IZR n0 <= IZR i / fsOut * fsIn < IZR n0 + 1 ->
  (0 <= n0 < len q)%Z ->
  linear = false \/ n0 = (len q - 1)%Z ->
  dac_sample q fsIn fsOut linear i = aget q n0.
Proof.
  intros Hn Hr Hb. unfold dac_sample, dac_out_of_bounds.
  rewrite (floor_unique _ n0) by exact Hn.
  rewrite !bool_decide_eq_false_2 by lia. cbn [orb].
  destruct Hb as [-> | ->]; [reflexivity|].
  rewrite bool_decide_eq_true_2 by reflexivity. by rewrite orb_true_r.
Qed.

Lemma dac_sample_interpolate (q : list R) (fsIn fsOut : R) (i n0 : Z) :
  IZR n0 <= IZR i / fsOut * fsIn < IZR n0 + 1 ->
  (0 <= n0 < len q - 1)%Z ->
  dac_sample q fsIn fsOut true i =
    let frac := IZR i / fsOut * fsIn - IZR n0 in
    aget q n0 * (1 - frac) + aget q (n0 + 1) * frac.
Proof.
  intros Hn Hr. unfold dac_sample, dac_out_of_bounds.
  rewrite (floor_unique _ n0) by exact Hn.
  rewrite !bool_decide_eq_false_2 by lia. reflexivity.
Qed.

(** C6: zero-order hold of the single sample [1.0] from rate 1 to rate 4
    returns floor((1/1) * 4) = 4 samples, each equal to 1.0. *)
Theorem reconstructDAC_hold_single_sample :
  Math.floor (1 / 1 * 4) = 4%Z /\
  reconstructDAC [1] 1 4 "ZeroOrderHold" = Normal [1; 1; 1; 1].
Proof.
  assert (Hfl : Math.floor (1 / 1 * 4) = 4%Z) by (apply floor_unique; lra).
  split; [exact Hfl|].
  rewrite reconstructDAC_normal; change (IZR (len [1])) with 1; rewrite Hfl; [|lia].
  replace (seqZ 0 4) with [0; 1; 2; 3]%Z by reflexivity. cbn [fmap list_fmap].
  rewrite !(dac_sample_hold [1] 1 4 _ _ 0%Z);
    first [ reflexivity | lra | unfold len; simpl; lia | left; reflexivity ].
Qed.

(** C7: the linear method on the source [0.0, 1.0], from rate 2 to rate 4,
    gives at every output index the interpolation between the two source
    samples around the source position (the held value at the last source
    sample), and exactly 0.5 at the midpoint. *)
Theorem reconstructDAC_linear_two_samples :
  exists y : list R,
    reconstructDAC [0; 1] 2 4 "Linear" = Normal y /\
    y = [0; 0.5; 1; 1] /\
    (forall i : Z, (0 <= i < 4)%Z ->
       y !! Z.to_nat i = Some (linear_interpolation [0; 1] (IZR i / 4 * 2))) /\
    y !! 1%nat = Some 0.5.
Proof.
  assert (Hfl : Math.floor (2 / 2 * 4) = 4%Z) by (apply floor_unique; lra).
  assert (Hy : reconstructDAC [0; 1] 2 4 "Linear" = Normal [0; 0.5; 1; 1]).
  { rewrite reconstructDAC_normal; change (IZR (len [0; 1])) with 2;
      rewrite Hfl; [|lia].
    replace (seqZ 0 4) with [0; 1; 2; 3]%Z by reflexivity.
    cbn [fmap list_fmap].
    change (startsWith "Linear" "Linear") with true.
    rewrite (dac_sample_interpolate [0; 1] 2 4 0 0),
            (dac_sample_interpolate [0; 1] 2 4 1 0),
            (dac_sample_hold [0; 1] 2 4 true 2 1),
            (dac_sample_hold [0; 1] 2 4 true 3 1);
      try lra; try (unfold len; simpl; lia); try (right; reflexivity).
    unfold aget. simpl. do 2 f_equal; [lra|]. f_equal. lra. }
  exists [0; 0.5; 1; 1]. split; [exact Hy|]. split; [reflexivity|].
  split; [|reflexivity].
  intros i Hi. unfold linear_interpolation.
  assert (Hcases : i = 0%Z \/ i = 1%Z \/ i = 2%Z \/ i = 3%Z) by lia.
  destruct Hcases as [-> | [-> | [-> | ->]]].
  - eval_floor (0 / 4 * 2) 0%Z. unfold aget, len. simpl. f_equal. lra.
  - eval_floor (1 / 4 * 2) 0%Z. unfold aget, len. simpl. f_equal. lra.
  - eval_floor (2 / 4 * 2) 1%Z. reflexivity.
  - eval_floor (3 / 4 * 2) 1%Z. reflexivity.
Qed.

(** C10: for a non-empty source and positive rates, every output index below
    the output length maps to a source index within the source, so the
    branch that emits silence is not taken and both reads of the
    interpolation are within bounds. *)
Theorem reconstructDAC_index_in_bounds (q : list R) (fsIn fsOut : R) (i : Z) :
  q <> [] -> 0 < fsIn -> 0 < fsOut ->
  (0 <= i < Math.floor (IZR (len q) / fsIn * fsOut))%Z ->
  let n0 := dac_index fsIn fsOut i in
  (0 <= n0 < len q)%Z /\
  dac_out_of_bounds q n0 = false /\
  (n0 <> (len q - 1)%Z -> (0 <= n0 + 1 < len q)%Z) /\
  (forall linear : bool,
     dac_sample q fsIn fsOut linear i =
       if negb linear || bool_decide (n0 = len q - 1)%Z then aget q n0
       else
         let frac := IZR i / fsOut * fsIn - IZR n0 in
         aget q n0 * (1 - frac) + aget q (n0 + 1) * frac).
Proof.
  intros Hq HfsIn HfsOut [Hi0 Hi] n0.
  assert (Hrange : (0 <= n0 < len q)%Z).
  { subst n0. unfold dac_index. cbv zeta.
    pose proof (floor_bounds (IZR (len q) / fsIn * fsOut)) as [HN _].
    assert (Hi1 : IZR i + 1 <= IZR (Math.floor (IZR (len q) / fsIn * fsOut))).
    { rewrite <- succ_IZR. apply IZR_le. lia. }
    assert (Hi0' : 0 <= IZR i) by (apply IZR_le; lia).
    set (r := fsIn / fsOut).
    assert (Hr : 0 < r) by (apply Rdiv_lt_0_compat; assumption).
    assert (Hn : IZR i / fsOut * fsIn = IZR i * r) by (unfold r; field; lra).
    assert (HL : IZR (len q) / fsIn * fsOut * r = IZR (len q))
      by (unfold r; field; lra).
    rewrite Hn. split.
    - apply (floor_ge_IZR _ 0). nra.
    - apply floor_le_IZR. nra. }
  assert (Hguard : dac_out_of_bounds q n0 = false).
  { unfold dac_out_of_bounds. rewrite !bool_decide_eq_false_2 by lia. reflexivity. }
  split; [exact Hrange|]. split; [exact Hguard|]. split; [lia|].
  intros linear. unfold dac_sample. fold (dac_index fsIn fsOut i). fold n0.
  rewrite Hguard. reflexivity.
Qed.

Lemma reconstructDAC_index_in_bounds_witness :
  let n0 := dac_index 1 4 3 in
  (0 <= n0 < len [1])%Z /\
  dac_out_of_bounds [1] n0 = false /\
  (n0 <> (len [1] - 1)%Z -> (0 <= n0 + 1 < len [1])%Z) /\
  (forall linear : bool,
     dac_sample [1] 1 4 linear 3 =
       if negb linear || bool_decide (n0 = len [1] - 1)%Z then aget [1] n0
       else
         let frac := IZR 3 / 4 * 1 - IZR n0 in
         aget [1] n0 * (1 - frac) + aget [1] (n0 + 1) * frac).
Proof.
  apply (reconstructDAC_index_in_bounds [1] 1 4 3).
  - discriminate.
  - lra.
  - lra.
  - change (IZR (len [1])) with 1.
    rewrite (floor_unique (1 / 1 * 4) 4) by lra. lia.
Defined.

(** ** Signal-to-noise ratio *)

Lemma sum_squares_snoc (x : list R) (s : R) :
  sum_squares (x ++ [s]) = sum_squares x + s * s.
Proof. induction x as [|a x IH]; simpl; [|rewrite IH]; lra. Qed.

Lemma squared_error_snoc (x y : list R) (s r : R) :
  length x = length y ->
  squared_error (x ++ [s]) (y ++ [r]) = squared_error x y + (s - r) * (s - r).
Proof.
  revert y. induction x as [|a x IH]; intros [|b y] Hlen; simpl in *;
    try discriminate; [lra|].
  rewrite IH by congruence. lra.
Qed.

Lemma squared_error_same (x : list R) : squared_error x x = 0.
Proof. induction x as [|a x IH]; simpl; [|rewrite IH]; lra. Qed.

(** The accumulators after the first [n] iterations of the loop. *)
Lemma snr_loop_prefix (x y : list R) (n : nat) :
  (n <= length x)%nat -> (n <= length y)%nat ->
  foldl (snr_step x y) (0, Some 0) (seqZ 0 (Z.of_nat n)) =
    (sum_squares (take n x), Some (squared_error (take n x) (take n y))).
Proof.
  induction n as [|n IH]; intros Hx Hy.
  - reflexivity.
  - rewrite seqZ_S, foldl_snoc, IH by lia. rewrite Z.add_0_l.
    destruct (lookup_lt_is_Some_2 x n) as [s Hs]; [lia|].
    destruct (lookup_lt_is_Some_2 y n) as [r Hr]; [lia|].
    unfold snr_step, aget. rewrite Nat2Z.id, Hr.
    rewrite (list_lookup_total_correct _ _ _ Hs).
    rewrite (take_S_r _ _ _ Hs), (take_S_r _ _ _ Hr).
    rewrite sum_squares_snoc, squared_error_snoc
      by (rewrite !length_take; lia).
    reflexivity.
Qed.

(** Samples of [y] beyond the length of [x] do not count. *)
Lemma squared_error_take (x y : list R) :
  squared_error x (take (length x) y) = squared_error x y.
Proof.
  revert y. induction x as [|s x IH]; intros [|r y]; simpl; try reflexivity.
  by rewrite IH.
Qed.

Lemma snr_loop_total (x y : list R) :
  (length x <= length y)%nat ->
  foldl (snr_step x y) (0, Some 0) (seqZ 0 (len x)) =
    (sum_squares x, Some (squared_error x y)).
Proof.
  intros Hlen. unfold len. rewrite snr_loop_prefix by lia.
  rewrite (take_ge x) by lia. by rewrite squared_error_take.
Qed.

(** C4: [computeSNR] returns +infinity when the total squared error is at
    most 1e-20, in particular for two identical buffers, and otherwise
    10 * log10 of the ratio of the signal power to the total squared error. *)
Theorem computeSNR_spec (original reconstructed : list R) :
  (length original <= length reconstructed)%nat ->
  (squared_error original reconstructed <= 1e-20 ->
     computeSNR original reconstructed = Infinity) /\
  (squared_error original reconstructed > 1e-20 ->
     computeSNR original reconstructed =
       scale_pos 10 (Math_log10 (sum_squares original
                                 / squared_error original reconstructed))) /\
  computeSNR original original = Infinity.
Proof.
  intros Hlen. unfold computeSNR. rewrite snr_loop_total by exact Hlen.
  rewrite snr_loop_total by lia. rewrite squared_error_same.
  repeat split.
  - intros Hle. by rewrite decide_True.
  - intros Hgt. rewrite decide_False by lra. reflexivity.
  - rewrite decide_True by lra. reflexivity.
Qed.

Lemma computeSNR_spec_witness :
  (squared_error [1; 0] [1; 1] <= 1e-20 -> computeSNR [1; 0] [1; 1] = Infinity) /\
  (squared_error [1; 0] [1; 1] > 1e-20 ->
     computeSNR [1; 0] [1; 1] =
       scale_pos 10 (Math_log10 (sum_squares [1; 0] / squared_error [1; 0] [1; 1]))) /\
  computeSNR [1; 0] [1; 0] = Infinity.
Proof.
  apply (computeSNR_spec [1; 0] [1; 1]). simpl. lia.
Defined.

(** ** Quantisation: the lengths of the buffers *)

Lemma length_Float32Array (n : Z) : length (Float32Array n) = Z.to_nat n.
Proof. apply length_replicate. Qed.

Lemma mulaw_loop_lengths (xFloat : list R) (l : list Z)
    (u : list Z) (q e : list R) :
  let '(u', q', e') := foldl (mulaw_step xFloat) (u, q, e) l in
  length u' = length u /\ length q' = length q /\ length e' = length e.
Proof.
  revert u q e. induction l as [|i l IH]; intros u q e; cbn [foldl].
  - auto.
  - unfold mulaw_step at 2.
    match goal with
    | |- context [foldl _ (?a, ?b, ?c) l] => specialize (IH a b c)
    end.
    destruct (foldl _ _ l) as [[u' q'] e'].
    rewrite !length_aset in IH. exact IH.
Qed.

Lemma pcm_loop_lengths (xFloat : list R) (w : Z) (peak step : R) (d : bool)
    (l : list Z) (a : list Z) (q e : list R) (s : RNG) :
  let '(a', q', e') := (forM (pcm_step xFloat w peak step d) (a, q, e) l s).1 in
  length a' = length a /\ length q' = length q /\ length e' = length e.
Proof.
  revert a q e s. induction l as [|i l IH]; intros a q e s; cbn [forM].
  - cbn. auto.
  - unfold bind at 1.
    destruct (pcm_step xFloat w peak step d (a, q, e) i s) as [[[a1 q1] e1] s1] eqn:Hstep.
    specialize (IH a1 q1 e1 s1).
    destruct (forM _ _ l s1) as [[[a' q'] e'] s'] eqn:Hloop. cbn [fst] in *.
    assert (Hlen : length a1 = length a /\ length q1 = length q
                   /\ length e1 = length e).
    { unfold pcm_step, bind, ret in Hstep.
      destruct d.
      - destruct (Math_random s) as [r1 s2]. destruct (Math_random s2) as [r2 s3].
        inversion Hstep; subst. rewrite !length_aset. auto.
      - inversion Hstep; subst. rewrite !length_aset. auto. }
    destruct Hlen as (Ha & Hq & He). rewrite Ha, Hq, He in IH. exact IH.
Qed.

(** C3: in every mode (mu-law, or linear PCM at any bit depth, dithered or
    not) the reconstructed buffer and the error buffer have the length of
    the input. *)
Theorem quantizeBuffer_lengths (xFloat : list R) (o : QuantizeOptions) (s : RNG) :
  let r := (quantizeBuffer xFloat o s).1 in
  length (qFloat r) = length xFloat /\ length (errFloat r) = length xFloat.
Proof.
  unfold quantizeBuffer.
  destruct (startsWith (compression o) "μ").
  - pose proof (mulaw_loop_lengths xFloat (seqZ 0 (len xFloat))
                  (replicate (Z.to_nat (len xFloat)) 0%Z)
                  (Float32Array (len xFloat)) (Float32Array (len xFloat))) as H.
    destruct (foldl _ _ _) as [[u q] e]. cbn.
    rewrite !length_Float32Array in H. unfold len in H. lia.
  - unfold bind, ret.
    pose proof (pcm_loop_lengths xFloat
      (if decide (bits o = 8)%Z then 8%Z
       else if decide (bits o = 16)%Z then 16%Z else 32%Z)
      (Math.pow 2 (IZR (bits o) - 1) - 1)
      (1 / (Math.pow 2 (IZR (bits o) - 1) - 1)) (dither o)
      (seqZ 0 (len xFloat)) (replicate (Z.to_nat (len xFloat)) 0%Z)
      (Float32Array (len xFloat)) (Float32Array (len xFloat)) s) as H.
    destruct (forM _ _ _ s) as [[[a q] e] s']. cbn in *.
    rewrite !length_Float32Array in H. unfold len in H. lia.
Qed.

(** ** Quantisation: the mu-law path *)

Lemma clamp_bounds (x lo hi : R) : lo <= hi -> lo <= clamp x lo hi <= hi.
Proof.
  intros H. unfold clamp, Math.min, Math.max, Rmin, Rmax.
  repeat destruct (Rle_dec _ _); lra.
Qed.

Lemma clamp_id (x lo hi : R) : lo <= x <= hi -> clamp x lo hi = x.
Proof.
  intros H. unfold clamp, Math.min, Math.max, Rmin, Rmax.
  repeat destruct (Rle_dec _ _); lra.
Qed.

Lemma clamp_IZR (z lo hi : Z) :
  clamp (IZR z) (IZR lo) (IZR hi) = IZR (Z.min hi (Z.max lo z)).
Proof.
  unfold clamp, Math.min, Math.max, Rmin, Rmax.
  repeat destruct (Rle_dec _ _);
    repeat match goal with
           | H : IZR _ <= IZR _ |- _ => apply le_IZR in H
           | H : ~ IZR _ <= IZR _ |- _ =>
               apply Rnot_le_lt in H; apply lt_IZR in H
           end;
    f_equal; lia.
Qed.

Lemma toUint8_byte (z : Z) : (0 <= z <= 255)%Z -> toUint 8 (IZR z) = z.
Proof.
  intros Hz. unfold toUint, Math.trunc.
  destruct (decide (IZR z < 0)) as [Hneg|_].
  - exfalso. assert (0 <= IZR z) by (apply IZR_le; lia). lra.
  - rewrite floor_IZR. apply Z.mod_small. lia.
Qed.

Lemma ln_256_pos : 0 < ln 256.
Proof. rewrite <- ln_1. apply ln_increasing; lra. Qed.

(** The compressed value computed by the loop is that of the
    specification: the two signs differ at 0 only, where the logarithm
    vanishes. *)
Lemma compress_code_spec (x : R) :
  (if decide (x < 0) then -1 else 1)
    * (Math.log (1 + 255 * Math.abs x) / Math.log (1 + 255))
  = mulaw_compress x.
Proof.
  unfold mulaw_compress, sgn, Math.log, Math.abs.
  replace (1 + 255) with 256 by lra.
  destruct (decide (x < 0)); [lra|].
  destruct (decide (x = 0)) as [->|]; [|lra].
  rewrite Rabs_R0, Rmult_0_r, Rplus_0_r, ln_1. lra.
Qed.

Lemma Rpower_256_range (a : R) : 0 <= a <= 1 -> 1 <= Rpower 256 a <= 256.
Proof.
  intros [H0 H1]. split.
  - rewrite <- (Rpower_O 256) by lra. apply Rle_Rpower; lra.
  - rewrite <- (Rpower_1 256) at 2 by lra. apply Rle_Rpower; lra.
Qed.

(** On a compressed value of magnitude at most 1 the decoder of the code is
    the inverse formula: its final clamp changes nothing. *)
Lemma expand_code_spec (y : R) :
  -1 <= y <= 1 -> signMuLawInverse y 255 = mulaw_expand y.
Proof.
  intros Hy. unfold signMuLawInverse, mulaw_expand, sgn, Math.pow, Math.abs.
  replace (1 + 255) with 256 by lra.
  assert (Ha : 0 <= Rabs y <= 1).
  { split; [apply Rabs_pos|]. apply Rabs_le. lra. }
  pose proof (Rpower_256_range _ Ha) as Hp.
  destruct (decide (y < 0)).
  - rewrite clamp_id; lra.
  - destruct (decide (y = 0)) as [->|].
    + rewrite Rabs_R0, Rpower_O by lra. rewrite clamp_id; lra.
    + rewrite clamp_id; lra.
Qed.

Lemma mulaw_encode_range (x : R) : (0 <= mulaw_encode x <= 255)%Z.
Proof. unfold mulaw_encode. lia. Qed.

Lemma aget_aset_eq {A} `{Inhabited A} (a : list A) (i : Z) (v : A) :
  (0 <= i < len a)%Z -> aget (aset a i v) i = v.
Proof.
  intros Hi. unfold aget, aset, len in *.
  destruct (decide (0 <= i)%Z); [|lia].
  apply list_lookup_total_insert_eq. lia.
Qed.

(** One iteration of the mu-law loop, in the words of the specification
    except for the error, which is taken from the clamped sample. *)
Lemma mulaw_step_spec (xFloat : list R) (u : list Z) (q e : list R) (i : Z) :
  (0 <= i < len u)%Z ->
  mulaw_step xFloat (u, q, e) i =
    (aset u i (mulaw_encode (aget xFloat i)),
     aset q i (mulaw_decode (mulaw_encode (aget xFloat i))),
     aset e i (clamp (aget xFloat i) (-1) 1
               - mulaw_decode (mulaw_encode (aget xFloat i)))).
Proof.
  intros Hi. unfold mulaw_step.
  rewrite compress_code_spec.
  rewrite (clamp_IZR _ 0 255).
  fold (mulaw_encode (aget xFloat i)).
  pose proof (mulaw_encode_range (aget xFloat i)) as Hb.
  rewrite toUint8_byte by exact Hb.
  rewrite aget_aset_eq by exact Hi.
  rewrite expand_code_spec; [reflexivity|].
  assert (H0 : 0 <= IZR (mulaw_encode (aget xFloat i))) by (apply IZR_le; lia).
  assert (H1 : IZR (mulaw_encode (aget xFloat i)) <= 255) by (apply IZR_le; lia).
  lra.
Qed.

Lemma mulaw_loop_spec (xFloat : list R) (l : list Z) (u : list Z) (q e : list R) :
  (forall i, i ∈ l -> (0 <= i < len u)%Z) ->
  foldl (mulaw_step xFloat) (u, q, e) l =
    (foldl (fun a i => aset a i (mulaw_encode (aget xFloat i))) u l,
     foldl (fun a i => aset a i (mulaw_decode (mulaw_encode (aget xFloat i)))) q l,
     foldl (fun a i => aset a i (clamp (aget xFloat i) (-1) 1
                                 - mulaw_decode (mulaw_encode (aget xFloat i)))) e l).
Proof.
  revert u q e. induction l as [|i l IH]; intros u q e Hl; cbn [foldl].
  - reflexivity.
  - rewrite mulaw_step_spec by (apply Hl; left).
    apply IH. intros j Hj. unfold len. rewrite length_aset.
    apply Hl. by right.
Qed.

(** Reading an array at every index gives the array back. *)
Lemma fmap_aget_seqZ {B} (g : R -> B) (xs : list R) :
  (fun i => g (aget xs i)) <$> seqZ 0 (len xs) = g <$> xs.
Proof.
  apply list_eq. intros k. rewrite !list_lookup_fmap.
  destruct (decide (k < length xs)%nat) as [Hk|Hk].
  - rewrite lookup_seqZ_lt by (unfold len; lia).
    destruct (lookup_lt_is_Some_2 xs k Hk) as [x Hx]. rewrite Hx. cbn.
    unfold aget. rewrite Z.add_0_l, Nat2Z.id.
    by rewrite (list_lookup_total_correct _ _ _ Hx).
  - rewrite lookup_seqZ_ge by (unfold len; lia).
    rewrite (lookup_ge_None_2 xs) by lia. reflexivity.
Qed.

(** The result of the mu-law path. *)
Lemma quantizeBuffer_mulaw (xFloat : list R) (o : QuantizeOptions) (s : RNG) :
  startsWith (compression o) "μ" = true ->
  quantizeBuffer xFloat o s =
    ({| qFloat := (fun x => mulaw_decode (mulaw_encode x)) <$> xFloat;
        errFloat := (fun x => clamp x (-1) 1 - mulaw_decode (mulaw_encode x))
                      <$> xFloat;
        pcm := Uint8Array (mulaw_encode <$> xFloat);
        encLabel := "μ-law8";
        ulaw := Some (mulaw_encode <$> xFloat) |}, s).
Proof.
  intros Hmu. unfold quantizeBuffer. rewrite Hmu.
  rewrite mulaw_loop_spec.
  - unfold Float32Array. rewrite !foldl_aset_fill.
    rewrite (fmap_aget_seqZ mulaw_encode),
            (fmap_aget_seqZ (fun x => mulaw_decode (mulaw_encode x))),
            (fmap_aget_seqZ (fun x => clamp x (-1) 1
                                      - mulaw_decode (mulaw_encode x))).
    reflexivity.
  - intros i Hi. apply elem_of_seqZ in Hi. unfold len in *.
    rewrite length_replicate. lia.
Qed.

Lemma mulaw_encode_two : mulaw_encode 2 = 255%Z.
Proof.
  unfold mulaw_encode.
  assert (Hc : clamp 2 (-1) 1 = 1).
  { unfold clamp, Math.min, Math.max, Rmin, Rmax.
    repeat destruct (Rle_dec _ _); lra. }
  assert (Hy : mulaw_compress 1 = 1).
  { unfold mulaw_compress, sgn. destruct (decide (1 < 0)); [lra|].
    destruct (decide (1 = 0)); [lra|].
    rewrite Rabs_R1. replace (1 + 255 * 1) with 256 by lra.
    pose proof ln_256_pos. field. lra. }
  rewrite Hc, Hy. unfold Math.round.
  rewrite (floor_unique _ 255) by lra. reflexivity.
Qed.

Lemma mulaw_decode_255 : mulaw_decode 255 = 1.
Proof.
  unfold mulaw_decode, mulaw_expand, sgn.
  replace (255 / 127.5 - 1) with 1 by lra.
  destruct (decide (1 < 0)); [lra|]. destruct (decide (1 = 0)); [lra|].
  rewrite Rabs_R1, Rpower_1 by lra. lra.
Qed.

(** The result for the single sample 2.0: byte 255, reconstructed sample
    1.0, error 0.0. *)
Lemma quantizeBuffer_mulaw_overrange (s : RNG) :
  quantizeBuffer [2] {| bits := 8; dither := false; compression := "μ-law" |} s =
    ({| qFloat := [1]; errFloat := [0]; pcm := Uint8Array [255%Z];
        encLabel := "μ-law8"; ulaw := Some [255%Z] |}, s).
Proof.
  rewrite quantizeBuffer_mulaw by reflexivity. cbn [fmap list_fmap].
  rewrite mulaw_encode_two, mulaw_decode_255.
  replace (clamp 2 (-1) 1 - 1) with 0; [reflexivity|].
  pose proof (clamp_bounds 2 (-1) 1).
  unfold clamp, Math.min, Math.max, Rmin, Rmax in *.
  repeat destruct (Rle_dec _ _); lra.
Qed.

(** C2, as stated, fails: for the sample 2.0 the error buffer holds the
    clamped sample minus the reconstructed one, not the original minus the
    reconstructed one. *)
Lemma quantizeBuffer_mulaw_error_not_original :
  ~ mulaw_result_spec (fun x => x) [2]
      (quantizeBuffer [2] {| bits := 8; dither := false; compression := "μ-law" |}
         (fun _ => 0)).1.
Proof.
  rewrite quantizeBuffer_mulaw_overrange.
  intros (_ & _ & Herr). cbn [fst errFloat fmap list_fmap] in Herr.
  rewrite mulaw_encode_two, mulaw_decode_255 in Herr.
  injection Herr. lra.
Qed.

(** C2, amended: on the mu-law path every byte is
    round((sign(c) * ln(1 + 255|c|) / ln 256 + 1) * 127.5) clamped to
    [0, 255] for the clamped sample c, the reconstructed sample is the
    inverse companding of that byte, and the error is the clamped sample
    minus the reconstructed one; it is the original minus the reconstructed
    one when every sample lies in [-1, 1]. *)
Theorem quantizeBuffer_mulaw_spec (xFloat : list R) (o : QuantizeOptions) (s : RNG) :
  startsWith (compression o) "μ" = true ->
  let r := (quantizeBuffer xFloat o s).1 in
  mulaw_result_spec (fun x => clamp x (-1) 1) xFloat r /\
  (Forall (fun x => -1 <= x <= 1) xFloat ->
   mulaw_result_spec (fun x => x) xFloat r).
Proof.
  intros Hmu. rewrite quantizeBuffer_mulaw by exact Hmu. cbn.
  split; [repeat split|].
  intros Hin. repeat split. cbn.
  apply Forall_fmap_ext_1. eapply Forall_impl; [exact Hin|].
  intros x Hx. cbn. by rewrite clamp_id.
Qed.

Lemma quantizeBuffer_mulaw_spec_witness :
  let r := (quantizeBuffer [2; 0.5]
              {| bits := 8; dither := false; compression := "μ-law" |}
              (fun _ => 0)).1 in
  mulaw_result_spec (fun x => clamp x (-1) 1) [2; 0.5] r /\
  (Forall (fun x => -1 <= x <= 1) [2; 0.5] ->
   mulaw_result_spec (fun x => x) [2; 0.5] r).
Proof.
  apply (quantizeBuffer_mulaw_spec [2; 0.5]). reflexivity.
Defined.

Lemma mulaw_encode_zero : mulaw_encode 0 = 128%Z.
Proof.
  unfold mulaw_encode. rewrite clamp_id by lra.
  assert (Hc : mulaw_compress 0 = 0).
  { unfold mulaw_compress, sgn. destruct (decide (0 < 0)); [lra|].
    destruct (decide (0 = 0)); [|lra]. lra. }
  rewrite Hc. unfold Math.round.
  rewrite (floor_unique _ 128) by lra. reflexivity.
Qed.

Lemma Rpower_256_small : Rpower 256 (1 / 255) <= 1.255.
Proof.
  set (u := Rpower 256 (1 / 32)).
  assert (Hle : Rpower 256 (1 / 255) <= u) by (apply Rle_Rpower; lra).
  assert (Hu : u ^ 32 = 256).
  { rewrite <- Rpower_pow by apply exp_pos. unfold u.
    rewrite Rpower_mult. replace (1 / 32 * INR 32) with 1.
    - apply Rpower_1. lra.
    - replace (INR 32) with 32 by (rewrite INR_IZR_INZ; reflexivity). lra. }
  destruct (Rle_dec u 1.255) as [|Hgt]; [lra|].
  assert (Hpow : 1.255 ^ 32 <= u ^ 32) by (apply pow_incr; lra).
  assert (256 < 1.255 ^ 32) by lra. lra.
Qed.

(** C5: the mu-law round trip of the sample 0.0 (byte 128, then its decoded
    value) reconstructs a value within 1e-3 of 0.0. *)
Theorem quantizeBuffer_mulaw_zero (b : Z) (d : bool) (s : RNG) :
  exists v : R,
    let r := (quantizeBuffer [0] {| bits := b; dither := d; compression := "μ-law" |}
                s).1 in
    ulaw r = Some [128%Z] /\
    qFloat r = [v] /\
    v = mulaw_decode 128 /\
    Rabs (v - 0) <= 1e-3.
Proof.
  exists (mulaw_decode 128).
  rewrite quantizeBuffer_mulaw by reflexivity.
  cbn [fst ulaw qFloat fmap list_fmap].
  rewrite mulaw_encode_zero. repeat split.
  unfold mulaw_decode, mulaw_expand, sgn.
  destruct (decide (128 / 127.5 - 1 < 0)); [lra|].
  destruct (decide (128 / 127.5 - 1 = 0)); [lra|].
  replace (128 / 127.5 - 1) with (1 / 255) by lra.
  rewrite (Rabs_pos_eq (1 / 255)) by lra.
  pose proof Rpower_256_small as Hup.
  assert (Hlo : 1 <= Rpower 256 (1 / 255)) by (apply Rpower_256_range; lra).
  apply Rabs_le. lra.
Qed.

(** ** Quantisation: bit depths other than 8, 16 and 24 *)

Lemma toInt32_zero : toInt 32 0 = 0%Z.
Proof.
  unfold toInt, Math.trunc. destruct (decide (0 < 0)); [lra|].
  rewrite (floor_unique 0 0) by lra. reflexivity.
Qed.

(** The result for the single sample 0.0 at bit depth 4. *)
Lemma quantizeBuffer_depth_4_result (s : RNG) :
  quantizeBuffer [0] {| bits := 4; dither := false; compression := "None" |} s =
    ({| qFloat := [0]; errFloat := [0]; pcm := Int32Array [0%Z];
        encLabel := "4-bit PCM"; ulaw := None |}, s).
Proof.
  unfold quantizeBuffer. change (startsWith _ "μ") with false. cbv iota.
  replace (seqZ 0 (len [0])) with [0%Z] by reflexivity.
  cbn [bits dither forM]. unfold bind, ret, pcm_step.
  destruct (decide (4%Z = 8%Z)); [discriminate|].
  destruct (decide (4%Z = 16%Z)); [discriminate|].
  unfold bind, ret.
  change (aget [0] 0) with 0. rewrite (clamp_id 0) by lra.
  rewrite Rmult_0_l. unfold Math.round.
  rewrite (floor_unique (0 + 1 / 2) 0) by lra.
  rewrite toInt32_zero.
  replace (0 / (Math.pow 2 (4 - 1) - 1)) with 0 by (unfold Rdiv; ring).
  replace (0 - 0) with 0 by ring.
  reflexivity.
Qed.

(** C8, as stated, fails: at bit depth 4 the call returns a result. *)
Lemma quantizeBuffer_depth_4_returns :
  ~ fails_with
      (call_quantizeBuffer [0] {| bits := 4; dither := false; compression := "None" |}
         (fun _ => 0)).1
      "UnsupportedBitDepth".
Proof.
  unfold fails_with, call_quantizeBuffer, bind.
  rewrite quantizeBuffer_depth_4_result. cbn. discriminate.
Qed.

(** C8, amended: with compression "None" and a bit depth that is not 8, 16
    or 24 the call does not fail: it returns the linear PCM result, whose
    codes are held in a 32-bit integer array of the length of the input and
    whose label is "<bits>-bit PCM". *)
Theorem quantizeBuffer_other_depth (xFloat : list R) (o : QuantizeOptions) (s : RNG) :
  compression o = "None" ->
  bits o <> 8%Z -> bits o <> 16%Z -> bits o <> 24%Z ->
  exists (r : QuantizationResult) (codes : list Z),
    (call_quantizeBuffer xFloat o s).1 = Normal r /\
    pcm r = Int32Array codes /\
    length codes = length xFloat /\
    encLabel r = Z_to_string (bits o) +:+ "-bit PCM" /\
    ulaw r = None.
Proof.
  intros Hc H8 H16 _. unfold call_quantizeBuffer, quantizeBuffer.
  rewrite Hc. change (startsWith "None" "μ") with false. cbv iota.
  unfold bind, ret.
  rewrite !(decide_False (P := bits o = 8%Z)) by exact H8.
  rewrite !(decide_False (P := bits o = 16%Z)) by exact H16.
  pose proof (pcm_loop_lengths xFloat 32
    (Math.pow 2 (IZR (bits o) - 1) - 1)
    (1 / (Math.pow 2 (IZR (bits o) - 1) - 1)) (dither o)
    (seqZ 0 (len xFloat)) (replicate (Z.to_nat (len xFloat)) 0%Z)
    (Float32Array (len xFloat)) (Float32Array (len xFloat)) s) as H.
  destruct (forM _ _ _ s) as [[[a q] e] s']. cbn [fst] in *.
  eexists _, a. split; [reflexivity|]. cbn.
  split; [by rewrite !decide_False|].
  repeat split. destruct H as [Ha _]. rewrite length_replicate in Ha.
  unfold len in Ha. lia.
Qed.

Lemma quantizeBuffer_other_depth_witness :
  exists (r : QuantizationResult) (codes : list Z),
    (call_quantizeBuffer [0] {| bits := 4; dither := false; compression := "None" |}
       (fun _ => 0)).1 = Normal r /\
    pcm r = Int32Array codes /\
    length codes = length [0] /\
    encLabel r = Z_to_string 4 +:+ "-bit PCM" /\
    ulaw r = None.
Proof.
  apply (quantizeBuffer_other_depth [0]
           {| bits := 4; dither := false; compression := "None" |});
    [reflexivity | cbn; lia ..].
Defined.

(** ** Band-limited periodic waves *)

(** The loop [for (n = start; n <= kMax; n += step)] visits the numbers
    from [start] to [kMax] in steps of [step], and the fuel it is given
    lets it run to its end. *)
Lemma elem_of_for_upto (fuel : nat) (n step kMax k : Z) :
  (0 < step)%Z -> (kMax - n < Z.of_nat fuel)%Z ->
  k ∈ for_upto fuel n step kMax <->
  (n <= k <= kMax)%Z /\ ((k - n) mod step = 0)%Z.
Proof.
  intros Hstep. revert n. induction fuel as [|fuel IH]; intros n Hfuel; cbn [for_upto].
  - split; [intros Hin; by apply elem_of_nil in Hin | lia].
  - destruct (decide (n <= kMax)%Z) as [Hle|Hgt].
    + rewrite elem_of_cons, IH by lia. split.
      * intros [-> | [Hr Hm]].
        -- rewrite Z.sub_diag. split; [lia | apply Z.mod_0_l; lia].
        -- split; [lia|].
           replace (k - n)%Z with (k - (n + step) + 1 * step)%Z by lia.
           rewrite Z.mod_add by lia. exact Hm.
      * intros [Hr Hm]. destruct (decide (k = n)) as [->|Hne]; [by left|right].
        assert (Hks : (step <= k - n)%Z).
        { destruct (Z.le_gt_cases step (k - n)) as [|Hlt]; [assumption|].
          rewrite Z.mod_small in Hm by lia. lia. }
        split; [lia|].
        replace (k - (n + step))%Z with (k - n + (-1) * step)%Z by lia.
        rewrite Z.mod_add by lia. exact Hm.
    + split; [intros Hin; by apply elem_of_nil in Hin | lia].
Qed.

Lemma elem_of_harmonics (step kMax k : Z) :
  (0 < step)%Z ->
  k ∈ harmonics step kMax <-> (1 <= k <= kMax)%Z /\ ((k - 1) mod step = 0)%Z.
Proof.
  intros Hstep. unfold harmonics. apply elem_of_for_upto; lia.
Qed.

Lemma aget_Float32Array (n k : Z) : aget (Float32Array n) k = 0.
Proof.
  unfold aget, Float32Array.
  destruct (decide (Z.to_nat k < Z.to_nat n)%nat) as [Hk|Hk].
  - by apply lookup_total_replicate_2.
  - rewrite list_lookup_total_alt, lookup_ge_None_2; [reflexivity|].
    rewrite length_replicate. lia.
Qed.

Lemma aget_aset_ne (a : list R) (n k : Z) (v : R) :
  (0 <= k)%Z -> n <> k -> aget (aset a n v) k = aget a k.
Proof.
  intros Hk Hne. unfold aget, aset.
  destruct (decide (0 <= n)%Z); [|reflexivity].
  apply list_lookup_total_insert_ne. lia.
Qed.

Lemma addHarm_other (phi : R) (re im : list R) (n k : Z) (A : R) :
  (0 <= k)%Z -> n <> k ->
  aget (addHarm phi (re, im) n A).1 k = aget re k /\
  aget (addHarm phi (re, im) n A).2 k = aget im k.
Proof.
  intros Hk Hne. cbn. split; by apply aget_aset_ne.
Qed.

(** Harmonics that a loop does not visit keep their coefficients. *)
Lemma harmonic_loop_untouched (phi : R) step (l : list Z) (ri : list R * list R) (k : Z) :
  adds_harmonic phi step -> (0 <= k)%Z -> k ∉ l ->
  aget (foldl step ri l).1 k = aget ri.1 k /\
  aget (foldl step ri l).2 k = aget ri.2 k.
Proof.
  intros Hstep Hk. revert ri. induction l as [|n l IH]; intros ri Hnin; cbn [foldl].
  - auto.
  - apply not_elem_of_cons in Hnin as [Hne Hnin].
    destruct (IH (step ri n) Hnin) as [-> ->].
    destruct (Hstep ri n) as [-> | [A ->]]; [auto|].
    destruct ri as [re im]. apply addHarm_other; [assumption | congruence].
Qed.

Lemma square_step_adds (sr f0 phi : R) : adds_harmonic phi (square_step sr f0 phi).
Proof.
  intros ri n. unfold square_step. destruct (decide _); eauto.
Qed.

Lemma triangle_step_adds (sr f0 phi : R) : adds_harmonic phi (triangle_step sr f0 phi).
Proof.
  intros ri n. unfold triangle_step. destruct (decide (_ > _)); eauto.
Qed.

Lemma sawtooth_step_adds (sr f0 phi : R) : adds_harmonic phi (sawtooth_step sr f0 phi).
Proof.
  intros ri n. unfold sawtooth_step. destruct (decide (_ > _)); eauto.
Qed.

(** In a wave built by a harmonic loop, a harmonic with energy was
    visited. *)
Lemma harmonic_loop_energy (phi : R) step (l : list Z) (size k : Z) :
  adds_harmonic phi step -> (0 <= k)%Z ->
  let ri := foldl step (Float32Array size, Float32Array size) l in
  aget ri.1 k <> 0 \/ aget ri.2 k <> 0 -> k ∈ l.
Proof.
  intros Hstep Hk ri Hnz.
  destruct (decide (k ∈ l)) as [|Hnin]; [assumption|exfalso].
  destruct (harmonic_loop_untouched phi step l
              (Float32Array size, Float32Array size) k Hstep Hk Hnin) as [Hre Him].
  subst ri. rewrite Hre, Him in Hnz. cbn in Hnz.
  rewrite aget_Float32Array in Hnz. destruct Hnz; congruence.
Qed.

(** The fundamental of a sine wave at phase 0 has the coefficient 1. *)
Lemma sine_fundamental (sr f0 : R) (limit : bool) :
  aget (real (buildPeriodicWave sr "sine" f0 0 limit)) 1 = 1.
Proof.
  unfold buildPeriodicWave. rewrite decide_True by reflexivity.
  cbn [addHarm real].
  rewrite aget_aset_eq.
  - rewrite aget_Float32Array.
    replace (0 * Math.PI / 180) with 0 by lra. rewrite cos_0. lra.
  - unfold len, Float32Array. rewrite length_replicate. lia.
Qed.

(** The harmonics visited by [buildPeriodicWave] with [limitHarmonics]. *)
Lemma buildPeriodicWave_energy_visited (sr : R) (shape : string) (f0 phaseDeg : R)
    (k : Z) :
  nonzero_coefficient (buildPeriodicWave sr shape f0 phaseDeg true) k ->
  (1 <= k <= Z.max 1 (Math.floor (sr / 2 * 0.9 / Math.max 1 f0)))%Z.
Proof.
  intros [Hk Hnz]. unfold buildPeriodicWave in Hnz.
  set (kMax := Z.max 1 (Math.floor (sr / 2 * 0.9 / Math.max 1 f0))) in *.
  set (size := Z.max (kMax + 1) 8192) in *.
  set (phi := phaseDeg * Math.PI / 180) in *.
  assert (Hone : forall ri : list R * list R,
             ri = addHarm phi (Float32Array size, Float32Array size) 1 1 ->
             aget ri.1 k <> 0 \/ aget ri.2 k <> 0 -> (1 <= k <= kMax)%Z).
  { intros ri -> Hri. destruct (decide (k = 1%Z)) as [->|Hne]; [lia|exfalso].
    destruct (addHarm_other phi (Float32Array size) (Float32Array size) 1 k 1)
      as [Hre Him]; [lia | congruence |].
    rewrite Hre, Him, !aget_Float32Array in Hri. destruct Hri; congruence. }
  assert (Hloop : forall step st,
             adds_harmonic phi step -> (0 < st)%Z ->
             let ri := foldl step (Float32Array size, Float32Array size)
                         (harmonics st kMax) in
             aget ri.1 k <> 0 \/ aget ri.2 k <> 0 -> (1 <= k <= kMax)%Z).
  { intros step st Hstep Hst ri Hri.
    apply (harmonic_loop_energy phi step _ size k Hstep Hk) in Hri.
    apply elem_of_harmonics in Hri; [lia | assumption]. }
  repeat case_decide.
  - eapply Hone; [reflexivity|]. destruct (addHarm _ _ _ _). exact Hnz.
  - specialize (Hloop _ 2%Z (square_step_adds sr f0 phi) eq_refl). cbv zeta in Hloop.
    destruct (foldl _ _ _). exact (Hloop Hnz).
  - specialize (Hloop _ 2%Z (triangle_step_adds sr f0 phi) eq_refl). cbv zeta in Hloop.
    destruct (foldl _ _ _). exact (Hloop Hnz).
  - specialize (Hloop _ 1%Z (sawtooth_step_adds sr f0 phi) eq_refl). cbv zeta in Hloop.
    destruct (foldl _ _ _). exact (Hloop Hnz).
  - eapply Hone; [reflexivity|]. destruct (addHarm _ _ _ _). exact Hnz.
Qed.

(** C1, as stated, fails: a sine wave whose fundamental (5000 Hz) lies above
    0.9 * Nyquist (3600 Hz at 8000 Hz) keeps its fundamental. *)
Lemma buildPeriodicWave_sine_above_ceiling :
  ~ (forall k : Z,
       nonzero_coefficient (buildPeriodicWave 8000 "sine" 5000 0 true) k ->
       IZR k * 5000 <= 0.9 * (8000 / 2)).
Proof.
  intros Hclaim. specialize (Hclaim 1%Z).
  assert (Hnz : nonzero_coefficient (buildPeriodicWave 8000 "sine" 5000 0 true) 1).
  { split; [lia|]. left. rewrite sine_fundamental. lra. }
  specialize (Hclaim Hnz). lra.
Qed.

(** C1, amended: with [limitHarmonics], for every shape, fundamental
    frequency > 0 and sample rate, a harmonic k with a non-zero coefficient
    satisfies k * fundamental <= 0.9 * (sampleRate / 2), unless it is the
    fundamental itself (k = 1) and the fundamental is above that ceiling. *)
Theorem buildPeriodicWave_band_limit (sr : R) (shape : string) (f0 phaseDeg : R)
    (k : Z) :
  0 < f0 ->
  nonzero_coefficient (buildPeriodicWave sr shape f0 phaseDeg true) k ->
  IZR k * f0 <= 0.9 * (sr / 2) \/ (k = 1%Z /\ 0.9 * (sr / 2) < f0).
Proof.
  intros Hf0 Hnz. apply buildPeriodicWave_energy_visited in Hnz.
  destruct (decide (k = 1%Z)) as [->|Hne].
  - destruct (Rle_dec f0 (0.9 * (sr / 2))); [left; lra | right; split; [reflexivity|lra]].
  - left.
    set (m := Math.max 1 f0) in *.
    assert (Hm : 1 <= m /\ f0 <= m).
    { unfold m, Math.max. split; [apply Rmax_l | apply Rmax_r]. }
    assert (Hk : (k <= Math.floor (sr / 2 * 0.9 / m))%Z) by lia.
    apply IZR_le in Hk.
    pose proof (floor_bounds (sr / 2 * 0.9 / m)) as [Hfl _].
    assert (Hkm : IZR k * m <= sr / 2 * 0.9).
    { replace (sr / 2 * 0.9) with (sr / 2 * 0.9 / m * m) by (field; lra).
      apply Rmult_le_compat_r; lra. }
    assert (Hk2 : 2 <= IZR k) by (apply IZR_le; lia).
    nra.
Qed.

Lemma buildPeriodicWave_band_limit_witness :
  IZR 1 * 440 <= 0.9 * (8000 / 2) \/ (1%Z = 1%Z /\ 0.9 * (8000 / 2) < 440).
Proof.
  apply (buildPeriodicWave_band_limit 8000 "sine" 440 0 1).
  - lra.
  - split; [lia|]. left. rewrite sine_fundamental. lra.
Defined.

(** ** Offline rendering: determinism *)

(** A wave of a standard shape is turned into its node without a call to
    [Math.random]. *)
Lemma wave_source_standard (duration sampleRate : R) (aa : bool) (w : Wave)
    (s1 s2 : RNG) :
  standard_shape w ->
  (wave_source duration sampleRate aa w s1).1 =
    (wave_source duration sampleRate aa w s2).1 /\
  (wave_source duration sampleRate aa w s1).2 = s1.
Proof.
  intros [Hp Hv]. unfold wave_source.
  destruct (decide (amp w <= 0)); [by split|].
  rewrite !bool_decide_eq_false_2 by assumption. by split.
Qed.

Lemma wave_sources_standard (duration sampleRate : R) (aa : bool)
    (waves : list Wave) :
  Forall standard_shape waves ->
  forall s1 s2 : RNG,
    (wave_sources duration sampleRate aa waves s1).1 =
      (wave_sources duration sampleRate aa waves s2).1 /\
    (wave_sources duration sampleRate aa waves s1).2 = s1.
Proof.
  induction 1 as [|w waves Hw Hws IH]; intros s1 s2; cbn [wave_sources].
  - by split.
  - unfold bind, ret.
    destruct (wave_source_standard duration sampleRate aa w s1 s2 Hw) as [Hn Hs].
    destruct (wave_source duration sampleRate aa w s1) as [n1 s1'].
    destruct (wave_source duration sampleRate aa w s2) as [n2 s2'].
    cbn [fst snd] in Hn, Hs. subst n2 s1'.
    destruct (IH s1 s2') as [Hr Ht].
    destruct (wave_sources duration sampleRate aa waves s1) as [r1 u1].
    destruct (wave_sources duration sampleRate aa waves s2') as [r2 u2].
    cbn [fst snd] in *. subst. by split.
Qed.


Section Determinism.

Variable startRendering : OfflineGraph -> list R.

(** A render of standard shapes does not depend on the random draws and
    leaves them untouched. *)
Lemma renderOfflineFromWaves_standard (duration sampleRate : R) (waves : list Wave)
    (aa : bool) (filter : option Filter) (s1 s2 : RNG) :
  Forall standard_shape waves ->
  (renderOfflineFromWaves startRendering duration sampleRate waves aa filter s1).1 =
    (renderOfflineFromWaves startRendering duration sampleRate waves aa filter s2).1 /\
  (renderOfflineFromWaves startRendering duration sampleRate waves aa filter s1).2 = s1.
Proof.
  intros Hws. unfold renderOfflineFromWaves, bind, ret.
  destruct (wave_sources_standard duration sampleRate aa waves Hws s1 s2) as [Hn Hs].
  destruct (wave_sources duration sampleRate aa waves s1) as [n1 u1].
  destruct (wave_sources duration sampleRate aa waves s2) as [n2 u2].
  cbn [fst snd] in *. subst. by split.
Qed.

(** C9: two calls of the renderer, one after the other, with the same
    duration, sample rate, filter and list of waves of standard shapes only
    return the same buffer, whatever the state of the random generator. *)
Theorem renderOfflineFromWaves_deterministic (duration sampleRate : R)
    (waves : list Wave) (aa : bool) (filter : option Filter) (s : RNG) :
  Forall standard_shape waves ->
  let first := renderOfflineFromWaves startRendering duration sampleRate waves
                 aa filter s in
  let second := renderOfflineFromWaves startRendering duration sampleRate waves
                  aa filter first.2 in
  first.1 = second.1.
Proof.
  intros Hws first second. subst first second.
  apply renderOfflineFromWaves_standard. exact Hws.
Qed.

End Determinism.

Lemma renderOfflineFromWaves_deterministic_witness :
  let render := renderOfflineFromWaves (fun g => replicate (Z.to_nat (ctx_length g)) 0)
                  1 8000
                  [{| type := "square"; amp := 0.5; freq := 440; phaseDeg := 0 |}]
                  true None in
  (render (fun _ => 0)).1 = (render (render (fun _ => 0)).2).1.
Proof.
  apply (renderOfflineFromWaves_deterministic
           (fun g => replicate (Z.to_nat (ctx_length g)) 0) 1 8000
           [{| type := "square"; amp := 0.5; freq := 440; phaseDeg := 0 |}]
           true None (fun _ => 0)).
  repeat constructor; discriminate.
Defined.

(** * Further properties of the engine *)

(** ** DAC reconstruction *)

Lemma dac_index_range (q : list R) (fsIn fsOut : R) (i : Z) :
  0 < fsIn -> 0 < fsOut ->
  (0 <= i < Math.floor (IZR (len q) / fsIn * fsOut))%Z ->
  (0 <= dac_index fsIn fsOut i < len q)%Z.
Proof.
  intros HfsIn HfsOut [Hi0 Hi]. unfold dac_index. cbv zeta.
  pose proof (floor_bounds (IZR (len q) / fsIn * fsOut)) as [HN _].
  assert (Hi1 : IZR i + 1 <= IZR (Math.floor (IZR (len q) / fsIn * fsOut))).
  { rewrite <- succ_IZR. apply IZR_le. lia. }
  assert (Hi0' : 0 <= IZR i) by (apply IZR_le; lia).
  set (r := fsIn / fsOut).
  assert (Hr : 0 < r) by (apply Rdiv_lt_0_compat; assumption).
  assert (Hn : IZR i / fsOut * fsIn = IZR i * r) by (unfold r; field; lra).
  assert (HL : IZR (len q) / fsIn * fsOut * r = IZR (len q))
    by (unfold r; field; lra).
  rewrite Hn. split.
  - apply (floor_ge_IZR _ 0). nra.
  - apply floor_le_IZR. nra.
Qed.

Lemma aget_lookup {A} `{Inhabited A} (a : list A) (i : Z) :
  (0 <= i < len a)%Z -> a !! Z.to_nat i = Some (aget a i).
Proof.
  intros Hi. unfold aget. apply list_lookup_lookup_total_lt. unfold len in Hi. lia.
Qed.

Lemma aget_Forall {A} `{Inhabited A} (P : A -> Prop) (a : list A) (i : Z) :
  Forall P a -> (0 <= i < len a)%Z -> P (aget a i).
Proof.
  intros Ha Hi. eapply Forall_lookup_1; [exact Ha | by apply aget_lookup].
Qed.


Lemma floor_nonneg (x : R) : 0 <= x -> (0 <= Math.floor x)%Z.
Proof. intros Hx. by apply (floor_ge_IZR x 0). Qed.




(** X2: a negative output rate (with a non-empty source and a positive
    input rate) gives a negative output length, and the allocation of the
    output throws a RangeError. *)
Theorem reconstructDAC_negative_rate (q : list R) (fsIn fsOut : R)
    (methodLabel : string) :
  q <> [] -> 0 < fsIn -> fsOut < 0 ->
  reconstructDAC q fsIn fsOut methodLabel = Throw "RangeError".
Proof.
  intros Hq HfsIn HfsOut. unfold reconstructDAC.
  assert (Hlen : 1 <= IZR (len q)).
  { apply IZR_le. destruct q; [congruence | unfold len; simpl; lia]. }
  assert (Hd : 0 < IZR (len q) / fsIn) by (apply Rdiv_lt_0_compat; lra).
  rewrite decide_True; [reflexivity|].
  apply (floor_le_IZR _ 0). nra.
Qed.

Lemma reconstructDAC_negative_rate_witness :
  reconstructDAC [1] 1 (-4) "Linear" = Throw "RangeError".
Proof.
  apply (reconstructDAC_negative_rate [1] 1 (-4) "Linear");
    [discriminate | lra | lra].
Defined.



(** X4: for positive rates the reconstruction stays within the range of the
    source: if every source sample lies in [lo, hi], so does every output
    sample, for either method. *)
Theorem reconstructDAC_range (q : list R) (fsIn fsOut lo hi : R)
    (methodLabel : string) :
  0 < fsIn -> 0 < fsOut ->
  Forall (fun v => lo <= v <= hi) q ->
  exists y : list R,
    reconstructDAC q fsIn fsOut methodLabel = Normal y /\
    Forall (fun v => lo <= v <= hi) y.
Proof.
  intros HfsIn HfsOut Hq.
  rewrite reconstructDAC_normal.
  2:{ apply floor_nonneg. apply Rmult_le_pos; [|lra].
      unfold Rdiv. apply Rmult_le_pos; [apply IZR_le; unfold len; lia|].
      left. by apply Rinv_0_lt_compat. }
  eexists. split; [reflexivity|].
  apply Forall_fmap, Forall_seqZ. intros i Hi. cbn.
  pose proof (dac_index_range q fsIn fsOut i HfsIn HfsOut ltac:(lia)) as Hr.
  pose proof (floor_bounds (IZR i / fsOut * fsIn)) as Hfl.
  fold (dac_index fsIn fsOut i) in Hfl.
  set (n0 := dac_index fsIn fsOut i) in *.
  pose proof (aget_Forall _ q n0 Hq Hr) as H0.
  destruct (decide (n0 = (len q - 1)%Z)) as [Hlast|Hlast].
  - rewrite (dac_sample_hold q fsIn fsOut _ i n0); [exact H0 | exact Hfl | exact Hr | by right].
  - destruct (startsWith methodLabel "Linear").
    + rewrite (dac_sample_interpolate q fsIn fsOut i n0); [|exact Hfl|lia].
      cbv zeta.
      pose proof (aget_Forall _ q (n0 + 1) Hq ltac:(lia)) as H1.
      cbn beta in H0, H1. nra.
    + rewrite (dac_sample_hold q fsIn fsOut _ i n0); [exact H0 | exact Hfl | exact Hr | by left].
Qed.

Lemma reconstructDAC_range_witness :
  exists y : list R,
    reconstructDAC [0; 1] 2 4 "Linear" = Normal y /\
    Forall (fun v => 0 <= v <= 1) y.
Proof.
  apply (reconstructDAC_range [0; 1] 2 4 0 1 "Linear"); [lra | lra |].
  repeat constructor; lra.
Defined.



(** ** The smoothing filter *)

Lemma lowpass_alpha_range (fs cutoff : R) :
  0 < fs -> 0 < cutoff -> 0 < lowpass_alpha fs cutoff < 1.
Proof.
  intros Hfs Hc. unfold lowpass_alpha, Math.PI. cbv zeta.
  pose proof PI_RGT_0 as Hpi.
  assert (Hdt : 0 < 1 / fs) by (apply Rdiv_lt_0_compat; lra).
  assert (HRC : 0 < 1 / (2 * PI * cutoff)).
  { apply Rdiv_lt_0_compat; [lra|]. apply Rmult_lt_0_compat; lra. }
  set (dt := 1 / fs) in *. set (RC := 1 / (2 * PI * cutoff)) in *.
  split.
  - apply Rdiv_lt_0_compat; lra.
  - apply (Rmult_lt_reg_r (RC + dt)); [lra|].
    replace (dt / (RC + dt) * (RC + dt)) with dt by (field; lra). lra.
Qed.

Lemma Forall_aset {A} (P : A -> Prop) (a : list A) (i : Z) (v : A) :
  Forall P a -> P v -> Forall P (aset a i v).
Proof.
  intros Ha Hv. unfold aset. destruct (decide (0 <= i)%Z); [|exact Ha].
  by apply Forall_insert.
Qed.

(** The loop keeps the running state and every stored sample within the
    bounds of the input. *)
Lemma lowpass_loop_bounded (x : list R) (alpha lo hi : R) (l : list Z)
    (prev : R) (y : list R) :
  0 <= alpha <= 1 ->
  Forall (fun v => lo <= v <= hi) x ->
  (forall i, i ∈ l -> (0 <= i < len x)%Z) ->
  lo <= prev <= hi ->
  Forall (fun v => lo <= v <= hi) y ->
  let st := foldl (lowpass_step x alpha) (prev, y) l in
  length st.2 = length y /\ Forall (fun v => lo <= v <= hi) st.2.
Proof.
  intros Ha Hx. revert prev y. induction l as [|i l IH]; intros prev y Hl Hp Hy;
    cbn [foldl].
  - by split.
  - unfold lowpass_step at 2.
    pose proof (aget_Forall _ x i Hx (Hl i ltac:(left))) as Hxi. cbn beta in Hxi.
    assert (Hp' : lo <= prev + alpha * (aget x i - prev) <= hi).
    { pose proof (Rmult_le_pos (1 - alpha) (prev - lo) ltac:(lra) ltac:(lra)).
      pose proof (Rmult_le_pos alpha (aget x i - lo) ltac:(lra) ltac:(lra)).
      pose proof (Rmult_le_pos (1 - alpha) (hi - prev) ltac:(lra) ltac:(lra)).
      pose proof (Rmult_le_pos alpha (hi - aget x i) ltac:(lra) ltac:(lra)).
      lra. }
    destruct (IH (prev + alpha * (aget x i - prev))
                 (aset y i (prev + alpha * (aget x i - prev))))
      as [Hlen Hall].
    + intros j Hj. apply Hl. by right.
    + exact Hp'.
    + by apply Forall_aset.
    + rewrite length_aset in Hlen. by split.
Qed.

(** X6: for a positive rate and a positive cutoff the filter returns as
    many samples as it is given and never leaves a range [lo, hi] that
    contains 0 and every input sample (no overshoot). *)
Theorem onePoleLowpass_bounded (x : list R) (fs cutoff lo hi : R) :
  0 < fs -> 0 < cutoff -> lo <= 0 <= hi ->
  Forall (fun v => lo <= v <= hi) x ->
  length (onePoleLowpass x fs cutoff) = length x /\
  Forall (fun v => lo <= v <= hi) (onePoleLowpass x fs cutoff).
Proof.
  intros Hfs Hc H0 Hx. unfold onePoleLowpass.
  pose proof (lowpass_alpha_range fs cutoff Hfs Hc) as Ha.
  destruct (lowpass_loop_bounded x (lowpass_alpha fs cutoff) lo hi
              (seqZ 0 (len x)) 0 (Float32Array (len x))) as [Hlen Hall].
  - lra.
  - exact Hx.
  - intros i Hi. apply elem_of_seqZ in Hi. lia.
  - exact H0.
  - unfold Float32Array. apply Forall_replicate. exact H0.
  - split; [|exact Hall]. rewrite Hlen, length_Float32Array. unfold len. lia.
Qed.

Lemma onePoleLowpass_bounded_witness :
  length (onePoleLowpass [1; -1; 0.5] 48000 8000) = length [1; -1; 0.5] /\
  Forall (fun v => -1 <= v <= 1) (onePoleLowpass [1; -1; 0.5] 48000 8000).
Proof.
  apply (onePoleLowpass_bounded [1; -1; 0.5] 48000 8000 (-1) 1);
    [lra | lra | lra |].
  repeat constructor; lra.
Defined.

(** The state of the loop after [k] samples of a constant input. *)
Lemma lowpass_loop_constant (c alpha : R) (n k : nat) :
  (k <= n)%nat ->
  let st := foldl (lowpass_step (replicate n c) alpha)
              (0, replicate n 0) (seqZ 0 (Z.of_nat k)) in
  st.1 = c * (1 - (1 - alpha) ^ k) /\
  length st.2 = n /\
  forall j : nat, (j < k)%nat -> st.2 !! j = Some (c * (1 - (1 - alpha) ^ S j)).
Proof.
  induction k as [|k IH]; intros Hk.
  - change (seqZ 0 (Z.of_nat 0)) with (@nil Z). cbn [foldl fst snd].
    split; [simpl; ring|]. split; [apply length_replicate | lia].
  - rewrite seqZ_S, foldl_snoc, Z.add_0_l.
    destruct (IH ltac:(lia)) as (Hprev & Hlen & Hy). clear IH.
    destruct (foldl _ _ _) as [prev y]. cbn [fst snd] in *.
    unfold lowpass_step.
    assert (Hx : aget (replicate n c) (Z.of_nat k) = c).
    { unfold aget. rewrite Nat2Z.id. apply lookup_total_replicate_2. lia. }
    rewrite Hx. cbn [fst snd].
    assert (Hnew : prev + alpha * (c - prev) = c * (1 - (1 - alpha) ^ S k)).
    { rewrite Hprev. simpl. ring. }
    split; [exact Hnew|]. split; [by rewrite length_aset|].
    intros j Hj. destruct (decide (j = k)) as [->|Hne].
    + rewrite lookup_aset_eq by lia. by rewrite Hnew.
    + rewrite lookup_aset_ne by lia. apply Hy. lia.
Qed.

(** X7: fed the constant [c], the filter rises from 0 towards [c]: output
    sample k is c * (1 - (1 - alpha)^(k+1)), with alpha the coefficient of
    the filter. *)
Theorem onePoleLowpass_step_response (c fs cutoff : R) (n : nat) :
  onePoleLowpass (replicate n c) fs cutoff =
    (fun k => c * (1 - (1 - lowpass_alpha fs cutoff) ^ S k)) <$> seq 0 n.
Proof.
  unfold onePoleLowpass, Float32Array, len. rewrite length_replicate, Nat2Z.id.
  destruct (lowpass_loop_constant c (lowpass_alpha fs cutoff) n n (le_n n))
    as (_ & Hlen & Hy).
  apply list_eq. intros j.
  destruct (decide (j < n)%nat) as [Hj|Hj].
  - rewrite Hy by exact Hj.
    rewrite list_lookup_fmap, lookup_seq_lt by exact Hj. reflexivity.
  - rewrite !lookup_ge_None_2; [reflexivity | |].
    + rewrite length_fmap, length_seq. lia.
    + rewrite Hlen. lia.
Qed.

(** ** Linear PCM *)

(** The peak code of an integer bit depth. *)
Lemma peak_IZR (b : Z) :
  (1 <= b)%Z -> Math.pow 2 (IZR b - 1) - 1 = IZR (2 ^ (b - 1) - 1).
Proof.
  intros Hb. unfold Math.pow.
  replace (IZR b - 1) with (INR (Z.to_nat (b - 1)))
    by (rewrite INR_IZR_INZ, Z2Nat.id, minus_IZR by lia; reflexivity).
  rewrite Rpower_pow by lra. rewrite pow_IZR, Z2Nat.id by lia.
  rewrite minus_IZR. reflexivity.
Qed.

Lemma round_bounds (x : R) :
  IZR (Math.round x) - 1 / 2 <= x < IZR (Math.round x) + 1 / 2.
Proof.
  unfold Math.round. pose proof (floor_bounds (x + 1 / 2)). lra.
Qed.

Lemma round_IZR (z : Z) : Math.round (IZR z) = z.
Proof. unfold Math.round. apply floor_unique. lra. Qed.

(** The code of a sample in [-1, 1] lies between [-peak] and [peak]. *)
Lemma round_code_range (P : Z) (v : R) :
  (0 <= P)%Z -> -1 <= v <= 1 ->
  (- P <= Math.round (v * IZR P) <= P)%Z.
Proof.
  intros HP Hv. apply IZR_le in HP.
  pose proof (round_bounds (v * IZR P)) as [Hlo Hhi].
  split.
  - apply Z.lt_succ_r. apply lt_IZR. rewrite succ_IZR, opp_IZR. nra.
  - apply Z.lt_succ_r. apply lt_IZR. rewrite succ_IZR. nra.
Qed.

Lemma trunc_IZR (z : Z) : Math.trunc (IZR z) = z.
Proof.
  unfold Math.trunc, Math.ceil. destruct (decide (IZR z < 0)).
  - rewrite <- opp_IZR, floor_IZR. lia.
  - apply floor_IZR.
Qed.

(** A code that fits in [w] bits is stored as it is. *)
Lemma toInt_small (w z : Z) :
  (0 < w)%Z -> (- 2 ^ (w - 1) <= z < 2 ^ (w - 1))%Z -> toInt w (IZR z) = z.
Proof.
  intros Hw Hz. unfold toInt. rewrite trunc_IZR.
  assert (Hp : (2 ^ w = 2 * 2 ^ (w - 1))%Z).
  { rewrite <- Z.pow_succ_r by lia. f_equal. lia. }
  rewrite Z.mod_small by lia. lia.
Qed.

(** One iteration of the linear PCM loop stores the sample of some [v] in
    [-1, 1]: the clamped input without dither, which draws nothing, and the
    clamped sum of the input and the noise of two draws with dither. *)
Lemma pcm_step_spec (xFloat : list R) (w : Z) (peak step : R) (d : bool)
    (a : list Z) (q e : list R) (i : Z) (s : RNG) :
  exists (v : R) (s' : RNG),
    -1 <= v <= 1 /\
    pcm_step xFloat w peak step d (a, q, e) i s =
      ((aset a i (pcm_sample w peak v).1.1,
        aset q i (pcm_sample w peak v).1.2,
        aset e i (pcm_sample w peak v).2), s') /\
    (d = false -> v = clamp (aget xFloat i) (-1) 1 /\ s' = s) /\
    (d = true -> forall n : nat, s' n = s (2 + n)%nat).
Proof.
  unfold pcm_step, bind, ret, Math_random, pcm_sample. destruct d.
  - eexists _, _. split; [apply clamp_bounds; lra|].
    split; [reflexivity|]. split; [discriminate|]. intros _ n. reflexivity.
  - eexists _, _. split; [apply clamp_bounds; lra|].
    split; [reflexivity|]. split; [by split|discriminate].
Qed.

Lemma pcm_cell_aset_eq (a : list Z) (q e : list R) (k : nat) (c : Z) (qv er : R) :
  (k < length a)%nat -> (k < length q)%nat -> (k < length e)%nat ->
  pcm_cell (aset a (Z.of_nat k) c, aset q (Z.of_nat k) qv, aset e (Z.of_nat k) er) k
  = Some (c, qv, er).
Proof.
  intros Ha Hq He. unfold pcm_cell. by rewrite !lookup_aset_eq.
Qed.

Lemma pcm_cell_aset_ne (a : list Z) (q e : list R) (i : Z) (k : nat)
    (c : Z) (qv er : R) :
  i <> Z.of_nat k ->
  pcm_cell (aset a i c, aset q i qv, aset e i er) k = pcm_cell (a, q, e) k.
Proof.
  intros Hne. unfold pcm_cell. by rewrite !lookup_aset_ne.
Qed.

(** After the loop every visited cell holds the sample of some value in
    [-1, 1], and the arrays keep their length. *)
Lemma pcm_loop_cells (xFloat : list R) (w : Z) (peak step : R) (d : bool)
    (n : nat) (l : list Z) (a : list Z) (q e : list R) (s : RNG) (k : nat) :
  length a = n -> length q = n -> length e = n -> (k < n)%nat ->
  Z.of_nat k ∈ l \/
    (exists v, -1 <= v <= 1 /\ pcm_cell (a, q, e) k = Some (pcm_sample w peak v)) ->
  exists v, -1 <= v <= 1 /\
    pcm_cell (forM (pcm_step xFloat w peak step d) (a, q, e) l s).1 k
    = Some (pcm_sample w peak v).
Proof.
  intros Ha Hq He Hk. revert a q e s Ha Hq He.
  induction l as [|i l IH]; intros a q e s Ha Hq He Hin; cbn [forM].
  - destruct Hin as [Hin|Hold]; [by apply elem_of_nil in Hin | exact Hold].
  - unfold bind at 1.
    destruct (pcm_step_spec xFloat w peak step d a q e i s)
      as (v & s' & Hv & -> & _).
    apply IH; try (by rewrite length_aset).
    destruct (decide (Z.of_nat k ∈ l)) as [|Hnl]; [by left|right].
    destruct (decide (i = Z.of_nat k)) as [->|Hne].
    + exists v. split; [exact Hv|].
      rewrite pcm_cell_aset_eq by lia. by destruct (pcm_sample w peak v) as [[? ?] ?].
    + rewrite pcm_cell_aset_ne by exact Hne.
      destruct Hin as [Hin|Hold]; [|exact Hold].
      apply elem_of_cons in Hin as [?|?]; [congruence|contradiction].
Qed.

(** The draws of the loop: two per sample with dither, none without. *)
Lemma pcm_loop_draws (xFloat : list R) (w : Z) (peak step : R) (d : bool)
    (l : list Z) (st : list Z * list R * list R) (s : RNG) (m : nat) :
  (forM (pcm_step xFloat w peak step d) st l s).2 m =
    s ((if d then 2 * length l else 0) + m)%nat.
Proof.
  revert st s m. induction l as [|i l IH]; intros [[a q] e] s m; cbn [forM].
  - destruct d; reflexivity.
  - unfold bind at 1.
    destruct (pcm_step_spec xFloat w peak step d a q e i s)
      as (v & s' & _ & -> & Hoff & Hon).
    rewrite IH. destruct d.
    + rewrite (Hon eq_refl). f_equal. cbn [length]. lia.
    + destruct (Hoff eq_refl) as [_ ->]. reflexivity.
Qed.

(** The result of the linear PCM path, in terms of its loop. *)
Lemma quantizeBuffer_linear (xFloat : list R) (o : QuantizeOptions) (s : RNG) :
  startsWith (compression o) "μ" = false ->
  let w := if decide (bits o = 8)%Z then 8%Z
           else if decide (bits o = 16)%Z then 16%Z else 32%Z in
  let peak := Math.pow 2 (IZR (bits o) - 1) - 1 in
  let loop := forM (pcm_step xFloat w peak (1 / peak) (dither o))
                (replicate (Z.to_nat (len xFloat)) 0%Z,
                 Float32Array (len xFloat), Float32Array (len xFloat))
                (seqZ 0 (len xFloat)) s in
  (quantizeBuffer xFloat o s).2 = loop.2 /\
  qFloat (quantizeBuffer xFloat o s).1 = loop.1.1.2 /\
  errFloat (quantizeBuffer xFloat o s).1 = loop.1.2 /\
  int_data (pcm (quantizeBuffer xFloat o s).1) = loop.1.1.1.
Proof.
  intros Hlin w peak loop. unfold quantizeBuffer. rewrite Hlin.
  unfold bind, ret. fold w. fold peak. fold loop.
  destruct loop as [[[a q] e] s']. cbn.
  repeat split. repeat case_decide; reflexivity.
Qed.

(** Every cell of the result of the linear path holds the sample of some
    value in [-1, 1]. *)
Lemma quantizeBuffer_linear_cells (xFloat : list R) (o : QuantizeOptions) (s : RNG) :
  startsWith (compression o) "μ" = false ->
  let w := if decide (bits o = 8)%Z then 8%Z
           else if decide (bits o = 16)%Z then 16%Z else 32%Z in
  let peak := Math.pow 2 (IZR (bits o) - 1) - 1 in
  let r := (quantizeBuffer xFloat o s).1 in
  length (qFloat r) = length xFloat /\
  length (errFloat r) = length xFloat /\
  length (int_data (pcm r)) = length xFloat /\
  forall k : nat, (k < length xFloat)%nat ->
    exists v, -1 <= v <= 1 /\
      pcm_cell (int_data (pcm r), qFloat r, errFloat r) k
      = Some (pcm_sample w peak v).
Proof.
  intros Hlin w peak r. subst r.
  destruct (quantizeBuffer_linear xFloat o s Hlin) as (_ & -> & -> & ->).
  fold w. fold peak.
  pose proof (pcm_loop_lengths xFloat w peak (1 / peak) (dither o)
                (seqZ 0 (len xFloat)) (replicate (Z.to_nat (len xFloat)) 0%Z)
                (Float32Array (len xFloat)) (Float32Array (len xFloat)) s) as Hlen.
  assert (Hcells : forall k, (k < length xFloat)%nat ->
    exists v, -1 <= v <= 1 /\
      pcm_cell (forM (pcm_step xFloat w peak (1 / peak) (dither o))
                  (replicate (Z.to_nat (len xFloat)) 0%Z,
                   Float32Array (len xFloat), Float32Array (len xFloat))
                  (seqZ 0 (len xFloat)) s).1 k
      = Some (pcm_sample w peak v)).
  { intros k Hk.
    apply (pcm_loop_cells xFloat w peak (1 / peak) (dither o) (length xFloat));
      try (unfold Float32Array, len; rewrite length_replicate; lia); [exact Hk|].
    left. apply elem_of_seqZ. unfold len. lia. }
  destruct (forM _ _ _ s) as [[[a q] e] s']. cbn [fst snd] in *.
  rewrite !length_Float32Array, length_replicate in Hlen. unfold len in Hlen.
  repeat split; try lia. exact Hcells.
Qed.

Lemma pcm_cell_Some (a : list Z) (q e : list R) (k : nat) (c : Z) (qv er : R) :
  pcm_cell (a, q, e) k = Some (c, qv, er) ->
  a !! k = Some c /\ q !! k = Some qv /\ e !! k = Some er.
Proof.
  unfold pcm_cell. destruct (a !! k), (q !! k), (e !! k); try discriminate.
  intros [= -> -> ->]. auto.
Qed.

(** The reconstructed sample and the error of a value in [-1, 1], for a
    positive integer peak [P]. *)
Lemma pcm_sample_bounds (w P : Z) (v : R) :
  (1 <= P)%Z -> -1 <= v <= 1 ->
  -1 <= (pcm_sample w (IZR P) v).1.2 <= 1 /\
  - (1 / (2 * IZR P)) <= (pcm_sample w (IZR P) v).2 <= 1 / (2 * IZR P).
Proof.
  intros HP Hv. unfold pcm_sample. cbn [fst snd].
  pose proof (round_code_range P v ltac:(lia) Hv) as [Hlo Hhi].
  pose proof (round_bounds (v * IZR P)) as [Hrl Hrh].
  apply IZR_le in Hlo, Hhi, HP. rewrite opp_IZR in Hlo.
  set (q := IZR (Math.round (v * IZR P))) in *.
  assert (Hinv : 0 < / IZR P) by (apply Rinv_0_lt_compat; lra).
  assert (Hq : q / IZR P * IZR P = q) by (field; lra).
  assert (Hh : 1 / (2 * IZR P) * IZR P = 1 / 2) by (field; lra).
  repeat split.
  - apply (Rmult_le_reg_r (IZR P)); [lra|]. rewrite Hq. lra.
  - apply (Rmult_le_reg_r (IZR P)); [lra|]. rewrite Hq. lra.
  - apply (Rmult_le_reg_r (IZR P)); [lra|].
    rewrite Rmult_minus_distr_r, Hq, <- Ropp_mult_distr_l, Hh. lra.
  - apply (Rmult_le_reg_r (IZR P)); [lra|].
    rewrite Rmult_minus_distr_r, Hq, Hh. lra.
Qed.

(** X8: on the linear PCM path at an integer bit depth of 2 or more, with
    or without dither, every reconstructed sample lies in [-1, 1] and every
    error sample is at most half a quantisation step, 1 / (2 * peak) with
    peak = 2^(bits-1) - 1, in magnitude. *)
Theorem quantizeBuffer_linear_error_bound (xFloat : list R) (o : QuantizeOptions)
    (s : RNG) :
  startsWith (compression o) "μ" = false -> (2 <= bits o)%Z ->
  let r := (quantizeBuffer xFloat o s).1 in
  let peak := IZR (2 ^ (bits o - 1) - 1) in
  Forall (fun qv => -1 <= qv <= 1) (qFloat r) /\
  Forall (fun e => - (1 / (2 * peak)) <= e <= 1 / (2 * peak)) (errFloat r).
Proof.
  intros Hlin Hb r peak.
  destruct (quantizeBuffer_linear_cells xFloat o s Hlin) as (Hq & He & _ & Hcells).
  fold r in Hq, He, Hcells. rewrite peak_IZR in Hcells by lia. fold peak in Hcells.
  assert (HP : (1 <= 2 ^ (bits o - 1) - 1)%Z).
  { pose proof (Z.pow_le_mono_r 2 1 (bits o - 1) ltac:(lia) ltac:(lia)). lia. }
  split; apply Forall_lookup_2; intros k x Hx;
    pose proof (lookup_lt_Some _ _ _ Hx) as Hk;
    destruct (Hcells k ltac:(lia)) as (v & Hv & Hcell);
    destruct (pcm_sample _ peak v) as [[c qv] er] eqn:Hs;
    apply pcm_cell_Some in Hcell as (_ & Hqv & Her);
    pose proof (pcm_sample_bounds
                  (if decide (bits o = 8)%Z then 8%Z
                   else if decide (bits o = 16)%Z then 16%Z else 32%Z)
                  _ v HP Hv) as [Hb1 Hb2];
    fold peak in Hb1, Hb2; rewrite Hs in Hb1, Hb2; cbn [fst snd] in Hb1, Hb2.
  - rewrite Hqv in Hx. injection Hx as <-. exact Hb1.
  - rewrite Her in Hx. injection Hx as <-. exact Hb2.
Qed.

Lemma quantizeBuffer_linear_error_bound_witness :
  let r := (quantizeBuffer [0.3; -2]
              {| bits := 16; dither := true; compression := "None" |}
              (fun _ => 0.25)).1 in
  let peak := IZR (2 ^ (16 - 1) - 1) in
  Forall (fun qv => -1 <= qv <= 1) (qFloat r) /\
  Forall (fun e => - (1 / (2 * peak)) <= e <= 1 / (2 * peak)) (errFloat r).
Proof.
  apply (quantizeBuffer_linear_error_bound [0.3; -2]
           {| bits := 16; dither := true; compression := "None" |});
    [reflexivity | cbn; lia].
Defined.

(** X9: at an integer bit depth from 2 to 32 the codes of the linear path
    lie between -peak and peak, so that none wraps around in its integer
    array, and every reconstructed sample is its code divided by peak. *)
Theorem quantizeBuffer_linear_codes (xFloat : list R) (o : QuantizeOptions)
    (s : RNG) :
  startsWith (compression o) "μ" = false -> (2 <= bits o <= 32)%Z ->
  let r := (quantizeBuffer xFloat o s).1 in
  let peak := (2 ^ (bits o - 1) - 1)%Z in
  Forall (fun c => (- peak <= c <= peak)%Z) (int_data (pcm r)) /\
  qFloat r = (fun c => IZR c / IZR peak) <$> int_data (pcm r).
Proof.
  intros Hlin Hb r peak.
  destruct (quantizeBuffer_linear_cells xFloat o s Hlin) as (Hq & He & Ha & Hcells).
  fold r in Hq, He, Ha, Hcells. rewrite peak_IZR in Hcells by lia.
  fold peak in Hcells.
  assert (HP : (1 <= peak)%Z).
  { pose proof (Z.pow_le_mono_r 2 1 (bits o - 1) ltac:(lia) ltac:(lia)).
    unfold peak. lia. }
  assert (Hstore : forall v, -1 <= v <= 1 ->
    toInt (if decide (bits o = 8)%Z then 8%Z
           else if decide (bits o = 16)%Z then 16%Z else 32%Z)
          (IZR (Math.round (v * IZR peak))) = Math.round (v * IZR peak)).
  { intros v Hv. pose proof (round_code_range peak v ltac:(lia) Hv) as Hr.
    assert (H32 : (peak < 2 ^ 31)%Z).
    { pose proof (Z.pow_le_mono_r 2 (bits o - 1) 31 ltac:(lia) ltac:(lia)).
      unfold peak. lia. }
    repeat case_decide.
    - assert (Hpk : peak = 127%Z) by (unfold peak; replace (bits o) with 8%Z; reflexivity).
      rewrite Hpk in Hr |- *. apply toInt_small; [lia|].
      change (2 ^ (8 - 1))%Z with 128%Z. lia.
    - assert (Hpk : peak = 32767%Z)
        by (unfold peak; replace (bits o) with 16%Z; reflexivity).
      rewrite Hpk in Hr |- *. apply toInt_small; [lia|].
      change (2 ^ (16 - 1))%Z with 32768%Z. lia.
    - apply toInt_small; [lia|]. change (32 - 1)%Z with 31%Z. lia. }
  split.
  - apply Forall_lookup_2. intros k c Hc.
    pose proof (lookup_lt_Some _ _ _ Hc) as Hk.
    destruct (Hcells k ltac:(lia)) as (v & Hv & Hcell).
    apply pcm_cell_Some in Hcell as (Hc' & _ & _).
    unfold pcm_sample in Hc'. cbn [fst] in Hc'.
    rewrite Hstore in Hc' by exact Hv. rewrite Hc' in Hc. injection Hc as <-.
    apply round_code_range; [lia | exact Hv].
  - apply list_eq. intros k. rewrite list_lookup_fmap.
    destruct (decide (k < length xFloat)%nat) as [Hk|Hk].
    + destruct (Hcells k Hk) as (v & Hv & Hcell).
      apply pcm_cell_Some in Hcell as (Hc' & Hqv & _).
      unfold pcm_sample in Hc', Hqv. cbn [fst snd] in Hc', Hqv.
      rewrite Hstore in Hc' by exact Hv. rewrite Hc', Hqv. reflexivity.
    + rewrite !lookup_ge_None_2 by lia. reflexivity.
Qed.

Lemma quantizeBuffer_linear_codes_witness :
  let r := (quantizeBuffer [0.3; -2]
              {| bits := 8; dither := true; compression := "None" |}
              (fun _ => 0.25)).1 in
  let peak := (2 ^ (8 - 1) - 1)%Z in
  Forall (fun c => (- peak <= c <= peak)%Z) (int_data (pcm r)) /\
  qFloat r = (fun c => IZR c / IZR peak) <$> int_data (pcm r).
Proof.
  apply (quantizeBuffer_linear_codes [0.3; -2]
           {| bits := 8; dither := true; compression := "None" |});
    [reflexivity | cbn; lia].
Defined.

(** The random draws of a call: two per sample on the linear path with
    dither, none without dither and none on the mu-law path. *)
Theorem quantizeBuffer_draws (xFloat : list R) (o : QuantizeOptions) (s : RNG)
    (m : nat) :
  (quantizeBuffer xFloat o s).2 m =
    s ((if startsWith (compression o) "μ" then 0
        else if dither o then 2 * length xFloat else 0) + m)%nat.
Proof.
  destruct (startsWith (compression o) "μ") eqn:Hmu.
  - rewrite quantizeBuffer_mulaw by exact Hmu. reflexivity.
  - destruct (quantizeBuffer_linear xFloat o s Hmu) as (-> & _).
    rewrite pcm_loop_draws, length_seqZ. unfold len. by rewrite Nat2Z.id.
Qed.





(** ** Mu-law companding *)

Lemma ln_le (x y : R) : 0 < x -> x <= y -> ln x <= ln y.
Proof.
  intros Hx [Hlt | ->]; [left; by apply ln_increasing | right; reflexivity].
Qed.

(** The compressed value of a sample in [-1, 1]. *)
Lemma mulaw_compress_range (x : R) : -1 <= x <= 1 -> -1 <= mulaw_compress x <= 1.
Proof.
  intros Hx. unfold mulaw_compress, sgn.
  pose proof ln_256_pos as Ha.
  assert (Habs : 0 <= Rabs x <= 1) by (split; [apply Rabs_pos | apply Rabs_le; lra]).
  assert (HL : 0 <= ln (1 + 255 * Rabs x) <= ln 256).
  { split; [rewrite <- ln_1; apply ln_le; lra | apply ln_le; lra]. }
  assert (Hq : 0 <= ln (1 + 255 * Rabs x) / ln 256 <= 1).
  { split.
    - unfold Rdiv. apply Rmult_le_pos; [lra|]. left. by apply Rinv_0_lt_compat.
    - apply (Rmult_le_reg_r (ln 256)); [lra|].
      replace (ln (1 + 255 * Rabs x) / ln 256 * ln 256)
        with (ln (1 + 255 * Rabs x)) by (field; lra).
      lra. }
  repeat case_decide; lra.
Qed.

Lemma Rpower_256_compress (x : R) :
  Rpower 256 (ln (1 + 255 * Rabs x) / ln 256) = 1 + 255 * Rabs x.
Proof.
  pose proof ln_256_pos. pose proof (Rabs_pos x).
  unfold Rpower.
  replace (ln (1 + 255 * Rabs x) / ln 256 * ln 256)
    with (ln (1 + 255 * Rabs x)) by (field; lra).
  apply exp_ln. lra.
Qed.

Lemma mulaw_expand_compress (x : R) :
  -1 <= x <= 1 -> mulaw_expand (mulaw_compress x) = x.
Proof.
  intros Hx. pose proof ln_256_pos as Ha. pose proof (Rabs_pos x) as Hp.
  unfold mulaw_expand, mulaw_compress, sgn.
  assert (HL : 0 <= ln (1 + 255 * Rabs x)) by (rewrite <- ln_1; apply ln_le; lra).
  assert (Hinv : 0 < / ln 256) by (by apply Rinv_0_lt_compat).
  set (L := ln (1 + 255 * Rabs x)) in *.
  assert (Hq : 0 <= L / ln 256) by (unfold Rdiv; apply Rmult_le_pos; lra).
  destruct (decide (x < 0)) as [Hneg|Hpos].
  - assert (HLpos : 0 < L).
    { unfold L. rewrite <- ln_1. apply ln_increasing; [lra|].
      rewrite Rabs_left by lra. lra. }
    assert (Hqpos : 0 < L / ln 256) by (unfold Rdiv; apply Rmult_lt_0_compat; lra).
    rewrite decide_True by lra.
    replace (Rabs (-1 * L / ln 256)) with (L / ln 256)
      by (rewrite Rabs_left by lra; lra).
    unfold L at 1. rewrite Rpower_256_compress, Rabs_left by lra. lra.
  - destruct (decide (x = 0)) as [->|Hnz].
    + rewrite decide_False by lra. rewrite decide_True by lra. lra.
    + assert (HLpos : 0 < L).
      { unfold L. rewrite <- ln_1. apply ln_increasing; [lra|].
        rewrite Rabs_right by lra. lra. }
      assert (Hqpos : 0 < L / ln 256) by (unfold Rdiv; apply Rmult_lt_0_compat; lra).
      rewrite decide_False by lra. rewrite decide_False by lra.
      replace (Rabs (1 * L / ln 256)) with (L / ln 256)
        by (rewrite Rabs_right by lra; lra).
      unfold L at 1. rewrite Rpower_256_compress, Rabs_right by lra. lra.
Qed.

(** X11: without the rounding to a byte, decoding undoes the companding:
    for a sample x in [-1, 1], [signMuLawInverse] applied to the compressed
    value that the loop computes for x returns x. *)
Theorem signMuLawInverse_compress (x : R) :
  -1 <= x <= 1 ->
  let sign := if decide (x < 0) then -1 else 1 in
  let mu := 255 in
  let y := sign * (Math.log (1 + mu * Math.abs x) / Math.log (1 + mu)) in
  signMuLawInverse y mu = x.
Proof.
  intros Hx. cbv zeta. rewrite compress_code_spec.
  rewrite expand_code_spec by (by apply mulaw_compress_range).
  by apply mulaw_expand_compress.
Qed.

Lemma signMuLawInverse_compress_witness :
  let sign := if decide (-0.25 < 0) then -1 else 1 in
  let mu := 255 in
  let y := sign * (Math.log (1 + mu * Math.abs (-0.25)) / Math.log (1 + mu)) in
  signMuLawInverse y mu = -0.25.
Proof.
  apply (signMuLawInverse_compress (-0.25)). lra.
Defined.

Lemma mulaw_compress_mono (x x' : R) :
  x <= x' -> mulaw_compress x <= mulaw_compress x'.
Proof.
  intros Hle. pose proof ln_256_pos as Ha.
  assert (Hinv : 0 < / ln 256) by (by apply Rinv_0_lt_compat).
  assert (HL : forall t, 0 <= ln (1 + 255 * Rabs t)).
  { intros t. pose proof (Rabs_pos t). rewrite <- ln_1. apply ln_le; lra. }
  pose proof (HL x) as HLx. pose proof (HL x') as HLx'.
  unfold mulaw_compress, sgn.
  destruct (decide (x < 0)) as [Hx|Hx]; destruct (decide (x' < 0)) as [Hx'|Hx'].
  - assert (Hm : ln (1 + 255 * Rabs x') <= ln (1 + 255 * Rabs x)).
    { apply ln_le; rewrite !Rabs_left by lra; lra. }
    unfold Rdiv. nra.
  - assert (H0 : 0 <= (if decide (x' = 0) then 0 else 1)
                        * ln (1 + 255 * Rabs x') / ln 256).
    { case_decide; unfold Rdiv; nra. }
    unfold Rdiv in *. nra.
  - lra.
  - destruct (decide (x = 0)) as [->|Hnz].
    + case_decide; unfold Rdiv; nra.
    + rewrite (decide_False (P := x' = 0)) by lra.
      assert (Hm : ln (1 + 255 * Rabs x) <= ln (1 + 255 * Rabs x')).
      { apply ln_le; rewrite !Rabs_right by lra; lra. }
      unfold Rdiv. nra.
Qed.

Lemma clamp_mono (x x' lo hi : R) : x <= x' -> clamp x lo hi <= clamp x' lo hi.
Proof.
  intros Hle. unfold clamp, Math.min, Math.max, Rmin, Rmax.
  repeat destruct (Rle_dec _ _); lra.
Qed.

Lemma floor_mono (x x' : R) : x <= x' -> (Math.floor x <= Math.floor x')%Z.
Proof.
  intros Hle. apply floor_ge_IZR. pose proof (floor_bounds x). lra.
Qed.

Lemma mulaw_encode_mono (x x' : R) : x <= x' -> (mulaw_encode x <= mulaw_encode x')%Z.
Proof.
  intros Hle. unfold mulaw_encode, Math.round.
  assert (Hf : (Math.floor ((mulaw_compress (clamp x (-1) 1) + 1) * 127.5 + 1 / 2)
                <= Math.floor ((mulaw_compress (clamp x' (-1) 1) + 1) * 127.5 + 1 / 2))%Z).
  { apply floor_mono.
    pose proof (mulaw_compress_mono _ _ (clamp_mono x x' (-1) 1 Hle)). lra. }
  lia.
Qed.

(** X12: mu-law encoding preserves order: of two samples of the input, the
    larger one is never given the smaller byte. *)
Theorem quantizeBuffer_mulaw_monotone (xFloat : list R) (o : QuantizeOptions)
    (s : RNG) (i j : nat) (x x' : R) :
  startsWith (compression o) "μ" = true ->
  xFloat !! i = Some x -> xFloat !! j = Some x' -> x <= x' ->
  exists b b' : Z,
    int_data (pcm (quantizeBuffer xFloat o s).1) !! i = Some b /\
    int_data (pcm (quantizeBuffer xFloat o s).1) !! j = Some b' /\
    (0 <= b <= b' /\ b' <= 255)%Z.
Proof.
  intros Hmu Hi Hj Hle. rewrite quantizeBuffer_mulaw by exact Hmu.
  cbn [fst pcm int_data]. rewrite !list_lookup_fmap, Hi, Hj. cbn.
  eexists _, _. split; [reflexivity|]. split; [reflexivity|].
  pose proof (mulaw_encode_mono x x' Hle).
  pose proof (mulaw_encode_range x). pose proof (mulaw_encode_range x'). lia.
Qed.

Lemma quantizeBuffer_mulaw_monotone_witness :
  exists b b' : Z,
    int_data (pcm (quantizeBuffer [0.5; -0.5]
                     {| bits := 8; dither := false; compression := "μ-law" |}
                     (fun _ => 0)).1) !! 1%nat = Some b /\
    int_data (pcm (quantizeBuffer [0.5; -0.5]
                     {| bits := 8; dither := false; compression := "μ-law" |}
                     (fun _ => 0)).1) !! 0%nat = Some b' /\
    (0 <= b <= b' /\ b' <= 255)%Z.
Proof.
  apply (quantizeBuffer_mulaw_monotone [0.5; -0.5]
           {| bits := 8; dither := false; compression := "μ-law" |}
           (fun _ => 0) 1 0 (-0.5) 0.5);
    [reflexivity | reflexivity | reflexivity | lra].
Defined.

Lemma exp_mult_nat (x : R) (n : nat) : exp (x * INR n) = exp x ^ n.
Proof.
  induction n as [|n IH].
  - simpl. rewrite Rmult_0_r. apply exp_0.
  - rewrite S_INR, Rmult_plus_distr_l, Rmult_1_r, exp_plus, IH. simpl. ring.
Qed.

Lemma ln_256_le : ln 256 <= 5.6.
Proof.
  assert (H : 256 <= exp 5.6).
  { replace 5.6 with (5.6 / 512 * INR 512)
      by (replace (INR 512) with 512 by (rewrite INR_IZR_INZ; reflexivity); lra).
    rewrite exp_mult_nat.
    apply Rle_trans with ((1 + 5.6 / 512) ^ 512); [lra|].
    apply pow_incr. split; [lra|]. apply exp_ineq1_le. }
  rewrite <- (ln_exp 5.6). apply ln_le; lra.
Qed.

Lemma mulaw_expand_nonneg (t : R) :
  0 <= t -> mulaw_expand t = (Rpower 256 t - 1) / 255.
Proof.
  intros Ht. unfold mulaw_expand, sgn.
  rewrite decide_False by lra. rewrite Rabs_right by lra.
  destruct (decide (t = 0)) as [->|]; [|lra].
  rewrite Rpower_O by lra. lra.
Qed.

Lemma mulaw_expand_nonpos (t : R) :
  t <= 0 -> mulaw_expand t = - ((Rpower 256 (- t) - 1) / 255).
Proof.
  intros Ht. unfold mulaw_expand, sgn.
  destruct (decide (t < 0)).
  - rewrite Rabs_left by lra. lra.
  - assert (t = 0) as -> by lra.
    rewrite decide_True by reflexivity. rewrite Ropp_0, Rpower_O by lra. lra.
Qed.

(** The growth of 256^t between two exponents in [0, 1]. *)
Lemma Rpower_256_growth (s t : R) :
  0 <= s <= t -> t <= 1 ->
  0 <= Rpower 256 t - Rpower 256 s <= 256 * ln 256 * (t - s).
Proof.
  intros [Hs Hst] Ht. pose proof ln_256_pos as Ha.
  pose proof (Rpower_256_range t ltac:(lra)) as [Ht1 Ht256].
  assert (Hsplit : Rpower 256 s = Rpower 256 t * Rpower 256 (s - t)).
  { rewrite <- Rpower_plus. f_equal. lra. }
  assert (Hlow : 1 + (s - t) * ln 256 <= Rpower 256 (s - t)).
  { unfold Rpower. apply exp_ineq1_le. }
  assert (Hup : Rpower 256 (s - t) <= 1).
  { rewrite <- (Rpower_O 256) by lra. apply Rle_Rpower; lra. }
  rewrite Hsplit. split.
  - nra.
  - assert (H1 : Rpower 256 t * (1 - Rpower 256 (s - t))
                 <= Rpower 256 t * ((t - s) * ln 256)).
    { apply Rmult_le_compat_l; lra. }
    assert (H2 : Rpower 256 t * ((t - s) * ln 256) <= 256 * ((t - s) * ln 256)).
    { apply Rmult_le_compat_r; [|lra]. apply Rmult_le_pos; lra. }
    lra.
Qed.

(** The expansion is increasing on [-1, 1] and grows by at most
    256 ln 256 / 255 per unit. *)
Lemma mulaw_expand_growth (u v : R) :
  -1 <= u -> u <= v -> v <= 1 ->
  0 <= mulaw_expand v - mulaw_expand u <= 256 * ln 256 / 255 * (v - u).
Proof.
  intros Hu Huv Hv. pose proof ln_256_pos as Ha.
  destruct (Rle_dec 0 u) as [Hu0|Hu0]; [|destruct (Rle_dec 0 v) as [Hv0|Hv0]].
  - rewrite !mulaw_expand_nonneg by lra.
    pose proof (Rpower_256_growth u v ltac:(lra) Hv). lra.
  - rewrite (mulaw_expand_nonneg v), (mulaw_expand_nonpos u) by lra.
    pose proof (Rpower_256_growth 0 v ltac:(lra) Hv) as Hg1.
    pose proof (Rpower_256_growth 0 (- u) ltac:(lra) ltac:(lra)) as Hg2.
    rewrite Rpower_O in Hg1, Hg2 by lra. lra.
  - rewrite !mulaw_expand_nonpos by lra.
    pose proof (Rpower_256_growth (- v) (- u) ltac:(lra) ltac:(lra)). lra.
Qed.

(** The decoded compressed value is within 1/255 of the compressed value. *)
Lemma mulaw_byte_near (x : R) :
  let y := mulaw_compress (clamp x (-1) 1) in
  let yDec := IZR (mulaw_encode x) / 127.5 - 1 in
  -1 <= yDec <= 1 /\ - (1 / 255) <= yDec - y <= 1 / 255.
Proof.
  intros y yDec.
  pose proof (mulaw_compress_range _ (clamp_bounds x (-1) 1 ltac:(lra))) as Hy.
  fold y in Hy.
  pose proof (round_bounds ((y + 1) * 127.5)) as [Hr1 Hr2].
  assert (Hr : (0 <= Math.round ((y + 1) * 127.5) <= 255)%Z).
  { split.
    - apply Z.lt_succ_r. apply lt_IZR. rewrite succ_IZR. lra.
    - apply Z.lt_succ_r. apply lt_IZR. rewrite succ_IZR. lra. }
  assert (He : mulaw_encode x = Math.round ((y + 1) * 127.5)).
  { unfold mulaw_encode. fold y. lia. }
  subst yDec. rewrite He. destruct Hr as [Hr0 Hr255].
  apply IZR_le in Hr0, Hr255. lra.
Qed.

(** X13: on the mu-law path every error sample is at most 0.0221 in
    magnitude, whatever the input. *)
Theorem quantizeBuffer_mulaw_error_bound (xFloat : list R) (o : QuantizeOptions)
    (s : RNG) :
  startsWith (compression o) "μ" = true ->
  Forall (fun e => -0.0221 <= e <= 0.0221) (errFloat (quantizeBuffer xFloat o s).1).
Proof.
  intros Hmu. rewrite quantizeBuffer_mulaw by exact Hmu. cbn [fst errFloat].
  apply Forall_fmap, Forall_forall. intros x _. cbn.
  pose proof (clamp_bounds x (-1) 1 ltac:(lra)) as Hc.
  destruct (mulaw_byte_near x) as [Hd Hnear]. cbv zeta in Hd, Hnear.
  pose proof (mulaw_compress_range _ Hc) as Hy.
  pose proof (mulaw_expand_compress (clamp x (-1) 1) Hc) as Hexp.
  unfold mulaw_decode.
  set (y := mulaw_compress (clamp x (-1) 1)) in *.
  set (yDec := IZR (mulaw_encode x) / 127.5 - 1) in *.
  pose proof ln_256_pos as Ha. pose proof ln_256_le as Hb.
  assert (HK : 0 <= 256 * ln 256 / 255 <= 256 * 5.6 / 255) by lra.
  destruct (Rle_dec y yDec) as [Hle|Hgt].
  - pose proof (mulaw_expand_growth y yDec ltac:(lra) Hle ltac:(lra)) as [Hg1 Hg2].
    assert (256 * ln 256 / 255 * (yDec - y) <= 256 * 5.6 / 255 * (1 / 255)) by nra.
    lra.
  - pose proof (mulaw_expand_growth yDec y ltac:(lra) ltac:(lra) ltac:(lra))
      as [Hg1 Hg2].
    assert (256 * ln 256 / 255 * (y - yDec) <= 256 * 5.6 / 255 * (1 / 255)) by nra.
    lra.
Qed.

Lemma quantizeBuffer_mulaw_error_bound_witness :
  Forall (fun e => -0.0221 <= e <= 0.0221)
    (errFloat (quantizeBuffer [0.3; -2]
                 {| bits := 8; dither := false; compression := "μ-law" |}
                 (fun _ => 0)).1).
Proof.
  apply (quantizeBuffer_mulaw_error_bound [0.3; -2]
           {| bits := 8; dither := false; compression := "μ-law" |}).
  reflexivity.
Defined.

(** ** Signal-to-noise ratio: the reconstructed buffer too short *)

Lemma sum_squares_nonneg (x : list R) : 0 <= sum_squares x.
Proof.
  induction x as [|s x IH]; simpl; [lra|].
  pose proof (Rle_0_sqr s) as Hs. unfold Rsqr in Hs. lra.
Qed.

(** Once the error power is NaN it stays NaN. *)
Lemma snr_loop_NaN (x y : list R) (l : list Z) (pSig : R) :
  (foldl (snr_step x y) (pSig, None) l).2 = None.
Proof.
  revert pSig. induction l as [|i l IH]; intros pSig; cbn [foldl]; [reflexivity|].
  unfold snr_step at 2. apply IH.
Qed.

Lemma snr_loop_short (x y : list R) :
  (length y < length x)%nat ->
  (foldl (snr_step x y) (0, Some 0) (seqZ 0 (len x))).2 = None.
Proof.
  intros Hlen.
  replace (len x) with (len y + (len x - len y))%Z by lia.
  rewrite seqZ_app, foldl_app by (unfold len; lia).
  rewrite (seqZ_cons (0 + len y)) by (unfold len; lia). cbn [foldl].
  destruct (foldl (snr_step x y) (0, Some 0) (seqZ 0 (len y))) as [pSig pErr].
  unfold snr_step at 2.
  replace (y !! Z.to_nat (0 + len y)) with (@None R)
    by (symmetry; apply lookup_ge_None_2; unfold len; lia).
  cbn. destruct pErr; apply snr_loop_NaN.
Qed.

(** X14: [computeSNR] returns NaN exactly when the reconstructed buffer is
    shorter than the original. *)
Theorem computeSNR_NaN (x y : list R) :
  computeSNR x y = NaN <-> (length y < length x)%nat.
Proof.
  split.
  - intros HNaN. destruct (decide (length y < length x)%nat) as [|Hge]; [assumption|].
    exfalso. unfold computeSNR in HNaN.
    rewrite snr_loop_total in HNaN by lia.
    destruct (decide (squared_error x y <= 1e-20)) as [|Hgt]; [discriminate|].
    unfold Math_log10 in HNaN.
    assert (Hratio : 0 <= sum_squares x / squared_error x y).
    { unfold Rdiv. apply Rmult_le_pos; [apply sum_squares_nonneg|].
      left. apply Rinv_0_lt_compat. lra. }
    destruct (decide (_ < 0)); [lra|].
    destruct (decide (_ = 0)); discriminate.
  - intros Hlen. unfold computeSNR.
    pose proof (snr_loop_short x y Hlen) as Hnone.
    destruct (foldl _ _ _) as [pSig pErr]. cbn in Hnone. by rewrite Hnone.
Qed.

(** ** Band-limited periodic waves: what the spectrum holds *)

(** Energy after a loop was there before it, or was added by an iteration
    of the loop at its own index. *)
Lemma harmonic_loop_energy_if (phi : R) (G : Z -> Prop)
    (step : list R * list R -> Z -> list R * list R) (l : list Z)
    (ri : list R * list R) (k : Z) :
  adds_harmonic_if phi G step -> (0 <= k)%Z ->
  has_energy (foldl step ri l) k -> has_energy ri k \/ (k ∈ l /\ G k).
Proof.
  intros Hstep Hk. revert ri.
  induction l as [|n l IH]; intros ri Hen; cbn [foldl] in Hen.
  - by left.
  - destruct (IH _ Hen) as [Hn | [Hin HG]]; [|right; split; [by right|exact HG]].
    destruct (Hstep ri n) as [Heq | [HG [A Heq]]]; rewrite Heq in Hn; [by left|].
    destruct (decide (n = k)) as [->|Hne]; [right; split; [by left|exact HG]|].
    left. destruct ri as [re im].
    destruct (addHarm_other phi re im n k A Hk Hne) as [Hre Him].
    unfold has_energy in *. by rewrite Hre, Him in Hn.
Qed.

Lemma fresh_arrays_no_energy (size k : Z) :
  ~ has_energy (Float32Array size, Float32Array size) k.
Proof.
  unfold has_energy. cbn [fst snd]. rewrite aget_Float32Array. tauto.
Qed.

(** Above Nyquist the roll-off brings every amplitude to zero. *)
Lemma rolloff_amplitude_above (sr f0 : R) (n : Z) (a : R) :
  0 < sr -> sr / 2 <= IZR n * f0 -> rolloff_amplitude sr f0 n a = 0.
Proof.
  intros Hsr Habove. unfold rolloff_amplitude. cbv zeta.
  rewrite decide_True by lra.
  assert (Hroll : 1 - (IZR n * f0 - sr / 2 * 0.8) / (sr / 2 * 0.2) <= 0).
  { assert (Hq : 1 <= (IZR n * f0 - sr / 2 * 0.8) / (sr / 2 * 0.2)).
    { apply (Rmult_le_reg_r (sr / 2 * 0.2)); [lra|].
      replace ((IZR n * f0 - sr / 2 * 0.8) / (sr / 2 * 0.2) * (sr / 2 * 0.2))
        with (IZR n * f0 - sr / 2 * 0.8) by (field; lra).
      lra. }
    lra. }
  unfold Math.max. rewrite Rmax_left by exact Hroll. ring.
Qed.

(** Below 80% of Nyquist the roll-off leaves the amplitude alone. *)
Lemma rolloff_amplitude_below (sr f0 : R) (n : Z) (a : R) :
  IZR n * f0 <= sr / 2 * 0.8 -> rolloff_amplitude sr f0 n a = a.
Proof.
  intros Hbelow. unfold rolloff_amplitude. cbv zeta.
  rewrite decide_False by lra. reflexivity.
Qed.

Lemma square_step_below_nyquist (sr f0 phi : R) :
  0 < sr ->
  adds_harmonic_if phi (fun n => IZR n * f0 < sr / 2) (square_step sr f0 phi).
Proof.
  intros Hsr ri n. unfold square_step. cbv zeta.
  destruct (decide (_ > 0)) as [Hpos|]; [right|by left].
  split; [|eauto].
  destruct (Rlt_dec (IZR n * f0) (sr / 2)) as [|Hge]; [assumption|exfalso].
  rewrite rolloff_amplitude_above in Hpos; lra.
Qed.

Lemma triangle_step_below_nyquist (sr f0 phi : R) :
  0 < sr ->
  adds_harmonic_if phi (fun n => IZR n * f0 < sr / 2) (triangle_step sr f0 phi).
Proof.
  intros Hsr ri n. unfold triangle_step. cbv zeta.
  destruct (decide (_ > _)) as [Hpos|]; [right|by left].
  split; [|eauto].
  destruct (Rlt_dec (IZR n * f0) (sr / 2)) as [|Hge]; [assumption|exfalso].
  rewrite rolloff_amplitude_above in Hpos by lra.
  unfold Math.abs in Hpos. rewrite Rabs_R0 in Hpos. lra.
Qed.

Lemma sawtooth_step_below_nyquist (sr f0 phi : R) :
  0 < sr ->
  adds_harmonic_if phi (fun n => IZR n * f0 < sr / 2) (sawtooth_step sr f0 phi).
Proof.
  intros Hsr ri n. unfold sawtooth_step. cbv zeta.
  destruct (decide (_ > _)) as [Hpos|]; [right|by left].
  split; [|eauto].
  destruct (Rlt_dec (IZR n * f0) (sr / 2)) as [|Hge]; [assumption|exfalso].
  rewrite rolloff_amplitude_above in Hpos by lra.
  unfold Math.abs in Hpos. rewrite Rabs_R0 in Hpos. lra.
Qed.

(** The arrays of the wave, for the shapes built by a loop. *)
Lemma buildPeriodicWave_loop (sr : R) (shape : string) (f0 phaseDeg : R) (limit : bool)
    (k : Z) :
  shape = "square" \/ shape = "triangle" \/ shape = "sawtooth" ->
  let kMax := harmonic_limit sr f0 limit in
  let size := Z.max (kMax + 1) 8192 in
  let phi := phaseDeg * Math.PI / 180 in
  exists step st,
    (shape = "square" /\ step = square_step sr f0 phi /\ st = 2%Z \/
     shape = "triangle" /\ step = triangle_step sr f0 phi /\ st = 2%Z \/
     shape = "sawtooth" /\ step = sawtooth_step sr f0 phi /\ st = 1%Z) /\
    (nonzero_coefficient (buildPeriodicWave sr shape f0 phaseDeg limit) k <->
     (0 <= k)%Z /\
     has_energy (foldl step (Float32Array size, Float32Array size)
                   (harmonics st kMax)) k).
Proof.
  intros Hshape kMax size phi.
  unfold nonzero_coefficient, buildPeriodicWave, has_energy.
  fold (harmonic_limit sr f0 limit). fold kMax. fold size. fold phi.
  destruct Hshape as [-> | [-> | ->]].
  - exists (square_step sr f0 phi), 2%Z. split; [by left|].
    rewrite decide_False by discriminate. rewrite decide_True by reflexivity.
    destruct (foldl _ _ _). reflexivity.
  - exists (triangle_step sr f0 phi), 2%Z. split; [right; by left|].
    rewrite !(decide_False (P := "triangle" = _)) by discriminate.
    rewrite decide_True by reflexivity.
    destruct (foldl _ _ _). reflexivity.
  - exists (sawtooth_step sr f0 phi), 1%Z. split; [right; by right|].
    rewrite !(decide_False (P := "sawtooth" = _)) by discriminate.
    rewrite decide_True by reflexivity.
    destruct (foldl _ _ _). reflexivity.
Qed.

(** X15: for a positive sample rate, a square, triangle or sawtooth wave has
    no energy at or above Nyquist, whether the harmonics are limited or
    not: every harmonic k with a non-zero coefficient has
    k * f0 < sampleRate / 2. *)
Theorem buildPeriodicWave_below_nyquist (sr : R) (shape : string) (f0 phaseDeg : R)
    (limit : bool) (k : Z) :
  0 < sr ->
  shape = "square" \/ shape = "triangle" \/ shape = "sawtooth" ->
  nonzero_coefficient (buildPeriodicWave sr shape f0 phaseDeg limit) k ->
  IZR k * f0 < sr / 2.
Proof.
  intros Hsr Hshape Hnz.
  destruct (buildPeriodicWave_loop sr shape f0 phaseDeg limit k Hshape)
    as (step & st & Hcase & Hiff).
  destruct (proj1 Hiff Hnz) as [Hk Hen].
  assert (Hstep : adds_harmonic_if (phaseDeg * Math.PI / 180)
                    (fun n => IZR n * f0 < sr / 2) step).
  { destruct Hcase as [(_ & -> & _) | [(_ & -> & _) | (_ & -> & _)]].
    - by apply square_step_below_nyquist.
    - by apply triangle_step_below_nyquist.
    - by apply sawtooth_step_below_nyquist. }
  destruct (harmonic_loop_energy_if _ _ _ _ _ _ Hstep Hk Hen) as [Hfresh | [_ HG]].
  - by apply fresh_arrays_no_energy in Hfresh.
  - exact HG.
Qed.

Lemma for_upto_lower (fuel : nat) (n step kMax k : Z) :
  (0 <= step)%Z -> k ∈ for_upto fuel n step kMax -> (n <= k)%Z.
Proof.
  intros Hstep. revert n. induction fuel as [|fuel IH]; intros n Hin; cbn [for_upto] in Hin.
  - by apply elem_of_nil in Hin.
  - destruct (decide (n <= kMax)%Z); [|by apply elem_of_nil in Hin].
    apply elem_of_cons in Hin as [->|Hin]; [lia|]. apply IH in Hin. lia.
Qed.

Lemma NoDup_for_upto (fuel : nat) (n step kMax : Z) :
  (0 < step)%Z -> NoDup (for_upto fuel n step kMax).
Proof.
  intros Hstep. revert n. induction fuel as [|fuel IH]; intros n; cbn [for_upto].
  - constructor.
  - destruct (decide (n <= kMax)%Z); [|constructor].
    constructor; [|apply IH].
    intros Hin. apply for_upto_lower in Hin; lia.
Qed.

Lemma addHarm_lengths (phi : R) (ri : list R * list R) (n : Z) (A : R) :
  length (addHarm phi ri n A).1 = length ri.1 /\
  length (addHarm phi ri n A).2 = length ri.2.
Proof. destruct ri as [re im]. cbn. by rewrite !length_aset. Qed.

Lemma harmonic_loop_lengths (phi : R)
    (step : list R * list R -> Z -> list R * list R) (l : list Z)
    (ri : list R * list R) :
  adds_harmonic phi step ->
  length (foldl step ri l).1 = length ri.1 /\
  length (foldl step ri l).2 = length ri.2.
Proof.
  intros Hstep. revert ri. induction l as [|n l IH]; intros ri; cbn [foldl]; [auto|].
  destruct (IH (step ri n)) as [-> ->].
  destruct (Hstep ri n) as [-> | [A ->]]; [auto | apply addHarm_lengths].
Qed.

(** The coefficients of a harmonic that its iteration adds: the loop visits
    it once, so they are those of the one sinusoid added. *)
Lemma harmonic_loop_cell (phi : R)
    (step : list R * list R -> Z -> list R * list R) (l : list Z)
    (size k : Z) (A : R) :
  adds_harmonic phi step -> NoDup l -> k ∈ l -> (0 <= k < size)%Z ->
  (forall ri, step ri k = addHarm phi ri k A) ->
  let ri := foldl step (Float32Array size, Float32Array size) l in
  aget ri.1 k = A * cos phi /\ aget ri.2 k = A * sin phi.
Proof.
  intros Hstep Hnd Hin Hk Hfire ri. subst ri.
  apply list_elem_of_split in Hin as (l1 & l2 & ->).
  apply NoDup_app in Hnd as (_ & Hdisj & Hnd2).
  apply NoDup_cons in Hnd2 as [Hk2 _].
  assert (Hk1 : k ∉ l1) by (intros Hin1; apply (Hdisj k Hin1); by left).
  rewrite foldl_app. cbn [foldl].
  set (ri1 := foldl step (Float32Array size, Float32Array size) l1).
  destruct (harmonic_loop_untouched phi step l2 (step ri1 k) k Hstep ltac:(lia) Hk2)
    as [-> ->].
  destruct (harmonic_loop_untouched phi step l1
              (Float32Array size, Float32Array size) k Hstep ltac:(lia) Hk1)
    as [Hre Him].
  destruct (harmonic_loop_lengths phi step l1
              (Float32Array size, Float32Array size) Hstep) as [Hl1 Hl2].
  fold ri1 in Hre, Him, Hl1, Hl2. cbn [fst snd] in Hre, Him, Hl1, Hl2.
  rewrite length_Float32Array in Hl1, Hl2.
  rewrite aget_Float32Array in Hre, Him.
  rewrite Hfire. destruct ri1 as [re im]. cbn [addHarm fst snd] in *.
  rewrite !aget_aset_eq by (unfold len; lia). rewrite Hre, Him. lra.
Qed.

(** The coefficients of an odd harmonic of a square wave up to 80% of
    Nyquist. *)
Lemma square_loop_coefficient (sr f0 phi : R) (kMax size n : Z) :
  (1 <= n <= kMax)%Z -> (kMax < size)%Z -> ((n - 1) mod 2 = 0)%Z ->
  IZR n * f0 <= sr / 2 * 0.8 ->
  let ri := foldl (square_step sr f0 phi) (Float32Array size, Float32Array size)
              (harmonics 2 kMax) in
  aget ri.1 n = 4 / Math.PI * (1 / IZR n) * cos phi /\
  aget ri.2 n = 4 / Math.PI * (1 / IZR n) * sin phi.
Proof.
  intros Hn Hsize Hodd Hbelow.
  apply harmonic_loop_cell.
  - apply square_step_adds.
  - apply NoDup_for_upto. lia.
  - apply elem_of_harmonics; [lia|]. split; [lia|exact Hodd].
  - lia.
  - intros ri. unfold square_step. cbv zeta.
    rewrite rolloff_amplitude_below by exact Hbelow.
    rewrite decide_True; [reflexivity|].
    assert (Hn1 : 1 <= IZR n) by (apply IZR_le; lia).
    pose proof PI_RGT_0. unfold Math.PI.
    apply Rlt_gt. apply Rmult_lt_0_compat; apply Rdiv_lt_0_compat; lra.
Qed.

Lemma buildPeriodicWave_below_nyquist_witness :
  IZR 1 * 440 < 8000 / 2.
Proof.
  apply (buildPeriodicWave_below_nyquist 8000 "square" 440 0 true 1);
    [lra | by left |].
  split; [lia|]. left.
  unfold buildPeriodicWave. rewrite decide_False by discriminate.
  rewrite decide_True by reflexivity.
  assert (HkMax : (1 <= Z.max 1 (Math.floor (8000 / 2 * 0.9 / Math.max 1 440)))%Z)
    by lia.
  destruct (square_loop_coefficient 8000 440 (0 * Math.PI / 180)
              (Z.max 1 (Math.floor (8000 / 2 * 0.9 / Math.max 1 440)))
              (Z.max (Z.max 1 (Math.floor (8000 / 2 * 0.9 / Math.max 1 440)) + 1) 8192)
              1 ltac:(lia) ltac:(lia) eq_refl ltac:(lra)) as [Hre _].
  destruct (foldl _ _ _) as [re im]. cbn [fst real] in *. rewrite Hre.
  replace (0 * Math.PI / 180) with 0 by lra. rewrite cos_0.
  unfold Math.PI. pose proof (Rinv_0_lt_compat PI PI_RGT_0). lra.
Defined.

(** X16: the odd harmonics of a square wave up to 80% of Nyquist carry the
    Fourier coefficients of the square wave, 4 / (pi n), at the phase asked
    for: real = (4/pi)(1/n) cos(phi) and imag = (4/pi)(1/n) sin(phi). *)
Theorem buildPeriodicWave_square_coefficient (sr f0 phaseDeg : R) (limit : bool)
    (n : Z) :
  (1 <= n <= harmonic_limit sr f0 limit)%Z -> Z.odd n = true ->
  IZR n * f0 <= sr / 2 * 0.8 ->
  let pw := buildPeriodicWave sr "square" f0 phaseDeg limit in
  let phi := phaseDeg * Math.PI / 180 in
  aget (real pw) n = 4 / Math.PI * (1 / IZR n) * cos phi /\
  aget (imag pw) n = 4 / Math.PI * (1 / IZR n) * sin phi.
Proof.
  intros Hn Hodd Hbelow pw phi. subst pw.
  unfold buildPeriodicWave. fold (harmonic_limit sr f0 limit). fold phi.
  rewrite decide_False by discriminate. rewrite decide_True by reflexivity.
  assert (Hmod : ((n - 1) mod 2 = 0)%Z).
  { rewrite Z.odd_spec in Hodd. destruct Hodd as [m ->].
    replace (2 * m + 1 - 1)%Z with (m * 2)%Z by lia. apply Z.mod_mul. lia. }
  destruct (square_loop_coefficient sr f0 phi (harmonic_limit sr f0 limit)
              (Z.max (harmonic_limit sr f0 limit + 1) 8192) n
              Hn ltac:(lia) Hmod Hbelow) as [Hre Him].
  destruct (foldl _ _ _) as [re im]. by split.
Qed.

Lemma buildPeriodicWave_square_coefficient_witness :
  let pw := buildPeriodicWave 8000 "square" 440 0 false in
  let phi := 0 * Math.PI / 180 in
  aget (real pw) 3 = 4 / Math.PI * (1 / IZR 3) * cos phi /\
  aget (imag pw) 3 = 4 / Math.PI * (1 / IZR 3) * sin phi.
Proof.
  apply (buildPeriodicWave_square_coefficient 8000 440 0 false 3);
    [cbn; lia | reflexivity | lra].
Defined.

(** The arrays of the wave, for a sine and for a shape that is not known. *)
Lemma buildPeriodicWave_single (sr : R) (shape : string) (f0 phaseDeg : R)
    (limit : bool) :
  shape <> "square" -> shape <> "triangle" -> shape <> "sawtooth" ->
  let size := Z.max (harmonic_limit sr f0 limit + 1) 8192 in
  let phi := phaseDeg * Math.PI / 180 in
  real (buildPeriodicWave sr shape f0 phaseDeg limit) =
    aset (Float32Array size) 1 (cos phi) /\
  imag (buildPeriodicWave sr shape f0 phaseDeg limit) =
    aset (Float32Array size) 1 (sin phi).
Proof.
  intros Hsq Htr Hsaw size phi. unfold buildPeriodicWave.
  fold (harmonic_limit sr f0 limit). fold size. fold phi.
  assert (Hadd : addHarm phi (Float32Array size, Float32Array size) 1 1
                 = (aset (Float32Array size) 1 (cos phi),
                    aset (Float32Array size) 1 (sin phi))).
  { cbn [addHarm]. rewrite aget_Float32Array. f_equal; f_equal; lra. }
  repeat case_decide; try contradiction; rewrite Hadd; by split.
Qed.

Lemma harmonic_limit_pos (sr f0 : R) (limit : bool) :
  (1 <= harmonic_limit sr f0 limit)%Z.
Proof. unfold harmonic_limit. destruct limit; lia. Qed.

(** X17: the two arrays of a wave have the same length, the larger of
    kMax + 1 and 8192, and only the harmonics from 1 to kMax can carry
    energy: the DC term and the cells beyond kMax are zero, for every shape. *)
Theorem buildPeriodicWave_layout (sr : R) (shape : string) (f0 phaseDeg : R)
    (limit : bool) :
  let pw := buildPeriodicWave sr shape f0 phaseDeg limit in
  let kMax := harmonic_limit sr f0 limit in
  len (real pw) = Z.max (kMax + 1) 8192 /\
  len (imag pw) = Z.max (kMax + 1) 8192 /\
  forall k : Z, nonzero_coefficient pw k -> (1 <= k <= kMax)%Z.
Proof.
  intros pw kMax. subst pw.
  pose proof (harmonic_limit_pos sr f0 limit) as Hpos. fold kMax in Hpos.
  set (size := Z.max (kMax + 1) 8192).
  set (phi := phaseDeg * Math.PI / 180).
  assert (Hfresh : len (Float32Array size) = size).
  { unfold len. rewrite length_Float32Array. lia. }
  destruct (decide (shape = "square" \/ shape = "triangle" \/ shape = "sawtooth"))
    as [Hshape | Hother].
  - assert (Hloop : exists step st,
      adds_harmonic phi step /\ (0 < st)%Z /\
      buildPeriodicWave sr shape f0 phaseDeg limit =
        let ri := foldl step (Float32Array size, Float32Array size)
                    (harmonics st kMax) in
        {| real := ri.1; imag := ri.2; disableNormalization := false |}).
    { unfold buildPeriodicWave. fold (harmonic_limit sr f0 limit).
      fold kMax. fold size. fold phi.
      destruct Hshape as [-> | [-> | ->]].
      - exists (square_step sr f0 phi), 2%Z.
        split; [apply square_step_adds|]. split; [lia|].
        rewrite decide_False by discriminate. rewrite decide_True by reflexivity.
        by destruct (foldl _ _ _).
      - exists (triangle_step sr f0 phi), 2%Z.
        split; [apply triangle_step_adds|]. split; [lia|].
        rewrite !(decide_False (P := "triangle" = _)) by discriminate.
        rewrite decide_True by reflexivity. by destruct (foldl _ _ _).
      - exists (sawtooth_step sr f0 phi), 1%Z.
        split; [apply sawtooth_step_adds|]. split; [lia|].
        rewrite !(decide_False (P := "sawtooth" = _)) by discriminate.
        rewrite decide_True by reflexivity. by destruct (foldl _ _ _). }
    destruct Hloop as (step & st & Hstep & Hst & ->). cbv zeta. cbn [real imag].
    destruct (harmonic_loop_lengths phi step (harmonics st kMax)
                (Float32Array size, Float32Array size) Hstep) as [Hl1 Hl2].
    cbn [fst snd] in Hl1, Hl2.
    split; [unfold len in *; rewrite Hl1; exact Hfresh|].
    split; [unfold len in *; rewrite Hl2; exact Hfresh|].
    intros k [Hk Hnz]. cbn [real imag] in Hnz.
    apply (harmonic_loop_energy phi step _ size k Hstep Hk) in Hnz.
    apply elem_of_harmonics in Hnz; lia.
  - destruct (buildPeriodicWave_single sr shape f0 phaseDeg limit) as [Hre Him];
      try (intros ->; apply Hother; tauto).
    fold kMax in Hre, Him. fold size in Hre, Him. fold phi in Hre, Him.
    rewrite Hre, Him. unfold len in *. rewrite !length_aset.
    split; [exact Hfresh|]. split; [exact Hfresh|].
    intros k [Hk Hnz]. rewrite Hre, Him in Hnz.
    destruct (decide (k = 1%Z)) as [->|Hne]; [lia|exfalso].
    rewrite !aget_aset_ne, !aget_Float32Array in Hnz by (lia || congruence).
    tauto.
Qed.

(** X18: a square wave and a triangle wave have odd harmonics only. *)
Theorem buildPeriodicWave_odd_harmonics (sr : R) (shape : string) (f0 phaseDeg : R)
    (limit : bool) (k : Z) :
  shape = "square" \/ shape = "triangle" ->
  nonzero_coefficient (buildPeriodicWave sr shape f0 phaseDeg limit) k ->
  Z.odd k = true.
Proof.
  intros Hshape Hnz.
  destruct (buildPeriodicWave_loop sr shape f0 phaseDeg limit k) as
    (step & st & Hcase & Hiff); [tauto|].
  destruct (proj1 Hiff Hnz) as [Hk Hen].
  assert (Hstep : adds_harmonic (phaseDeg * Math.PI / 180) step /\ st = 2%Z).
  { destruct Hcase as [(_ & -> & ->) | [(_ & -> & ->) | (-> & _ & _)]].
    - split; [apply square_step_adds | reflexivity].
    - split; [apply triangle_step_adds | reflexivity].
    - destruct Hshape; discriminate. }
  destruct Hstep as [Hstep ->].
  apply (harmonic_loop_energy _ step _ _ k Hstep Hk) in Hen.
  apply elem_of_harmonics in Hen as [_ Hmod]; [|lia].
  rewrite Z.odd_spec. exists ((k - 1) / 2)%Z.
  pose proof (Z.div_mod (k - 1) 2 ltac:(lia)). lia.
Qed.

Lemma buildPeriodicWave_odd_harmonics_witness : Z.odd 3 = true.
Proof.
  apply (buildPeriodicWave_odd_harmonics 8000 "square" 440 0 false 3); [by left|].
  split; [lia|]. left.
  unfold buildPeriodicWave. rewrite decide_False by discriminate.
  rewrite decide_True by reflexivity.
  destruct (square_loop_coefficient 8000 440 (0 * Math.PI / 180) 256
              (Z.max (256 + 1) 8192) 3 ltac:(lia) ltac:(lia) eq_refl ltac:(lra))
    as [Hre _].
  destruct (foldl _ _ _) as [re im]. cbn [fst real] in *. rewrite Hre.
  replace (0 * Math.PI / 180) with 0 by lra. rewrite cos_0.
  unfold Math.PI. pose proof (Rinv_0_lt_compat PI PI_RGT_0). lra.
Defined.

(** X19: a sine wave, and any shape that is not square, triangle or
    sawtooth, has the fundamental as its only harmonic, with the
    coefficients cos(phi) and sin(phi) of its phase. *)
Theorem buildPeriodicWave_sine (sr : R) (shape : string) (f0 phaseDeg : R)
    (limit : bool) :
  shape <> "square" -> shape <> "triangle" -> shape <> "sawtooth" ->
  let pw := buildPeriodicWave sr shape f0 phaseDeg limit in
  let phi := phaseDeg * Math.PI / 180 in
  aget (real pw) 1 = cos phi /\ aget (imag pw) 1 = sin phi /\
  forall k : Z, nonzero_coefficient pw k -> k = 1%Z.
Proof.
  intros Hsq Htr Hsaw pw phi. subst pw.
  destruct (buildPeriodicWave_single sr shape f0 phaseDeg limit Hsq Htr Hsaw)
    as [Hre Him]. fold phi in Hre, Him. rewrite Hre, Him.
  assert (Hin : (0 <= 1 < len (Float32Array
                   (Z.max (harmonic_limit sr f0 limit + 1) 8192)))%Z).
  { unfold len. rewrite length_Float32Array. lia. }
  rewrite !aget_aset_eq by exact Hin.
  split; [reflexivity|]. split; [reflexivity|].
  intros k [Hk Hnz]. rewrite Hre, Him in Hnz.
  destruct (decide (k = 1%Z)) as [|Hne]; [assumption|exfalso].
  rewrite !aget_aset_ne, !aget_Float32Array in Hnz by (lia || congruence).
  tauto.
Qed.

Lemma buildPeriodicWave_sine_witness :
  let pw := buildPeriodicWave 44100 "sine" 440 90 true in
  let phi := 90 * Math.PI / 180 in
  aget (real pw) 1 = cos phi /\ aget (imag pw) 1 = sin phi /\
  forall k : Z, nonzero_coefficient pw k -> k = 1%Z.
Proof.
  apply (buildPeriodicWave_sine 44100 "sine" 440 90 true); discriminate.
Defined.

Lemma aget_all_zero (a : list R) (k : Z) : Forall (fun c => c = 0) a -> aget a k = 0.
Proof.
  intros Ha. unfold aget. rewrite list_lookup_total_alt.
  destruct (a !! Z.to_nat k) as [c|] eqn:Hc; [|reflexivity].
  exact (Forall_lookup_1 _ _ _ _ Ha Hc).
Qed.

Lemma harmonic_loop_imag_zero (phi : R)
    (step : list R * list R -> Z -> list R * list R) (l : list Z)
    (ri : list R * list R) :
  adds_harmonic phi step -> sin phi = 0 ->
  Forall (fun c => c = 0) ri.2 -> Forall (fun c => c = 0) (foldl step ri l).2.
Proof.
  intros Hstep Hsin. revert ri. induction l as [|n l IH]; intros ri Hz; cbn [foldl].
  - exact Hz.
  - apply IH. destruct (Hstep ri n) as [-> | [A ->]]; [exact Hz|].
    destruct ri as [re im]. cbn [addHarm snd] in *.
    apply Forall_aset; [exact Hz|].
    rewrite (aget_all_zero im n Hz), Hsin. lra.
Qed.

(** At phase 0 the imaginary coefficients of a wave are all zero, for
    every shape. *)
Theorem buildPeriodicWave_phase_zero (sr : R) (shape : string) (f0 : R)
    (limit : bool) :
  Forall (fun c => c = 0) (imag (buildPeriodicWave sr shape f0 0 limit)).
Proof.
  assert (Hsin : sin (0 * Math.PI / 180) = 0).
  { replace (0 * Math.PI / 180) with 0 by lra. apply sin_0. }
  assert (Hfresh : forall size, Forall (fun c => c = 0) (Float32Array size)).
  { intros size. unfold Float32Array. by apply Forall_replicate. }
  assert (Hone : forall size,
    Forall (fun c => c = 0)
      (addHarm (0 * Math.PI / 180) (Float32Array size, Float32Array size) 1 1).2).
  { intros size. cbn [addHarm snd]. apply Forall_aset; [apply Hfresh|].
    rewrite aget_Float32Array, Hsin. lra. }
  assert (Hloop : forall step size l, adds_harmonic (0 * Math.PI / 180) step ->
    Forall (fun c => c = 0)
      (foldl step (Float32Array size, Float32Array size) l).2).
  { intros step size l Hstep. apply (harmonic_loop_imag_zero _ step l _ Hstep Hsin).
    apply Hfresh. }
  unfold buildPeriodicWave. repeat case_decide.
  - specialize (Hone (Z.max (harmonic_limit sr f0 limit + 1) 8192)).
    unfold harmonic_limit in Hone. by destruct (addHarm _ _ _ _).
  - specialize (Hloop _ (Z.max (harmonic_limit sr f0 limit + 1) 8192)
                  (harmonics 2 (harmonic_limit sr f0 limit))
                  (square_step_adds sr f0 _)).
    unfold harmonic_limit in Hloop. by destruct (foldl _ _ _).
  - specialize (Hloop _ (Z.max (harmonic_limit sr f0 limit + 1) 8192)
                  (harmonics 2 (harmonic_limit sr f0 limit))
                  (triangle_step_adds sr f0 _)).
    unfold harmonic_limit in Hloop. by destruct (foldl _ _ _).
  - specialize (Hloop _ (Z.max (harmonic_limit sr f0 limit + 1) 8192)
                  (harmonics 1 (harmonic_limit sr f0 limit))
                  (sawtooth_step_adds sr f0 _)).
    unfold harmonic_limit in Hloop. by destruct (foldl _ _ _).
  - specialize (Hone (Z.max (harmonic_limit sr f0 limit + 1) 8192)).
    unfold harmonic_limit in Hone. by destruct (addHarm _ _ _ _).
Qed.

(** ** Envelopes *)







(** A phase that fits in the envelope writes its values one after the
    other from the current index on, and leaves the other cells alone. *)
Lemma adsr_phase_fits_nat (n : nat) (length : Z) (f : Z -> R) (i : Z) (env : list R) :
  (0 <= i)%Z -> (i + Z.of_nat n <= length)%Z -> (length <= len env)%Z ->
  let st := adsr_phase (Z.of_nat n) length f (i, env) in
  st.1 = (i + Z.of_nat n)%Z /\ len st.2 = len env /\
  forall k : Z, (0 <= k)%Z ->
    aget st.2 k = if decide (i <= k < i + Z.of_nat n)%Z then f (k - i)%Z
                  else aget env k.
Proof.
  intros Hi. induction n as [|n IH]; intros Hfit Hlen.
  - unfold adsr_phase. change (seqZ 0 (Z.of_nat 0)) with (@nil Z). cbn [foldl fst snd].
    split; [lia|]. split; [reflexivity|]. intros k Hk.
    rewrite decide_False by lia. reflexivity.
  - destruct (IH ltac:(lia) Hlen) as (Hidx & Hl & Hcells). clear IH.
    unfold adsr_phase in *. rewrite seqZ_S, foldl_snoc, Z.add_0_l.
    destruct (foldl _ _ (seqZ 0 (Z.of_nat n))) as [i' env'].
    cbn [fst snd] in *. subst i'.
    rewrite decide_True by lia. cbn [fst snd].
    split; [lia|]. split; [unfold len in *; by rewrite length_aset|].
    intros k Hk. destruct (decide (k = (i + Z.of_nat n)%Z)) as [->|Hne].
    + rewrite aget_aset_eq by lia. rewrite decide_True by lia. f_equal. lia.
    + rewrite aget_aset_ne by (lia || congruence). rewrite Hcells by exact Hk.
      destruct (decide (i <= k < i + Z.of_nat n)%Z);
        [rewrite decide_True by lia | rewrite decide_False by lia]; reflexivity.
Qed.

Lemma adsr_phase_fits (count length : Z) (f : Z -> R) (st : Z * list R) :
  (0 <= st.1)%Z -> (0 <= count)%Z -> (st.1 + count <= length)%Z ->
  (length <= len st.2)%Z ->
  (adsr_phase count length f st).1 = (st.1 + count)%Z /\
  len (adsr_phase count length f st).2 = len st.2 /\
  forall k : Z, (0 <= k)%Z ->
    aget (adsr_phase count length f st).2 k =
      if decide (st.1 <= k < st.1 + count)%Z then f (k - st.1)%Z
      else aget st.2 k.
Proof.
  intros Hi Hc Hfit Hlen. destruct st as [i env]. cbn [fst snd] in *.
  rewrite <- (Z2Nat.id count) by exact Hc.
  apply adsr_phase_fits_nat; lia.
Qed.

(** X21: when the attack, decay and release phases fit in the envelope
    (their sample counts are non-negative and sum to at most the length),
    the envelope rises linearly from 0 during the attack, falls linearly
    from 1 towards the sustain level during the decay, holds the sustain
    level, and falls linearly from it towards 0 over the last samples. *)
Theorem generateADSR_shape (length : Z) (sampleRate : R) (params : EnvelopeParams)
    (k : Z) :
  let A := Math.floor (attack params * sampleRate) in
  let D := Math.floor (decay params * sampleRate) in
  let Rl := Math.floor (release params * sampleRate) in
  let env := generateADSR length sampleRate params in
  (0 <= A)%Z -> (0 <= D)%Z -> (0 <= Rl)%Z -> (A + D + Rl <= length)%Z ->
  ((0 <= k < A)%Z -> aget env k = IZR k / IZR A) /\
  ((A <= k < A + D)%Z ->
     aget env k = 1 - (1 - sustain params) * (IZR (k - A) / IZR D)) /\
  ((A + D <= k < length - Rl)%Z -> aget env k = sustain params) /\
  ((length - Rl <= k < length)%Z ->
     aget env k = sustain params * (1 - IZR (k - (length - Rl)) / IZR Rl)).
Proof.
  intros A D Rl env HA HD HR Hfit. subst env. unfold generateADSR. cbv zeta.
  fold A. fold D. fold Rl.
  set (st0 := (0%Z, Float32Array length)).
  assert (Hlen0 : len st0.2 = length).
  { unfold len, st0. cbn [snd]. rewrite length_Float32Array. lia. }
  set (st1 := adsr_phase A length (fun j => IZR j / IZR A) st0).
  destruct (adsr_phase_fits A length (fun j => IZR j / IZR A) st0)
    as (Hi1 & Hl1 & Hc1); [cbn; lia | lia | cbn; lia | lia |].
  fold st1 in Hi1, Hl1, Hc1.
  change st0.1 with 0%Z in Hi1, Hc1. rewrite Z.add_0_l in Hi1.
  set (st2 := adsr_phase D length
                (fun j => 1 - (1 - sustain params) * (IZR j / IZR D)) st1).
  destruct (adsr_phase_fits D length
              (fun j => 1 - (1 - sustain params) * (IZR j / IZR D)) st1)
    as (Hi2 & Hl2 & Hc2); [lia | lia | lia | lia |].
  fold st2 in Hi2, Hl2, Hc2.
  set (st3 := adsr_phase (length - A - D - Rl) length (fun _ => sustain params) st2).
  destruct (adsr_phase_fits (length - A - D - Rl) length
              (fun _ => sustain params) st2)
    as (Hi3 & Hl3 & Hc3); [lia | lia | lia | lia |].
  fold st3 in Hi3, Hl3, Hc3.
  destruct (adsr_phase_fits Rl length
              (fun j => sustain params * (1 - IZR j / IZR Rl)) st3)
    as (_ & _ & Hc4); [lia | lia | lia | lia |].
  rewrite Hi3, Hi2, Hi1 in Hc4. rewrite Hi2, Hi1 in Hc3. rewrite Hi1 in Hc2.
  repeat split; intros Hk; rewrite Hc4 by lia.
  - rewrite decide_False by lia. rewrite Hc3 by lia.
    rewrite decide_False by lia. rewrite Hc2 by lia.
    rewrite decide_False by lia. rewrite Hc1 by lia.
    rewrite decide_True by lia. by rewrite Z.sub_0_r.
  - rewrite decide_False by lia. rewrite Hc3 by lia.
    rewrite decide_False by lia. rewrite Hc2 by lia.
    rewrite decide_True by lia. reflexivity.
  - rewrite decide_False by lia. rewrite Hc3 by lia.
    rewrite decide_True by lia. reflexivity.
  - rewrite decide_True by lia.
    replace (A + D + (length - A - D - Rl))%Z with (length - Rl)%Z by lia.
    reflexivity.
Qed.

Lemma generateADSR_shape_witness :
  let p := {| attack := 2; decay := 3; sustain := 0.5; release := 4 |} in
  let env := generateADSR 12 1 p in
  ((0 <= 1 < 2)%Z -> aget env 1 = IZR 1 / IZR 2) /\
  ((2 <= 1 < 2 + 3)%Z -> aget env 1 = 1 - (1 - 0.5) * (IZR (1 - 2) / IZR 3)) /\
  ((2 + 3 <= 1 < 12 - 4)%Z -> aget env 1 = 0.5) /\
  ((12 - 4 <= 1 < 12)%Z -> aget env 1 = 0.5 * (1 - IZR (1 - (12 - 4)) / IZR 4)).
Proof.
  assert (HA : Math.floor (2 * 1) = 2%Z) by (apply floor_unique; lra).
  assert (HD : Math.floor (3 * 1) = 3%Z) by (apply floor_unique; lra).
  assert (HR : Math.floor (4 * 1) = 4%Z) by (apply floor_unique; lra).
  pose proof (generateADSR_shape 12 1
                {| attack := 2; decay := 3; sustain := 0.5; release := 4 |} 1) as H.
  cbv zeta in H. cbn [attack decay sustain release] in H.
  rewrite HA, HD, HR in H. apply H; lia.
Defined.

(** ** Instrument voices *)










(** ** The helpers of the visualisation *)

Lemma ceil_bounds (x : R) : IZR (Math.ceil x) - 1 < x <= IZR (Math.ceil x).
Proof.
  unfold Math.ceil. rewrite opp_IZR. pose proof (floor_bounds (- x)). lra.
Qed.

Lemma Rpower_2_log2 (n : R) : 0 < n -> Rpower 2 (Math_log2 n) = n.
Proof.
  intros Hn. unfold Rpower, Math_log2.
  assert (0 < ln 2) by (rewrite <- ln_1; apply ln_increasing; lra).
  replace (ln n / ln 2 * ln 2) with (ln n) by (field; lra).
  by apply exp_ln.
Qed.

(** For a positive n, [nextPowerOf2] returns a power of two with a
    non-fractional exponent that is at least n and less than 2 n. *)
Theorem nextPowerOf2_bounds (n : R) :
  0 < n ->
  (exists k : Z, nextPowerOf2 n = Rpower 2 (IZR k)) /\
  n <= nextPowerOf2 n < 2 * n.
Proof.
  intros Hn. unfold nextPowerOf2, Math.pow.
  split; [by eexists|].
  pose proof (ceil_bounds (Math_log2 n)) as [Hlo Hhi].
  set (c := IZR (Math.ceil (Math_log2 n))) in *.
  pose proof (Rpower_2_log2 n Hn) as Hp.
  assert (H1 : Rpower 2 (Math_log2 n) <= Rpower 2 c) by (apply Rle_Rpower; lra).
  assert (H2 : Rpower 2 c < Rpower 2 (1 + Math_log2 n)) by (apply Rpower_lt; lra).
  rewrite Rpower_plus, Rpower_1 in H2 by lra. lra.
Qed.

Lemma nextPowerOf2_bounds_witness :
  (exists k : Z, nextPowerOf2 1000 = Rpower 2 (IZR k)) /\
  1000 <= nextPowerOf2 1000 < 2 * 1000.
Proof.
  apply (nextPowerOf2_bounds 1000). lra.
Defined.

(** The bins that the search visits. *)
Lemma for_below_half (fuel : nat) (i L : Z) :
  (0 <= (L - 1) / 2 - i + 1 <= Z.of_nat fuel)%Z ->
  for_below fuel i (IZR L / 2) = seqZ i ((L - 1) / 2 - i + 1).
Proof.
  revert i. induction fuel as [|fuel IH]; intros i Hf; cbn [for_below].
  - rewrite seqZ_nil by lia. reflexivity.
  - pose proof (Z.div_mod (L - 1) 2 ltac:(lia)) as Hdm.
    pose proof (Z.mod_pos_bound (L - 1) 2 ltac:(lia)) as Hm.
    destruct (decide (IZR i < IZR L / 2)) as [Hlt|Hge].
    + assert (Hi : (2 * i < L)%Z).
      { apply lt_IZR. rewrite mult_IZR. lra. }
      rewrite (seqZ_cons i) by lia. f_equal.
      rewrite IH by lia. f_equal. lia.
    + assert (Hi : (L <= 2 * i)%Z).
      { apply le_IZR. rewrite mult_IZR. lra. }
      rewrite seqZ_nil by lia. reflexivity.
Qed.

(** After the bins 1 to n the search holds the largest magnitude seen, or 0
    when none was positive, and the first bin that has it. *)
Lemma dominant_loop_prefix (fftData : list R) (n : nat) :
  let st := foldl (dominant_step fftData) (0, 0%Z) (seqZ 1 (Z.of_nat n)) in
  (forall i, (1 <= i <= Z.of_nat n)%Z -> aget fftData i <= st.1) /\
  ((st.2 = 0%Z /\ st.1 = 0) \/
   ((1 <= st.2 <= Z.of_nat n)%Z /\ st.1 = aget fftData st.2 /\ 0 < st.1 /\
    forall i, (1 <= i < st.2)%Z -> aget fftData i < st.1)).
Proof.
  induction n as [|n IH].
  - cbn. split; [intros i Hi; lia | left; by split].
  - rewrite seqZ_S, foldl_snoc. destruct IH as [Hmax Hbin].
    destruct (foldl _ _ _) as [maxMag maxBin]. cbn [fst snd] in *.
    unfold dominant_step.
    replace (1 + Z.of_nat n)%Z with (Z.of_nat (S n)) by lia.
    destruct (decide (aget fftData (Z.of_nat (S n)) > maxMag)) as [Hnew|Hold];
      cbn [fst snd].
    + split.
      * intros i Hi. destruct (decide (i = Z.of_nat (S n))) as [->|]; [lra|].
        specialize (Hmax i ltac:(lia)). lra.
      * right. split; [lia|]. split; [reflexivity|].
        split; [destruct Hbin as [[_ ->] | (_ & _ & ? & _)]; lra|].
        intros i Hi. specialize (Hmax i ltac:(lia)). lra.
    + split.
      * intros i Hi. destruct (decide (i = Z.of_nat (S n))) as [->|]; [lra|].
        apply Hmax. lia.
      * destruct Hbin as [? | (Hr & ? & ? & ?)]; [by left|right].
        split; [lia|]. auto.
Qed.

(** X24: for a non-empty spectrum, [findDominantFrequency] returns the
    centre frequency b * sampleRate / length of a bin b: the first bin of
    largest magnitude among the bins from 1 to below half the length when
    that magnitude is positive, and bin 0 (frequency 0) when no such bin
    has a positive magnitude. *)
Theorem findDominantFrequency_spec (fftData : list R) (sampleRate : R) :
  fftData <> [] ->
  exists b : Z,
    findDominantFrequency fftData sampleRate
      = IZR b * (sampleRate / IZR (len fftData)) /\
    ((b = 0%Z /\
      forall i, (1 <= i)%Z -> (2 * i < len fftData)%Z -> aget fftData i <= 0) \/
     ((1 <= b)%Z /\ (2 * b < len fftData)%Z /\ 0 < aget fftData b /\
      (forall i, (1 <= i)%Z -> (2 * i < len fftData)%Z ->
         aget fftData i <= aget fftData b) /\
      (forall i, (1 <= i < b)%Z -> aget fftData i < aget fftData b))).
Proof.
  intros Hne.
  assert (HL : (1 <= len fftData)%Z) by (destruct fftData; [congruence | unfold len; simpl; lia]).
  pose proof (Z.div_mod (len fftData - 1) 2 ltac:(lia)) as Hdm.
  pose proof (Z.mod_pos_bound (len fftData - 1) 2 ltac:(lia)) as Hm.
  set (m := ((len fftData - 1) / 2)%Z) in *.
  assert (Hm0 : (0 <= m)%Z) by (apply Z.div_pos; lia).
  unfold findDominantFrequency, dominant_bin.
  rewrite (for_below_half _ 1 (len fftData)) by (fold m; unfold len in *; lia).
  fold m. replace (m - 1 + 1)%Z with (Z.of_nat (Z.to_nat m)) by lia.
  destruct (dominant_loop_prefix fftData (Z.to_nat m)) as [Hmax Hbin].
  destruct (foldl _ _ _) as [maxMag maxBin]. cbn [fst snd] in *.
  exists maxBin. split; [reflexivity|].
  destruct Hbin as [[-> ->] | (Hr & -> & Hpos & Hfirst)].
  - left. split; [reflexivity|]. intros i Hi1 Hi2. apply Hmax. lia.
  - right. split; [lia|]. split; [lia|]. split; [exact Hpos|].
    split; [|exact Hfirst]. intros i Hi1 Hi2. apply Hmax. lia.
Qed.

Lemma findDominantFrequency_spec_witness :
  exists b : Z,
    findDominantFrequency [0; 1; 3; 2; 0; 0; 0; 0] 8000
      = IZR b * (8000 / IZR (len [0; 1; 3; 2; 0; 0; 0; 0])) /\
    ((b = 0%Z /\
      forall i, (1 <= i)%Z -> (2 * i < len [0; 1; 3; 2; 0; 0; 0; 0])%Z ->
        aget [0; 1; 3; 2; 0; 0; 0; 0] i <= 0) \/
     ((1 <= b)%Z /\ (2 * b < len [0; 1; 3; 2; 0; 0; 0; 0])%Z /\
      0 < aget [0; 1; 3; 2; 0; 0; 0; 0] b /\
      (forall i, (1 <= i)%Z -> (2 * i < len [0; 1; 3; 2; 0; 0; 0; 0])%Z ->
         aget [0; 1; 3; 2; 0; 0; 0; 0] i <= aget [0; 1; 3; 2; 0; 0; 0; 0] b) /\
      (forall i, (1 <= i < b)%Z ->
         aget [0; 1; 3; 2; 0; 0; 0; 0] i < aget [0; 1; 3; 2; 0; 0; 0; 0] b))).
Proof.
  apply (findDominantFrequency_spec [0; 1; 3; 2; 0; 0; 0; 0] 8000). discriminate.
Defined.

(** ** Offline rendering: waves without amplitude *)

Lemma wave_sources_audible (duration sampleRate : R) (aa : bool)
    (waves : list Wave) (s : RNG) :
  wave_sources duration sampleRate aa (filter (fun w => 0 < amp w) waves) s =
  wave_sources duration sampleRate aa waves s.
Proof.
  revert s. induction waves as [|w waves IH]; intros s; [reflexivity|].
  destruct (decide (0 < amp w)) as [Hpos|Hsilent].
  - rewrite filter_cons_True by exact Hpos. cbn [wave_sources]. unfold bind.
    destruct (wave_source duration sampleRate aa w s) as [node s'].
    by rewrite IH.
  - rewrite filter_cons_False by exact Hsilent. cbn [wave_sources].
    unfold bind, wave_source. rewrite decide_True by lra. unfold ret.
    rewrite IH. by destruct (wave_sources duration sampleRate aa waves s).
Qed.

(** X25: waves whose amplitude is not positive are left out of the render:
    rendering a list of waves, instrument voices included, returns the
    buffer and leaves the random draws that rendering its waves of positive
    amplitude does. *)
Theorem renderOfflineFromWaves_audible (startRendering : OfflineGraph -> list R)
    (duration sampleRate : R) (waves : list Wave) (aa : bool)
    (filter_opt : option Filter) (s : RNG) :
  renderOfflineFromWaves startRendering duration sampleRate
    (filter (fun w => 0 < amp w) waves) aa filter_opt s =
  renderOfflineFromWaves startRendering duration sampleRate waves aa filter_opt s.
Proof.
  unfold renderOfflineFromWaves, bind. by rewrite wave_sources_audible.
Qed.

(** * WAV files *)

Lemma write_bytes_ok (buf : list Z) (offset : Z) (bs : list Z) :
  (0 <= offset)%Z -> (offset + len bs <= len buf)%Z ->
  write_bytes buf offset bs = Normal (list_inserts (Z.to_nat offset) bs buf).
Proof.
  intros H0 H1. unfold write_bytes. by rewrite decide_True.
Qed.

Lemma write_bytes_throw (buf : list Z) (offset : Z) (bs : list Z) :
  (len buf < offset + len bs)%Z -> write_bytes buf offset bs = Throw "RangeError".
Proof.
  intros H. unfold write_bytes. rewrite decide_False by lia. reflexivity.
Qed.

Lemma length_le_bytes (n : nat) (v : Z) : length (le_bytes n v) = n.
Proof. revert v. induction n as [|n IH]; intros v; cbn; [|rewrite IH]; reflexivity. Qed.

Lemma forC_app {S} (body : S -> Z -> completion S) (st : S) (l1 l2 : list Z) :
  forC body st (l1 ++ l2) = cbind (forC body st l1) (fun st' => forC body st' l2).
Proof.
  revert st. induction l1 as [|i l1 IH]; intros st; cbn [forC app]; [reflexivity|].
  unfold cbind at 1 3. destruct (body st i); [apply IH | reflexivity].
Qed.

(** Reading depends on the bytes read only. *)
Lemma read_le_ext (n : nat) (v1 v2 : list Z) (offset : nat) :
  (forall j, (offset <= j < offset + n)%nat -> v1 !!! j = v2 !!! j) ->
  read_le n v1 offset = read_le n v2 offset.
Proof.
  revert offset. induction n as [|n IH]; intros offset Hext; cbn [read_le]; [reflexivity|].
  rewrite Hext by lia. rewrite (IH (S offset)); [reflexivity|].
  intros j Hj. apply Hext. lia.
Qed.

(** Reading back what was written: the value modulo 256^n. *)
Lemma read_le_written (n : nat) (view : list Z) (offset : nat) (v : Z) :
  (offset + n <= length view)%nat ->
  read_le n (list_inserts offset (le_bytes n v) view) offset = (v mod 256 ^ Z.of_nat n)%Z.
Proof.
  revert view offset v. induction n as [|n IH]; intros view offset v Hfit.
  - cbn. by rewrite Z.mod_1_r.
  - cbn [read_le le_bytes].
    change (v mod 256 :: le_bytes n (v / 256))%Z
      with ([v mod 256]%Z ++ le_bytes n (v / 256)).
    rewrite list_inserts_app_l. cbn [length].
    rewrite list_lookup_total_inserts_lt by lia.
    rewrite (list_lookup_total_inserts view offset [(v mod 256)%Z] offset)
      by (cbn; lia).
    rewrite Nat.sub_diag. cbn [lookup_total list_lookup_total].
    replace (1 + offset)%nat with (S offset) by lia.
    rewrite IH by (rewrite length_inserts; lia).
    rewrite Nat2Z.inj_succ, Z.pow_succ_r by lia.
    rewrite (Z.rem_mul_r v 256 (256 ^ Z.of_nat n)) by lia. lia.
Qed.

Lemma toUint_IZR (w z : Z) : toUint w (IZR z) = (z mod 2 ^ w)%Z.
Proof. unfold toUint. by rewrite trunc_IZR. Qed.

(** Writing an array byte by byte. *)
Lemma forC_write_each (f : Z -> Z) (codes : list Z) (view : list Z) (offset : Z) (k : nat) :
  (0 <= offset)%Z -> (offset + len codes <= len view)%Z -> (k <= length codes)%nat ->
  forC (fun view i => write_bytes view (offset + i) [f (aget codes i)])
       view (seqZ 0 (Z.of_nat k))
  = Normal (list_inserts (Z.to_nat offset) (f <$> take k codes) view).
Proof.
  intros H0 Hfit. induction k as [|k IH]; intros Hk.
  - reflexivity.
  - rewrite seqZ_S, forC_app, IH by lia. cbn [cbind forC]. rewrite Z.add_0_l.
    destruct (lookup_lt_is_Some_2 codes k ltac:(lia)) as [c Hc].
    rewrite (take_S_r _ _ _ Hc), fmap_app, list_inserts_app_l.
    rewrite length_fmap, length_take, Nat.min_l by lia.
    rewrite write_bytes_ok.
    + cbn [cbind]. do 2 f_equal; [lia|].
      cbn. unfold aget. rewrite Nat2Z.id.
      by rewrite (list_lookup_total_correct _ _ _ Hc).
    + lia.
    + unfold len in *. rewrite length_inserts. cbn [length]. lia.
Qed.

Lemma writeString_ok (view : list Z) (offset : Z) (str : string) :
  (0 <= offset)%Z -> (offset + len (charCodes str) <= len view)%Z ->
  writeString view offset str
  = Normal (list_inserts (Z.to_nat offset)
              ((fun c => toUint 8 (IZR c) mod 256)%Z <$> charCodes str) view).
Proof.
  intros H0 Hfit. unfold writeString, setUint8. cbn [le_bytes].
  unfold len at 1.
  rewrite (forC_write_each (fun c => toUint 8 (IZR c) mod 256)%Z) by (assumption || lia).
  by rewrite firstn_all.
Qed.

Lemma length_join_fixed {A} (w : nat) (ls : list (list A)) :
  Forall (fun l => length l = w) ls -> length (mjoin ls) = (w * length ls)%nat.
Proof.
  induction 1 as [|l ls Hl _ IH]; [cbn; lia|].
  change (mjoin (l :: ls)) with (l ++ mjoin ls).
  rewrite length_app, IH, Hl. cbn [length]. lia.
Qed.

(** A loop that writes [w] bytes per index, one index after the other. *)
Lemma forC_fixed_width (enc : Z -> list Z) (w : nat)
    (step : list Z * Z -> Z -> completion (list Z * Z))
    (view : list Z) (base : Z) (k : nat) :
  (forall view off i,
     step (view, off) i
     = let? view' := write_bytes view off (enc i) in Normal (view', (off + Z.of_nat w)%Z)) ->
  (forall i, length (enc i) = w) ->
  (0 <= base)%Z -> (base + Z.of_nat w * Z.of_nat k <= len view)%Z ->
  forC step (view, base) (seqZ 0 (Z.of_nat k))
  = Normal (list_inserts (Z.to_nat base) (mjoin (enc <$> seqZ 0 (Z.of_nat k))) view,
            (base + Z.of_nat w * Z.of_nat k)%Z).
Proof.
  intros Hstep Hw H0. induction k as [|k IH]; intros Hfit.
  - cbn [Z.of_nat]. rewrite Z.mul_0_r, Z.add_0_r. reflexivity.
  - rewrite seqZ_S, forC_app, IH by lia. cbn [cbind forC]. rewrite Z.add_0_l.
    rewrite Hstep, fmap_app, join_app, list_inserts_app_l.
    rewrite (length_join_fixed w) by (apply Forall_fmap, Forall_forall; intros; apply Hw).
    rewrite length_fmap, length_seqZ, Nat2Z.id.
    rewrite write_bytes_ok.
    + cbn [cbind fmap list_fmap mjoin list_join]. rewrite app_nil_r.
      do 2 f_equal; [|lia]. f_equal. lia.
    + lia.
    + unfold len in *. rewrite length_inserts, Hw. lia.
Qed.


Lemma charCodes_range (s : string) : Forall (fun c => (0 <= c < 256)%Z) (charCodes s).
Proof.
  unfold charCodes. apply Forall_fmap, Forall_forall. intros a _. cbn.
  pose proof (Ascii.nat_ascii_bounded a). lia.
Qed.

Lemma length_charCodes (s : string) : length (charCodes s) = String.length s.
Proof.
  unfold charCodes. rewrite length_fmap.
  induction s as [|a s IH]; cbn; [reflexivity | by rewrite IH].
Qed.

(** A string of 8-bit characters is written as its character codes. *)
Lemma writeString_bytes (view : list Z) (offset : Z) (str : string) :
  (0 <= offset)%Z -> (offset + len (charCodes str) <= len view)%Z ->
  writeString view offset str
  = Normal (list_inserts (Z.to_nat offset) (charCodes str) view).
Proof.
  intros H0 Hfit. rewrite writeString_ok by assumption. do 2 f_equal.
  rewrite <- (list_fmap_id (charCodes str)) at 2.
  apply Forall_fmap_ext, (Forall_impl _ _ _ (charCodes_range str)).
  intros c Hc. cbn beta. unfold Datatypes.id. rewrite toUint_IZR.
  change (2 ^ 8)%Z with 256%Z. by rewrite !(Z.mod_small c 256) by lia.
Qed.

Lemma bytes_at_lookup (view : list Z) (offset n j : nat) :
  (j < n)%nat -> bytes_at view offset n !! j = view !! (offset + j)%nat.
Proof.
  intros Hj. unfold bytes_at. by rewrite lookup_take_lt, lookup_drop.
Qed.

Lemma length_bytes_at (view : list Z) (offset n : nat) :
  (offset + n <= length view)%nat -> length (bytes_at view offset n) = n.
Proof.
  intros H. unfold bytes_at. rewrite length_take, length_drop. lia.
Qed.

Lemma bytes_at_ext (v1 v2 : list Z) (offset n : nat) :
  length v1 = length v2 ->
  (forall j, (j < n)%nat -> v1 !! (offset + j)%nat = v2 !! (offset + j)%nat) ->
  bytes_at v1 offset n = bytes_at v2 offset n.
Proof.
  intros Hlen Hext. apply list_eq. intros j.
  destruct (decide (j < n)%nat) as [Hj|Hj].
  - rewrite !bytes_at_lookup by assumption. by apply Hext.
  - unfold bytes_at. by rewrite !lookup_take_ge by lia.
Qed.

(** A write elsewhere leaves the bytes as they are. *)
Lemma bytes_at_inserts_other (view bs : list Z) (offset n at_ : nat) :
  (at_ + length bs <= offset \/ offset + n <= at_)%nat ->
  bytes_at (list_inserts at_ bs view) offset n = bytes_at view offset n.
Proof.
  intros Hdisj. apply bytes_at_ext; [apply length_inserts|].
  intros j Hj. destruct Hdisj.
  - apply list_lookup_inserts_ge. lia.
  - apply list_lookup_inserts_lt. lia.
Qed.

(** The bytes written are the bytes read back. *)
Lemma bytes_at_written (view bs : list Z) (offset : nat) :
  (offset + length bs <= length view)%nat ->
  bytes_at (list_inserts offset bs view) offset (length bs) = bs.
Proof.
  intros Hfit. apply list_eq. intros j.
  destruct (decide (j < length bs)%nat) as [Hj|Hj].
  - rewrite bytes_at_lookup by assumption.
    rewrite list_lookup_inserts by lia. f_equal. lia.
  - unfold bytes_at. rewrite lookup_take_ge by lia.
    symmetry. apply lookup_ge_None. lia.
Qed.

Lemma read_le_bytes_at (n : nat) (view : list Z) (offset : nat) :
  read_le n view offset = read_le n (bytes_at view offset n) 0.
Proof.
  assert (Hgen : forall m k, (k + m <= n)%nat ->
    read_le m view (offset + k) = read_le m (bytes_at view offset n) k).
  { induction m as [|m IH]; intros k Hk; cbn [read_le]; [reflexivity|].
    rewrite !list_lookup_total_alt, bytes_at_lookup by lia.
    replace (S (offset + k)) with (offset + S k)%nat by lia.
    rewrite IH by lia. reflexivity. }
  rewrite <- (Hgen n 0%nat) by lia. by rewrite Nat.add_0_r.
Qed.

Lemma read_le_le_bytes (n : nat) (v : Z) :
  read_le n (le_bytes n v) 0 = (v mod 256 ^ Z.of_nat n)%Z.
Proof.
  rewrite <- (read_le_written n (le_bytes n v) 0 v) by (rewrite length_le_bytes; lia).
  apply read_le_ext. intros j Hj.
  rewrite list_lookup_total_inserts by (rewrite length_le_bytes; lia).
  by rewrite Nat.sub_0_r.
Qed.

(** The bytes of sample [i] in what a loop of fixed width has written. *)
Lemma bytes_at_sample (enc : Z -> list Z) (w : nat) (view : list Z) (base n i : nat) :
  (forall i, length (enc i) = w) ->
  (i < n)%nat -> (base + w * n <= length view)%nat ->
  bytes_at (list_inserts base (mjoin (enc <$> seqZ 0 (Z.of_nat n))) view) (base + w * i) w
  = enc (Z.of_nat i).
Proof.
  intros Hw Hi Hfit.
  replace (Z.of_nat n) with (Z.of_nat i + (1 + Z.of_nat (n - i - 1)))%Z by lia.
  rewrite seqZ_app, (seqZ_app _ 1) by lia.
  rewrite !fmap_app, !join_app, !list_inserts_app_l.
  rewrite (length_join_fixed w (enc <$> seqZ 0 (Z.of_nat i)))
    by (apply Forall_fmap, Forall_forall; intros; apply Hw).
  rewrite length_fmap, length_seqZ, Nat2Z.id.
  change (seqZ (0 + Z.of_nat i) 1) with [(0 + Z.of_nat i)%Z].
  cbn [fmap list_fmap mjoin list_join]. rewrite app_nil_r, Z.add_0_l.
  rewrite bytes_at_inserts_other by (rewrite Hw; lia).
  replace (w * i + base)%nat with (base + w * i)%nat by lia.
  pose proof (bytes_at_written
    (list_inserts base (mjoin (enc <$> seqZ 0 (Z.of_nat i))) view)
    (enc (Z.of_nat i)) (base + w * i)) as Hrd.
  rewrite Hw in Hrd. apply Hrd. rewrite length_inserts. nia.
Qed.

Lemma len_inserts (view bs : list Z) (offset : nat) :
  len (list_inserts offset bs view) = len view.
Proof. unfold len. by rewrite length_inserts. Qed.

(** Three writes of one byte each, at consecutive offsets, are one write of
    three bytes; when one of them does not fit the loop is left by the
    RangeError all the same. *)
Lemma write_bytes_three {T} (view : list Z) (off : Z) (b0 b1 b2 : Z)
    (k : list Z -> completion T) :
  (let? view := write_bytes view (off + 0) [b0] in
   let? view := write_bytes view (off + 1) [b1] in
   let? view := write_bytes view (off + 2) [b2] in
   k view)
  = let? view := write_bytes view off [b0; b1; b2] in k view.
Proof.
  unfold write_bytes at 4.
  destruct (decide (0 <= off /\ off + len [b0; b1; b2] <= len view)%Z) as [Hfit|Hfit].
  - change (len [b0; b1; b2]) with 3%Z in Hfit.
    rewrite write_bytes_ok by (change (len [b0]) with 1%Z; lia). cbn [cbind].
    rewrite write_bytes_ok by (rewrite ?len_inserts; change (len [b1]) with 1%Z; lia).
    cbn [cbind].
    rewrite write_bytes_ok by (rewrite ?len_inserts; change (len [b2]) with 1%Z; lia).
    cbn [cbind]. f_equal.
    replace (Z.to_nat (off + 0)) with (Z.to_nat off) by lia.
    replace (Z.to_nat (off + 1)) with (S (Z.to_nat off)) by lia.
    replace (Z.to_nat (off + 2)) with (S (S (Z.to_nat off))) by lia.
    cbn [list_inserts].
    rewrite (list_insert_insert_ne _ (S (S (Z.to_nat off))) (S (Z.to_nat off))) by lia.
    rewrite (list_insert_insert_ne _ (S (S (Z.to_nat off))) (Z.to_nat off)) by lia.
    rewrite (list_insert_insert_ne _ (S (Z.to_nat off)) (Z.to_nat off)) by lia.
    reflexivity.
  - change (len [b0; b1; b2]) with 3%Z in Hfit. cbn [cbind].
    unfold write_bytes at 1. change (len [b0]) with 1%Z.
    case_decide; [|reflexivity]. cbn [cbind].
    unfold write_bytes at 1. rewrite len_inserts. change (len [b1]) with 1%Z.
    case_decide; [|reflexivity]. cbn [cbind].
    unfold write_bytes at 1. rewrite !len_inserts. change (len [b2]) with 1%Z.
    case_decide; [lia|reflexivity].
Qed.

Lemma length_pcm_bytes (bits : Z) (interleaved : list R) (i : Z) :
  length (pcm_bytes bits interleaved i) = Z.to_nat (bytesPerSample bits).
Proof.
  unfold pcm_bytes, bytesPerSample.
  destruct (decide (bits = 24)%Z) as [->|?]; [reflexivity|].
  destruct (decide (bits = 16)%Z); reflexivity.
Qed.

(** Each of the three sample loops writes the bytes of one sample and moves
    the offset by their number. *)
Lemma pcm_step_write (bits : Z) (interleaved : list R) (view : list Z) (off i : Z) :
  (if decide (bits = 16)%Z then pcm16_step interleaved
   else if decide (bits = 24)%Z then pcm24_step interleaved
   else pcm8_step interleaved) (view, off) i
  = let? view' := write_bytes view off (pcm_bytes bits interleaved i) in
    Normal (view', (off + Z.of_nat (Z.to_nat (bytesPerSample bits)))%Z).
Proof.
  unfold pcm_bytes, bytesPerSample.
  destruct (decide (bits = 16)%Z) as [->|H16]; [reflexivity|].
  destruct (decide (bits = 24)%Z) as [->|H24]; [|reflexivity].
  unfold pcm24_step, setUint8. cbn [le_bytes app].
  apply (write_bytes_three view off).
Qed.

Lemma length_duplicate_loop {A} `{Inhabited A} (data out : list A) (l : list Z) :
  length (foldl (fun out i =>
                   let v := aget data i in aset (aset out (2 * i) v) (2 * i + 1) v)
                out l) = length out.
Proof.
  revert out. induction l as [|i l IH]; intros out; cbn [foldl]; [reflexivity|].
  by rewrite IH, !length_aset.
Qed.

Lemma length_duplicate_channels {A} `{Inhabited A} (data out : list A) :
  length (duplicate_channels data out) = length out.
Proof. apply length_duplicate_loop. Qed.

Lemma lookup_duplicate_channels {A} `{Inhabited A} (data out : list A) (i c : nat) :
  (2 * length data <= length out)%nat -> (i < length data)%nat -> (c < 2)%nat ->
  duplicate_channels data out !! (2 * i + c)%nat = data !! i.
Proof.
  intros Hout Hi Hc. unfold duplicate_channels, len.
  assert (Hgen : forall k, (k <= length data)%nat -> (i < k)%nat ->
    foldl (fun out i => let v := aget data i in aset (aset out (2 * i) v) (2 * i + 1) v)
          out (seqZ 0 (Z.of_nat k)) !! (2 * i + c)%nat = data !! i).
  { induction k as [|k IH]; intros Hk Hik; [lia|].
    rewrite seqZ_S, foldl_app. cbn [foldl]. rewrite Z.add_0_l.
    set (outk := foldl _ out (seqZ 0 (Z.of_nat k))) in *.
    assert (Hlen : length outk = length out).
    { apply length_duplicate_loop. }
    destruct (decide (i = k)) as [->|Hne].
    - unfold aget. rewrite Nat2Z.id.
      rewrite (list_lookup_lookup_total_lt data k) by lia.
      destruct c as [|[|c]]; [| |lia].
      + rewrite lookup_aset_ne by lia.
        replace (2 * Z.of_nat k)%Z with (Z.of_nat (2 * k + 0)) by lia.
        apply lookup_aset_eq. lia.
      + replace (2 * Z.of_nat k + 1)%Z with (Z.of_nat (2 * k + 1)) by lia.
        apply lookup_aset_eq. rewrite length_aset. lia.
    - rewrite !lookup_aset_ne by lia. apply IH; lia. }
  apply Hgen; lia.
Qed.

Lemma bytesPerSample_range (bits : Z) : (1 <= bytesPerSample bits <= 3)%Z.
Proof. unfold bytesPerSample. repeat case_decide; lia. Qed.

Lemma new_array_ok {A} (n : Z) (zero : A) :
  (0 <= n)%Z -> new_array n zero = Normal (replicate (Z.to_nat n) zero).
Proof. intros Hn. unfold new_array. by rewrite decide_False by lia. Qed.

(** The file of [encodeWavFromPCM], field by field. *)
Lemma encodeWavFromPCM_file (floatData : list R) (sampleRate : R) (bits channels : Z) :
  (0 <= channels)%Z ->
  let interleaved :=
    if decide (channels = 1)%Z then floatData
    else duplicate_channels floatData
           (replicate (Z.to_nat (len floatData * channels)) 0) in
  let w := Z.to_nat (bytesPerSample bits) in
  let blockAlign := (channels * bytesPerSample bits)%Z in
  let dataSize := (len interleaved * bytesPerSample bits)%Z in
  exists file,
    encodeWavFromPCM floatData sampleRate bits channels = Normal file /\
    len file = (44 + dataSize)%Z /\
    bytes_at file 0 4 = charCodes "RIFF" /\
    bytes_at file 4 4 = le_bytes 4 (toUint 32 (IZR (36 + dataSize))) /\
    bytes_at file 8 4 = charCodes "WAVE" /\
    bytes_at file 12 4 = charCodes "fmt " /\
    bytes_at file 16 4 = le_bytes 4 (toUint 32 16) /\
    bytes_at file 20 2 = le_bytes 2 (toUint 16 1) /\
    bytes_at file 22 2 = le_bytes 2 (toUint 16 (IZR channels)) /\
    bytes_at file 24 4 = le_bytes 4 (toUint 32 sampleRate) /\
    bytes_at file 28 4 = le_bytes 4 (toUint 32 (sampleRate * IZR blockAlign)) /\
    bytes_at file 32 2 = le_bytes 2 (toUint 16 (IZR blockAlign)) /\
    bytes_at file 34 2 = le_bytes 2 (toUint 16 (IZR bits)) /\
    bytes_at file 36 4 = charCodes "data" /\
    bytes_at file 40 4 = le_bytes 4 (toUint 32 (IZR dataSize)) /\
    forall i : nat, (i < length interleaved)%nat ->
      bytes_at file (44 + w * i) w = pcm_bytes bits interleaved (Z.of_nat i).
Proof.
  intros Hch interleaved w blockAlign dataSize.
  pose proof (bytesPerSample_range bits) as Hbps.
  assert (Hd : (0 <= dataSize)%Z) by (unfold dataSize, len; nia).
  unfold encodeWavFromPCM.
  rewrite new_array_ok by (unfold len; nia). cbn [cbind]. cbv zeta.
  fold interleaved. fold dataSize. fold blockAlign.
  rewrite new_array_ok by lia. cbn [cbind].
  set (buf := replicate (Z.to_nat (44 + dataSize)) 0%Z).
  assert (Hbuf : len buf = (44 + dataSize)%Z).
  { unfold len, buf. rewrite length_replicate. lia. }
  unfold setUint32, setUint16.
  repeat (first [rewrite writeString_bytes | rewrite write_bytes_ok];
          [cbn [cbind] | lia
          | rewrite ?len_inserts, Hbuf; unfold len;
            rewrite ?length_charCodes, ?length_le_bytes; cbn [String.length]; lia]).
  change (seqZ 0 (len interleaved)) with (seqZ 0 (Z.of_nat (length interleaved))).
  rewrite (forC_fixed_width (pcm_bytes bits interleaved) w).
  2:{ intros. apply pcm_step_write. }
  2:{ intros. apply length_pcm_bytes. }
  2:{ lia. }
  2:{ rewrite !len_inserts, Hbuf. unfold dataSize, w, len. lia. }
  cbn [cbind]. eexists. split; [reflexivity|].
  assert (Hfit : (44 + w * length interleaved)%nat = length buf).
  { unfold len in Hbuf. unfold dataSize, len in Hbuf. unfold w. lia. }
  split; [rewrite len_inserts; rewrite !len_inserts; exact Hbuf|].
  repeat lazymatch goal with
  | |- _ /\ _ => split
  | |- forall _, _ => idtac
  | |- bytes_at _ _ _ = _ =>
      rewrite !bytes_at_inserts_other by (first [right; cbn; lia | left; cbn; lia]);
      apply bytes_at_written;
      rewrite ?length_inserts, ?length_le_bytes, ?length_charCodes, <- Hfit;
      cbn [String.length]; lia
  end.
  intros i Hi.
  replace (Z.to_nat 44) with 44%nat by reflexivity.
  apply bytes_at_sample; [apply length_pcm_bytes | exact Hi |].
  rewrite !length_inserts. lia.
Qed.

Lemma len_interleaved (floatData : list R) (channels : Z) :
  (0 <= channels)%Z ->
  len (if decide (channels = 1)%Z then floatData
       else duplicate_channels floatData
              (replicate (Z.to_nat (len floatData * channels)) 0))
  = (len floatData * channels)%Z.
Proof.
  intros Hch. destruct (decide (channels = 1)%Z) as [->|Hne]; [lia|].
  unfold len. rewrite length_duplicate_channels, length_replicate. lia.
Qed.

Lemma read_le_field (n : nat) (view : list Z) (offset : nat) (v : Z) :
  bytes_at view offset n = le_bytes n v ->
  (0 <= v < 256 ^ Z.of_nat n)%Z ->
  read_le n view offset = v.
Proof.
  intros Hb Hv. rewrite read_le_bytes_at, Hb, read_le_le_bytes.
  by apply Z.mod_small.
Qed.

Lemma toUint_small (w z : Z) : (0 <= z < 2 ^ w)%Z -> toUint w (IZR z) = z.
Proof. intros Hz. rewrite toUint_IZR. by apply Z.mod_small. Qed.

(** X26: for a sample rate, a channel count and a bit depth that fit their
    fields, [encodeWavFromPCM] returns a file of 44 bytes of header and
    [bytesPerSample] bytes per sample and channel, with the tags RIFF,
    WAVE, fmt and data in place, the RIFF size the length of the file less
    8, the format PCM, and the data size the length of the file less 44. *)
Theorem encodeWavFromPCM_header (floatData : list R) (fs bits channels : Z) :
  (0 <= channels)%Z -> (channels * bytesPerSample bits < 65536)%Z ->
  (0 <= bits < 65536)%Z -> (0 <= fs < 2 ^ 32)%Z -> (fs * (channels * bytesPerSample bits) < 2 ^ 32)%Z ->
  (44 + len floatData * channels * bytesPerSample bits < 2 ^ 32)%Z ->
  exists file,
    encodeWavFromPCM floatData (IZR fs) bits channels = Normal file /\
    len file = (44 + len floatData * channels * bytesPerSample bits)%Z /\
    bytes_at file 0 4 = charCodes "RIFF" /\
    read_le 4 file 4 = (len file - 8)%Z /\
    bytes_at file 8 4 = charCodes "WAVE" /\
    bytes_at file 12 4 = charCodes "fmt " /\
    read_le 4 file 16 = 16%Z /\
    read_le 2 file 20 = 1%Z /\
    read_le 2 file 22 = channels /\
    read_le 4 file 24 = fs /\
    read_le 4 file 28 = (fs * (channels * bytesPerSample bits))%Z /\
    read_le 2 file 32 = (channels * bytesPerSample bits)%Z /\
    read_le 2 file 34 = bits /\
    bytes_at file 36 4 = charCodes "data" /\
    read_le 4 file 40 = (len file - 44)%Z.
Proof.
  intros Hch Hblock Hbits Hfs Hrate Hsize.
  pose proof (bytesPerSample_range bits) as Hbps.
  destruct (encodeWavFromPCM_file floatData (IZR fs) bits channels Hch)
    as (file & Hfile & Hlen & HRIFF & Hriff & HWAVE & Hfmt & Hfmtsz & Hformat & Hchan
        & Hsr & Hbr & Hba & Hbi & Hdata & Hds & _).
  rewrite len_interleaved in Hlen, Hriff, Hds by lia.
  rewrite <- mult_IZR in Hbr.
  change (toUint 32 16) with (toUint 32 (IZR 16)) in Hfmtsz.
  change (toUint 16 1) with (toUint 16 (IZR 1)) in Hformat.
  assert (Hnn : (0 <= len floatData * channels * bytesPerSample bits)%Z)
    by (unfold len; nia).
  assert (Hba0 : (0 <= channels * bytesPerSample bits < 65536)%Z) by nia.
  assert (Hbr0 : (0 <= fs * (channels * bytesPerSample bits))%Z) by nia.
  change (2 ^ 32)%Z with 4294967296%Z in *.
  rewrite toUint_small in Hriff, Hfmtsz, Hformat, Hchan, Hsr, Hbr, Hba, Hbi, Hds
    by (try change (2 ^ 32)%Z with 4294967296%Z;
        try change (2 ^ 16)%Z with 65536%Z; lia).
  apply read_le_field in Hriff, Hfmtsz, Hformat, Hchan, Hsr, Hbr, Hba, Hbi, Hds;
    try change (256 ^ Z.of_nat 4)%Z with 4294967296%Z;
    try change (256 ^ Z.of_nat 2)%Z with 65536%Z; try lia.
  exists file. rewrite Hlen, Hriff, Hds.
  repeat split; try assumption; lia.
Qed.

Lemma encodeWavFromPCM_header_witness :
  exists file,
    encodeWavFromPCM [0.5; -0.25; 1] (IZR 8000) 16 2 = Normal file /\
    len file = 56%Z /\
    read_le 4 file 4 = 48%Z /\
    read_le 2 file 22 = 2%Z /\
    read_le 4 file 28 = 32000%Z /\
    read_le 4 file 40 = 12%Z.
Proof.
  destruct (encodeWavFromPCM_header [0.5; -0.25; 1] 8000 16 2)
    as (file & Hfile & Hlen & _ & Hriff & _ & _ & _ & _ & Hch & _ & Hbr & _ & _ & _ & Hds);
    [first [lia | vm_compute; split; congruence | vm_compute; congruence] ..|].
  exists file. rewrite Hlen in Hriff, Hds. repeat split; assumption.
Defined.

(** A signed 16-bit sample is read back as it was written. *)
Lemma getInt16_written (view : list Z) (offset : nat) (z : Z) :
  bytes_at view offset 2 = le_bytes 2 (toInt 16 (IZR z)) ->
  (-32768 <= z < 32768)%Z ->
  getInt16 view offset = z.
Proof.
  intros Hb Hz. unfold getInt16.
  rewrite read_le_bytes_at, Hb, read_le_le_bytes.
  rewrite toInt_small by (change (2 ^ (16 - 1))%Z with 32768%Z; lia).
  change (256 ^ Z.of_nat 2)%Z with 65536%Z.
  destruct (decide (0 <= z)%Z) as [Hpos|Hneg].
  - rewrite Z.mod_small by lia. rewrite decide_True by lia. reflexivity.
  - replace (z mod 65536)%Z with (z + 65536)%Z.
    + rewrite decide_False by lia. lia.
    + rewrite <- (Z.mod_add z 1 65536) by lia. rewrite Z.mod_small; lia.
Qed.

Lemma getInt16_sample (file : list Z) (interleaved : list R) (j : nat) :
  bytes_at file (44 + 2 * j) 2 = pcm_bytes 16 interleaved (Z.of_nat j) ->
  getInt16 file (44 + 2 * j)
  = Math.round (clamp (aget interleaved (Z.of_nat j)) (-1) 1 * 32767).
Proof.
  intros Hb. apply getInt16_written; [exact Hb|].
  pose proof (round_code_range 32767 (clamp (aget interleaved (Z.of_nat j)) (-1) 1)
                ltac:(lia) (clamp_bounds _ (-1) 1 ltac:(lra))).
  lia.
Qed.

(** X27: in the 16-bit file of a mono or stereo recording, the sample of
    frame [i] on channel [c], read as a signed little-endian 16-bit integer,
    is the input sample [i] clamped to [-1, 1] and scaled by 32767, rounded;
    both channels of a stereo file carry the same signal. *)
Theorem encodeWavFromPCM_16bit_samples (floatData : list R) (sampleRate : R)
    (channels : Z) (i c : nat) :
  (channels = 1 \/ channels = 2)%Z ->
  (i < length floatData)%nat -> (Z.of_nat c < channels)%Z ->
  exists file,
    encodeWavFromPCM floatData sampleRate 16 channels = Normal file /\
    getInt16 file (44 + 2 * (Z.to_nat channels * i + c))
    = Math.round (clamp (floatData !!! i) (-1) 1 * 32767).
Proof.
  intros Hch Hi Hc.
  destruct (encodeWavFromPCM_file floatData sampleRate 16 channels ltac:(lia))
    as (file & Hfile & _ & _ & _ & _ & _ & _ & _ & _ & _ & _ & _ & _ & _ & _ & Hsamples).
  exists file. split; [exact Hfile|].
  change (Z.to_nat (bytesPerSample 16)) with 2%nat in Hsamples.
  pose proof (len_interleaved floatData channels ltac:(lia)) as Hlen.
  set (interleaved := if decide (channels = 1)%Z then floatData else _) in *.
  assert (Hj : (Z.to_nat channels * i + c < length interleaved)%nat)
    by (unfold len in Hlen; nia).
  rewrite (getInt16_sample file _ _ (Hsamples _ Hj)).
  do 3 f_equal. subst interleaved. unfold aget. rewrite Nat2Z.id.
  destruct Hch as [-> | ->].
  - rewrite decide_True by reflexivity. f_equal. lia.
  - rewrite decide_False by lia.
    apply list_lookup_total_correct.
    change (Z.to_nat 2) with 2%nat.
    rewrite lookup_duplicate_channels by (rewrite ?length_replicate; unfold len; lia).
    apply list_lookup_lookup_total_lt. lia.
Qed.

Lemma encodeWavFromPCM_16bit_samples_witness :
  exists file,
    encodeWavFromPCM [0.5; -0.25; 1] 8000 16 2 = Normal file /\
    getInt16 file (44 + 2 * (Z.to_nat 2 * 1 + 1))
    = Math.round (clamp ([0.5; -0.25; 1] !!! 1%nat) (-1) 1 * 32767).
Proof.
  apply (encodeWavFromPCM_16bit_samples [0.5; -0.25; 1] 8000 2 1 1);
    [right; reflexivity | cbn; lia | lia].
Defined.

(** X28: the 16-bit mono file of a recording quantised to 16 bits holds the
    integer codes of [quantizeBuffer], sample by sample. *)
Theorem encodeWavFromPCM_quantized (xFloat : list R) (o : QuantizeOptions)
    (s : RNG) (sampleRate : R) :
  startsWith (compression o) "μ" = false -> bits o = 16%Z ->
  let r := (quantizeBuffer xFloat o s).1 in
  exists file,
    encodeWavFromPCM (qFloat r) sampleRate (bits o) 1 = Normal file /\
    len file = (44 + 2 * len xFloat)%Z /\
    forall k : nat, (k < length xFloat)%nat ->
      getInt16 file (44 + 2 * k) = int_data (pcm r) !!! k.
Proof.
  intros Hlin Hbits r.
  destruct (quantizeBuffer_linear_cells xFloat o s Hlin) as (Hq & _ & _ & Hcells).
  fold r in Hq, Hcells. rewrite Hbits in *.
  destruct (encodeWavFromPCM_file (qFloat r) sampleRate 16 1 ltac:(lia))
    as (file & Hfile & Hlen & _ & _ & _ & _ & _ & _ & _ & _ & _ & _ & _ & _ & _ & Hsamples).
  rewrite decide_True in Hlen, Hsamples by reflexivity.
  change (Z.to_nat (bytesPerSample 16)) with 2%nat in Hsamples.
  change (bytesPerSample 16) with 2%Z in Hlen.
  exists file. split; [exact Hfile|]. split; [unfold len in *; lia|].
  intros k Hk.
  rewrite (getInt16_sample file _ _ (Hsamples k ltac:(lia))).
  destruct (Hcells k Hk) as (v & Hv & Hcell).
  apply pcm_cell_Some in Hcell as (Hcode & Hqv & _).
  rewrite (list_lookup_total_correct _ _ _ Hcode).
  unfold aget. rewrite Nat2Z.id, (list_lookup_total_correct _ _ _ Hqv).
  rewrite decide_False by lia. rewrite decide_True by reflexivity.
  rewrite (peak_IZR 16) by lia.
  change (2 ^ (16 - 1) - 1)%Z with 32767%Z.
  pose proof (round_code_range 32767 v ltac:(lia) Hv) as Hr.
  set (q := Math.round (v * 32767)) in *.
  rewrite toInt_small by (change (2 ^ (16 - 1))%Z with 32768%Z; lia).
  rewrite clamp_id.
  - replace (IZR q / 32767 * 32767) with (IZR q) by (field; lra).
    apply round_IZR.
  - destruct Hr as [Hr2 Hr3].
    apply IZR_le in Hr2, Hr3. rewrite opp_IZR in Hr2.
    split.
    + apply (Rmult_le_reg_r 32767); [lra|].
      replace (IZR q / 32767 * 32767) with (IZR q) by (field; lra). lra.
    + apply (Rmult_le_reg_r 32767); [lra|].
      replace (IZR q / 32767 * 32767) with (IZR q) by (field; lra). lra.
Qed.

Lemma encodeWavFromPCM_quantized_witness :
  let r := (quantizeBuffer [0.5; -0.25]
              {| bits := 16; dither := false; compression := "None" |}
              (fun _ => 0)).1 in
  exists file,
    encodeWavFromPCM (qFloat r) 8000 16 1 = Normal file /\
    len file = 48%Z /\
    forall k : nat, (k < 2)%nat ->
      getInt16 file (44 + 2 * k) = int_data (pcm r) !!! k.
Proof.
  apply (encodeWavFromPCM_quantized [0.5; -0.25]
           {| bits := 16; dither := false; compression := "None" |});
    reflexivity.
Defined.

Lemma len_interleaved_ulaw (ulawBytes : list Z) (channels : Z) :
  len (if decide (channels = 1)%Z then ulawBytes
       else duplicate_channels ulawBytes
              (replicate (Z.to_nat (len ulawBytes * 2)) 0%Z))
  = if decide (channels = 1)%Z then len ulawBytes else (len ulawBytes * 2)%Z.
Proof.
  destruct (decide (channels = 1)%Z); [reflexivity|].
  unfold len. rewrite length_duplicate_channels, length_replicate. lia.
Qed.

Lemma encodeWavFromULaw_interleaved (ulawBytes : list Z) (channels : Z) :
  (if decide (channels = 1)%Z then Normal ulawBytes
   else let? out := new_array (len ulawBytes * 2) 0%Z in
        Normal (duplicate_channels ulawBytes out))
  = Normal (if decide (channels = 1)%Z then ulawBytes
            else duplicate_channels ulawBytes
                   (replicate (Z.to_nat (len ulawBytes * 2)) 0%Z)).
Proof.
  destruct (decide (channels = 1)%Z); [reflexivity|].
  rewrite new_array_ok by (unfold len; lia). reflexivity.
Qed.

(** A loop that stores one byte per index. *)
Lemma forC_setUint8 (codes view : list Z) (offset : Z) :
  (0 <= offset)%Z -> (offset + len codes <= len view)%Z ->
  forC (fun view i => setUint8 view (offset + i) (IZR (aget codes i)))
       view (seqZ 0 (len codes))
  = Normal (list_inserts (Z.to_nat offset)
              ((fun b => toUint 8 (IZR b) mod 256)%Z <$> codes) view).
Proof.
  intros H0 Hfit.
  pose proof (forC_write_each (fun b => toUint 8 (IZR b) mod 256)%Z codes view offset
                (length codes) H0 Hfit ltac:(lia)) as Hloop.
  rewrite firstn_all in Hloop. exact Hloop.
Qed.

(** The file of [encodeWavFromULaw], field by field: the size field of the
    data chunk starts at byte 42 and the samples at byte 44. *)
Lemma encodeWavFromULaw_file (ulawBytes : list Z) (sampleRate : R) (channels : Z) :
  let interleaved :=
    if decide (channels = 1)%Z then ulawBytes
    else duplicate_channels ulawBytes
           (replicate (Z.to_nat (len ulawBytes * 2)) 0%Z) in
  let dataSize := len interleaved in
  (2 <= dataSize)%Z ->
  exists file,
    encodeWavFromULaw ulawBytes sampleRate channels = Normal file /\
    len file = (44 + dataSize)%Z /\
    bytes_at file 0 4 = charCodes "RIFF" /\
    bytes_at file 4 4 = le_bytes 4 (toUint 32 (IZR (36 + dataSize))) /\
    bytes_at file 8 4 = charCodes "WAVE" /\
    bytes_at file 12 4 = charCodes "fmt " /\
    bytes_at file 16 4 = le_bytes 4 (toUint 32 18) /\
    bytes_at file 20 2 = le_bytes 2 (toUint 16 7) /\
    bytes_at file 22 2 = le_bytes 2 (toUint 16 (IZR channels)) /\
    bytes_at file 24 4 = le_bytes 4 (toUint 32 sampleRate) /\
    bytes_at file 28 4 = le_bytes 4 (toUint 32 (sampleRate * IZR (channels * 1))) /\
    bytes_at file 32 2 = le_bytes 2 (toUint 16 (IZR (channels * 1))) /\
    bytes_at file 34 2 = le_bytes 2 (toUint 16 8) /\
    bytes_at file 36 2 = le_bytes 2 (toUint 16 0) /\
    bytes_at file 38 4 = charCodes "data" /\
    bytes_at file 42 2 = le_bytes 2 (toUint 32 (IZR dataSize)) /\
    bytes_at file 44 (length interleaved)
    = (fun b => toUint 8 (IZR b) mod 256)%Z <$> interleaved.
Proof.
  intros interleaved dataSize Hd.
  unfold encodeWavFromULaw.
  rewrite encodeWavFromULaw_interleaved. cbn [cbind]. cbv zeta.
  fold interleaved. fold dataSize.
  rewrite new_array_ok by lia. cbn [cbind].
  set (buf := replicate (Z.to_nat (44 + dataSize)) 0%Z).
  assert (Hbuf : len buf = (44 + dataSize)%Z).
  { unfold len, buf. rewrite length_replicate. lia. }
  unfold setUint32, setUint16.
  repeat (first [rewrite writeString_bytes | rewrite write_bytes_ok];
          [cbn [cbind] | lia
          | rewrite ?len_inserts, Hbuf; unfold len;
            rewrite ?length_charCodes, ?length_le_bytes; cbn [String.length]; lia]).
  rewrite forC_setUint8 by (rewrite ?len_inserts, ?Hbuf; unfold dataSize, len; lia).
  eexists. split; [reflexivity|].
  assert (Hfit : (44 + length interleaved)%nat = length buf).
  { unfold len in Hbuf. unfold dataSize, len in Hbuf. lia. }
  split; [rewrite !len_inserts; exact Hbuf|].
  change (le_bytes 4 (toUint 32 (IZR dataSize)))
    with (le_bytes 2 (toUint 32 (IZR dataSize))
          ++ le_bytes 2 (toUint 32 (IZR dataSize) / 256 / 256)).
  rewrite list_inserts_app_l.
  repeat lazymatch goal with
  | |- _ /\ _ => split
  | |- bytes_at _ (Z.to_nat 44) _ = _ => idtac
  | |- bytes_at _ _ _ = _ =>
      rewrite !bytes_at_inserts_other
        by (rewrite ?length_fmap, ?length_le_bytes, ?length_charCodes;
            cbn [String.length]; lia);
      apply bytes_at_written;
      rewrite ?length_inserts, ?length_le_bytes, ?length_charCodes, <- Hfit;
      cbn [String.length]; lia
  end.
  rewrite <- (length_fmap (fun b => toUint 8 (IZR b) mod 256)%Z interleaved).
  apply bytes_at_written. rewrite !length_inserts, length_fmap. lia.
Qed.

(** X29: [encodeWavFromULaw] writes the size of the data chunk at byte 42 of
    a buffer of 44 bytes and the data, so for a recording of less than two
    bytes of data the write does not fit and the call throws a
    RangeError. *)
Theorem encodeWavFromULaw_short (ulawBytes : list Z) (sampleRate : R) (channels : Z) :
  (length ulawBytes < 2)%nat -> channels = 1%Z \/ ulawBytes = [] ->
  encodeWavFromULaw ulawBytes sampleRate channels = Throw "RangeError".
Proof.
  intros Hshort Hcase.
  pose proof (len_interleaved_ulaw ulawBytes channels) as Hlen.
  unfold encodeWavFromULaw.
  rewrite encodeWavFromULaw_interleaved. cbn [cbind]. cbv zeta.
  set (interleaved := if decide (channels = 1)%Z then ulawBytes else _) in *.
  assert (Hd : (0 <= len interleaved < 2)%Z).
  { rewrite Hlen. destruct Hcase as [-> | ->].
    - rewrite decide_True by reflexivity. unfold len. lia.
    - case_decide; unfold len; cbn; lia. }
  rewrite new_array_ok by lia. cbn [cbind].
  set (buf := replicate (Z.to_nat (44 + len interleaved)) 0%Z).
  assert (Hbuf : len buf = (44 + len interleaved)%Z).
  { unfold len at 1. unfold buf. rewrite length_replicate. lia. }
  unfold setUint32, setUint16.
  repeat (first [rewrite writeString_bytes | rewrite write_bytes_ok];
          [cbn [cbind] | lia
          | rewrite ?len_inserts, Hbuf; unfold len at 1;
            rewrite ?length_charCodes, ?length_le_bytes; cbn [String.length]; lia]).
  rewrite write_bytes_throw; [reflexivity|].
  rewrite !len_inserts, Hbuf. unfold len at 2. rewrite length_le_bytes. lia.
Qed.

Lemma encodeWavFromULaw_short_witness :
  encodeWavFromULaw [200%Z] 8000 1 = Throw "RangeError".
Proof.
  apply (encodeWavFromULaw_short [200%Z] 8000 1); [cbn; lia | left; reflexivity].
Defined.

(** X30: for two bytes of data or more, [encodeWavFromULaw] returns a file
    of 44 bytes and the data, of format 7 with 8 bits per sample, whose data
    chunk is tagged at byte 38; the samples start at byte 44, every channel
    carrying the bytes given, and so lie over the upper half of the size
    field of the data chunk at byte 42. *)
Theorem encodeWavFromULaw_layout (ulawBytes : list Z) (sampleRate : R) (channels : Z) :
  Forall (fun b => (0 <= b < 256)%Z) ulawBytes ->
  (channels = 1 \/ channels = 2)%Z ->
  (2 <= len ulawBytes * channels)%Z ->
  (44 + len ulawBytes * channels < 2 ^ 32)%Z ->
  exists file,
    encodeWavFromULaw ulawBytes sampleRate channels = Normal file /\
    len file = (44 + len ulawBytes * channels)%Z /\
    read_le 4 file 16 = 18%Z /\
    read_le 2 file 20 = 7%Z /\
    read_le 2 file 22 = channels /\
    read_le 2 file 34 = 8%Z /\
    bytes_at file 38 4 = charCodes "data" /\
    read_le 4 file 42
    = ((len ulawBytes * channels) mod 65536 + 65536 * read_le 2 file 44)%Z /\
    forall i c : nat, (i < length ulawBytes)%nat -> (Z.of_nat c < channels)%Z ->
      file !! (44 + (Z.to_nat channels * i + c))%nat = ulawBytes !! i.
Proof.
  intros Hbytes Hch Hmin Hmax.
  pose proof (len_interleaved_ulaw ulawBytes channels) as Hlen.
  pose proof (encodeWavFromULaw_file ulawBytes sampleRate channels) as Hfile.
  cbv zeta in Hfile.
  set (interleaved := if decide (channels = 1)%Z then ulawBytes else _) in *.
  assert (Hd : len interleaved = (len ulawBytes * channels)%Z).
  { rewrite Hlen. destruct Hch as [-> | ->].
    - rewrite decide_True by reflexivity. lia.
    - rewrite decide_False by lia. reflexivity. }
  rewrite Hd in Hfile.
  destruct (Hfile Hmin)
    as (file & Henc & Hflen & _ & _ & _ & _ & Hfmtsz & Hformat & Hchan & _ & _ & _
        & Hbits & _ & Hdata & Hsize & Hsamples).
  change (toUint 32 18) with (toUint 32 (IZR 18)) in Hfmtsz.
  change (toUint 16 7) with (toUint 16 (IZR 7)) in Hformat.
  change (toUint 16 8) with (toUint 16 (IZR 8)) in Hbits.
  change (2 ^ 32)%Z with 4294967296%Z in *.
  assert (Hnn : (0 <= len ulawBytes * channels)%Z) by lia.
  rewrite toUint_small in Hfmtsz, Hformat, Hchan, Hbits, Hsize
    by (try change (2 ^ 32)%Z with 4294967296%Z;
        try change (2 ^ 16)%Z with 65536%Z; lia).
  apply read_le_field in Hfmtsz, Hformat, Hchan, Hbits;
    try change (256 ^ Z.of_nat 4)%Z with 4294967296%Z;
    try change (256 ^ Z.of_nat 2)%Z with 65536%Z; try lia.
  exists file. repeat split; try assumption.
  - transitivity (read_le 2 file 42 + 65536 * read_le 2 file 44)%Z.
    + cbn [read_le]. lia.
    + f_equal. rewrite (read_le_bytes_at 2 file 42), Hsize, read_le_le_bytes.
      reflexivity.
  - intros i c Hi Hc.
    assert (Hj : (Z.to_nat channels * i + c < length interleaved)%nat)
      by (unfold len in Hd; nia).
    rewrite <- (bytes_at_lookup file 44 (length interleaved)) by exact Hj.
    rewrite Hsamples, list_lookup_fmap.
    assert (Hlk : interleaved !! (Z.to_nat channels * i + c)%nat = ulawBytes !! i).
    { subst interleaved. destruct Hch as [-> | ->].
      - rewrite decide_True by reflexivity. f_equal. lia.
      - rewrite decide_False by lia. change (Z.to_nat 2) with 2%nat.
        apply lookup_duplicate_channels;
          [rewrite length_replicate; unfold len; lia | exact Hi | lia]. }
    rewrite Hlk.
    destruct (lookup_lt_is_Some_2 ulawBytes i Hi) as [b Hb]. rewrite Hb. cbn.
    pose proof (Forall_lookup_1 _ _ _ _ Hbytes Hb) as Hrange. cbn in Hrange.
    rewrite toUint_small by (change (2 ^ 8)%Z with 256%Z; lia).
    by rewrite Z.mod_small by lia.
Qed.

Lemma encodeWavFromULaw_layout_witness :
  exists file,
    encodeWavFromULaw [200; 17; 3]%Z 8000 1 = Normal file /\
    len file = 47%Z /\
    read_le 4 file 42 = (3 + 65536 * read_le 2 file 44)%Z /\
    file !! 44%nat = Some 200%Z /\ file !! 45%nat = Some 17%Z.
Proof.
  destruct (encodeWavFromULaw_layout [200; 17; 3]%Z 8000 1)
    as (file & Henc & Hlen & _ & _ & _ & _ & _ & Hsize & Hsamples);
    [repeat (apply Forall_cons_2; [lia|]); apply Forall_nil_2
    | left; reflexivity | unfold len; cbn; lia | unfold len; cbn; lia |].
  exists file. repeat split; try assumption.
  - exact (Hsamples 0%nat 0%nat ltac:(cbn; lia) ltac:(lia)).
  - exact (Hsamples 1%nat 0%nat ltac:(cbn; lia) ltac:(lia)).
Defined.
